(** * Transaction sizing, packing, signing and submission

    A shallow embedding of the transaction module of the data-source
    client: the size estimator [getTransactionSize], the lookup-table
    selector [findBestLookupTables], the dynamic packer
    [buildDynamicTransactionsNoSigning], the signer coordinator
    [signTransactionReturns] and the submission routine [sendTransaction].

    Conventions of the embedding.
    - JavaScript numbers that hold lengths and counts are [nat].
    - A [PublicKey] is identified with its base58 string, the only form
      in which the sizing code looks at it.
    - A JavaScript [Set<string>] is a [gset string]; the code only ever asks
      such a set for its size and for membership, never for its order.
    - A [Result] of neverthrow is the two-constructor type [Result].
    - A rejected promise or a thrown exception is an explicit outcome. *)

From Stdlib Require Import Strings.Byte.
From stdpp Require Import base decidable numbers option list gmap sets strings
  pretty.
From Equations Require Import Equations.

Set Default Proof Using "Type".

(** ** Data model *)

Abbreviation PublicKey := string (only parsing).

(** [AccountMeta] of web3.js. *)
Record AccountMeta := mkAccountMeta {
  pubkey : PublicKey;
  isSigner : bool;
  isWritable : bool;
}.

(** [TransactionInstruction] of web3.js. *)
Record TransactionInstruction := mkInstruction {
  keys : list AccountMeta;
  programId : PublicKey;
  data : list byte;
}.

(** One slot of [tx.signatures]: 64 zero bytes, bytes that do not verify,
    or a signature that verifies. *)
Inductive SignatureSlot := ZeroSignature | BadSignature | GoodSignature.

(** [AnyTransaction = VersionedTransaction | Transaction]: [txVersioned] is
    ['version' in transaction]; every signature slot belongs to a static
    account key of the message. *)
Record AnyTransaction := mkTransaction {
  txVersioned : bool;
  txMessage : list TransactionInstruction;
  txSignatures : list (PublicKey * SignatureSlot);
}.

(** [AsyncSigner]: [signAll] is a promise; [None] is its rejection. *)
Record AsyncSigner := mkAsyncSigner {
  publicKey : PublicKey;
  requiresAsync : bool;
  signAll : list AnyTransaction → option (list AnyTransaction);
}.

Record InstructionWithSigners := mkIxWithSigners {
  instruction : TransactionInstruction;
  signers : list AsyncSigner;
}.

(** [AddressLookupTableAccount]: its key and [state.addresses]. *)
Record AddressLookupTableAccount := mkLookupTable {
  lutKey : PublicKey;
  addresses : list PublicKey;
}.

(** A value that is either one [T] or an array of them ([T | T[]]). *)
Inductive OneOrMany (T : Type) :=
| One (v : T)
| Many (vs : list T).
Arguments One {T} v.
Arguments Many {T} vs.

Definition normalizeArray {T} (val : OneOrMany T) : list T :=
  match val with
  | One v => [v]
  | Many vs => vs
  end.

(** [InstructionReturn]: an instruction builder waiting for the funder. *)
Definition InstructionReturn : Type :=
  AsyncSigner → OneOrMany InstructionWithSigners.

(** neverthrow's [Result]. *)
Inductive Result (T E : Type) :=
| ok (value : T)
| err (error : E).
Arguments ok {T E} value.
Arguments err {T E} error.

(** ** Size estimator (sizing module) *)

Definition MAX_TRANSACTION_SIZE : nat := 1232.
Definition MAX_UNIQUE_KEYS_COUNT : nat := 128.

Definition lengthToCompact16size (size : nat) : nat :=
  if decide (127 < size) then 2 else 1.

(** [keys.forEach] with the two accumulators of the source. *)
Definition containedInLUTCount (ks lookupTableAddresses : gset string)
    : nat * gset string :=
  set_fold (λ k acc,
      if decide (k ∈ lookupTableAddresses)
      then (S acc.1, acc.2)
      else (acc.1, {[k]} ∪ acc.2))
    (0, ∅) ks.

(** The field [size] of the source is [txSize] here, [size] being the
    cardinality of stdpp. *)
Record TransactionSize := mkTransactionSize {
  txSize : nat;
  txLookupTables : list AddressLookupTableAccount;
  uniqueKeyCount : nat;
}.

Record StaticAccountSize := mkStaticAccountSize {
  staticSize : nat;
  staticAccounts : nat;
}.

Definition totalSize (staticAccountSize : StaticAccountSize)
    (lutCount includedAccounts remainingStatic : nat) : nat :=
  let staticCount := staticAccounts staticAccountSize + remainingStatic in
  staticSize staticAccountSize
  + 34 * lutCount
  + includedAccounts
  + lengthToCompact16size staticCount
  + staticCount * 32.

(** The three key sets after the first [instructions.forEach] of
    [getTransactionSize]. *)
Record KeySets := mkKeySets {
  uniqueSigners : gset string;
  programIds : gset string;
  lutEligibleKeys : gset string;
}.

Definition addAccount (acc : KeySets) (s : AccountMeta) : KeySets :=
  {| uniqueSigners :=
       if isSigner s then {[pubkey s]} ∪ uniqueSigners acc
       else uniqueSigners acc;
     programIds := programIds acc;
     lutEligibleKeys := {[pubkey s]} ∪ lutEligibleKeys acc |}.

Definition addInstruction (acc : KeySets) (iws : InstructionWithSigners)
    : KeySets :=
  let acc' :=
    {| uniqueSigners := uniqueSigners acc;
       programIds := {[programId (instruction iws)]} ∪ programIds acc;
       lutEligibleKeys := lutEligibleKeys acc |} in
  foldl addAccount acc' (keys (instruction iws)).

Definition collectKeys (instructions : list InstructionWithSigners)
    (funder : PublicKey) : KeySets :=
  foldl addInstruction
    {| uniqueSigners := {[funder]}; programIds := ∅; lutEligibleKeys := ∅ |}
    instructions.

Definition ixSize (iws : InstructionWithSigners) : nat :=
  1
  + lengthToCompact16size (length (keys (instruction iws)))
  + length (keys (instruction iws))
  + lengthToCompact16size (length (data (instruction iws)))
  + length (data (instruction iws)).

Definition ixSizes (instructions : list InstructionWithSigners) : nat :=
  foldl (λ acc iws, acc + ixSize iws) 0 instructions.

(** A candidate table paired with the set of its addresses. *)
Abbreviation LutEntry := (gset string * AddressLookupTableAccount)%type
  (only parsing).

Definition buildLookupTableSet (lookupTables : list AddressLookupTableAccount)
    : list LutEntry :=
  (λ lut, (list_to_set (addresses lut), lut)) <$> lookupTables.

(** State of the search loop of [findBestLookupTables]. *)
Record BestSoFar := mkBest {
  bestSize : nat;
  bestRemaining : gset string;
  bestIncluded : nat;
  bestLutIndex : nat;
}.

Inductive ScanOutcome :=
| Returned (r : TransactionSize)
| Finished (b : BestSoFar).

(** The [for (const [lutIndex, lut] of remainingLuts.entries())] loop; the
    first branch is its early [return]. *)
Fixpoint scanLuts (staticAccountSize : StaticAccountSize)
    (lutCount includedAccounts : nat) (remainingAccounts : gset string)
    (usedLuts : list AddressLookupTableAccount)
    (entries : list LutEntry) (lutIndex : nat) (best : BestSoFar)
    : ScanOutcome :=
  match entries with
  | [] => Finished best
  | lut :: rest =>
      let cr := containedInLUTCount remainingAccounts lut.1 in
      let newIncluded := includedAccounts + cr.1 in
      let txnSize :=
        totalSize staticAccountSize (lutCount + 1) newIncluded (size cr.2) in
      if decide (txnSize < MAX_TRANSACTION_SIZE) then
        Returned {| txSize := txnSize;
                    txLookupTables := usedLuts ++ [lut.2];
                    uniqueKeyCount := newIncluded + size cr.2 |}
      else if decide (txnSize < bestSize best) then
        scanLuts staticAccountSize lutCount includedAccounts remainingAccounts
          usedLuts rest (S lutIndex)
          {| bestSize := txnSize; bestRemaining := cr.2;
             bestIncluded := newIncluded; bestLutIndex := lutIndex |}
      else
        scanLuts staticAccountSize lutCount includedAccounts remainingAccounts
          usedLuts rest (S lutIndex) best
  end.

(** [remainingLuts.splice(bestLutIndex, 1)]: the array without that entry. *)
Definition spliceOut {T} (i : nat) (l : list T) : list T :=
  take i l ++ drop (S i) l.

(** Keeps the equation of a scrutinee for the termination argument. *)
Definition inspect {A} (a : A) : {b | a = b} := exist _ a eq_refl.

Equations? findBestLookupTables (staticAccountSize : StaticAccountSize)
    (size lutCount includedAccounts : nat) (remainingAccounts : gset string)
    (usedLuts : list AddressLookupTableAccount)
    (remainingLuts : list LutEntry)
    : TransactionSize by wf (length remainingLuts) lt :=
  findBestLookupTables sas sz lutCount inc rem used [] :=
    {| txSize := sz; txLookupTables := used;
       uniqueKeyCount := inc + base.size rem |};
  findBestLookupTables sas sz lutCount inc rem used (l :: ls)
    with inspect (scanLuts sas lutCount inc rem used (l :: ls) 0
                    {| bestSize := sz; bestRemaining := rem;
                       bestIncluded := inc; bestLutIndex := 0 |}) := {
    | exist _ (Returned r) _ := r
    | exist _ (Finished best) Hscan with decide (sz = bestSize best) := {
      | left _ :=
          {| txSize := sz; txLookupTables := used;
             uniqueKeyCount := inc + base.size rem |}
      | right _ :=
          findBestLookupTables sas (bestSize best) (lutCount + 1)
            (bestIncluded best) (bestRemaining best)
            (used ++ [(nth (bestLutIndex best) (l :: ls) l).2])
            (spliceOut (bestLutIndex best) (l :: ls)) } }.
Proof.
  assert (Hidx : ∀ entries i b b',
    scanLuts sas lutCount inc rem used entries i b = Finished b' →
    b' = b ∨ i ≤ bestLutIndex b' < i + length entries).
  { clear Hscan. induction entries as [|e es IH]; intros i b b'; simpl.
    - intros [= <-]. by left.
    - destruct (decide (_ < MAX_TRANSACTION_SIZE)); [done|].
      destruct (decide (_ < bestSize b)); intros Hs.
      + apply IH in Hs as [->|Hs]; simpl; right; lia.
      + apply IH in Hs as [->|Hs]; [by left | right; lia]. }
  apply (Hidx ((g, a) :: ls) 0 (mkBest sz rem inc 0) best) in Hscan
    as [->|Hs]; simpl in *; [congruence|].
  unfold spliceOut. rewrite length_app, length_take, length_drop.
  simpl. lia.
Qed.

Definition getTransactionSize (instructions : list InstructionWithSigners)
    (funder : PublicKey) (lookupTables : list LutEntry) : TransactionSize :=
  let ks := collectKeys instructions funder in
  let uniqueSigners := uniqueSigners ks in
  let programIds := programIds ks in
  let lutEligibleKeys := lutEligibleKeys ks ∖ uniqueSigners ∖ programIds in
  let ineligibleKeys := uniqueSigners ∪ programIds in
  let staticSize :=
    lengthToCompact16size (size uniqueSigners)
    + size uniqueSigners * 64
    + 3
    + 32
    + 1
    + lengthToCompact16size (length instructions)
    + ixSizes instructions
    + 1 in
  let staticAccountSize :=
    {| staticSize := staticSize; staticAccounts := size ineligibleKeys |} in
  let bestSize := totalSize staticAccountSize 0 0 (size lutEligibleKeys) in
  let uniqueKeyCount := size ineligibleKeys + size lutEligibleKeys in
  if decide (bestSize ≤ MAX_TRANSACTION_SIZE ∨ length lookupTables = 0) then
    {| txSize := bestSize; txLookupTables := []; uniqueKeyCount := uniqueKeyCount |}
  else if decide (MAX_UNIQUE_KEYS_COUNT < uniqueKeyCount) then
    {| txSize := bestSize; txLookupTables := []; uniqueKeyCount := uniqueKeyCount |}
  else
    findBestLookupTables staticAccountSize bestSize 0 0 lutEligibleKeys []
      lookupTables.

(** ** Dynamic packer *)

Record InstructionsWithSignersAndLUTs := mkBatch {
  instructions : list InstructionWithSigners;
  lookupTables : list AddressLookupTableAccount;
}.

(** [insert] of the source ([insert] is stdpp's map update). *)
Definition arrayInsert {T} (arr : list T) (index : nat) (newItem : T)
    : list T :=
  take index arr ++ [newItem] ++ drop index arr.

Definition deepCopyInstructions (b : InstructionsWithSignersAndLUTs)
    : InstructionsWithSignersAndLUTs :=
  {| instructions :=
       (λ entry,
          {| instruction :=
               {| keys :=
                    (λ k, {| pubkey := pubkey k; isSigner := isSigner k;
                             isWritable := isWritable k |})
                      <$> keys (instruction entry);
                  programId := programId (instruction entry);
                  data := data (instruction entry) |};
             signers := signers entry |})
         <$> instructions b;
     lookupTables := lookupTables b |}.

Definition msgScaffoldTooBig : string :=
  "Before and after instructions alone are too big to fit in transaction".
Definition msgScaffoldTooManyKeys : string :=
  "Before and after instructions alone have too many unique keys to fit in transaction".
Definition msgInstructionTooLarge (program : PublicKey) : string :=
  "Instruction too large to fit in transaction: " +:+ program.
Definition msgInstructionTooManyKeys (program : PublicKey) : string :=
  "Instruction has too many unique accounts to fit in transaction: "
  +:+ program.

(** [normalizeArray(await Promise.all(normalizeArray(x).map(ix => ix(feePayer)))).flat()] *)
Definition resolveInstructions (ixReturns : OneOrMany InstructionReturn)
    (feePayer : AsyncSigner) : list InstructionWithSigners :=
  concat ((λ ix, normalizeArray (ix feePayer)) <$> normalizeArray ixReturns).

(** The [for (const ix of instructionsWithSigners)] loop, threading
    [output] and [current]; [err] is the early [return err(...)]. *)
Fixpoint packLoop (funder : PublicKey) (lookupTableAddresses : list LutEntry)
    (beforeIxsWithSigners afterIxsWithSigners : list InstructionWithSigners)
    (maxInstructionCount : nat)
    (instructionsWithSigners : list InstructionWithSigners)
    (output : list InstructionsWithSignersAndLUTs)
    (current : InstructionsWithSignersAndLUTs)
    : Result (list InstructionsWithSignersAndLUTs
              * InstructionsWithSignersAndLUTs) string :=
  match instructionsWithSigners with
  | [] => ok (output, current)
  | ix :: rest =>
      let nextIxs :=
        arrayInsert (instructions current)
          (length (instructions current) - length afterIxsWithSigners) ix in
      let next := getTransactionSize nextIxs funder lookupTableAddresses in
      if decide (MAX_TRANSACTION_SIZE < txSize next
                 ∨ MAX_UNIQUE_KEYS_COUNT < uniqueKeyCount next
                 ∨ maxInstructionCount < length nextIxs) then
        let output := output ++ [deepCopyInstructions current] in
        let currentIxs :=
          beforeIxsWithSigners ++ [ix] ++ afterIxsWithSigners in
        let cur := getTransactionSize currentIxs funder lookupTableAddresses in
        if decide (MAX_TRANSACTION_SIZE < txSize cur) then
          err (msgInstructionTooLarge (programId (instruction ix)))
        else if decide (MAX_UNIQUE_KEYS_COUNT < uniqueKeyCount cur) then
          err (msgInstructionTooManyKeys (programId (instruction ix)))
        else
          packLoop funder lookupTableAddresses beforeIxsWithSigners
            afterIxsWithSigners maxInstructionCount rest output
            {| instructions := currentIxs;
               lookupTables := txLookupTables cur |}
      else
        packLoop funder lookupTableAddresses beforeIxsWithSigners
          afterIxsWithSigners maxInstructionCount rest output
          {| instructions := nextIxs; lookupTables := txLookupTables next |}
  end.

Definition buildDynamicTransactionsNoSigning
    (ixs : OneOrMany InstructionReturn) (feePayer : AsyncSigner)
    (beforeIxs afterIxs : OneOrMany InstructionReturn)
    (lookupTables : list AddressLookupTableAccount)
    (maxInstructionCount : nat)
    : Result (list InstructionsWithSignersAndLUTs) string :=
  let instructionsWithSigners := resolveInstructions ixs feePayer in
  let beforeIxsWithSigners := resolveInstructions beforeIxs feePayer in
  let afterIxsWithSigners := resolveInstructions afterIxs feePayer in
  let lookupTableAddresses := buildLookupTableSet lookupTables in
  let current0 := beforeIxsWithSigners ++ afterIxsWithSigners in
  let first :=
    getTransactionSize current0 (publicKey feePayer) lookupTableAddresses in
  if decide (MAX_TRANSACTION_SIZE < txSize first) then
    err msgScaffoldTooBig
  else if decide (MAX_UNIQUE_KEYS_COUNT < uniqueKeyCount first) then
    err msgScaffoldTooManyKeys
  else
    match packLoop (publicKey feePayer) lookupTableAddresses
            beforeIxsWithSigners afterIxsWithSigners maxInstructionCount
            instructionsWithSigners []
            {| instructions := current0;
               lookupTables := txLookupTables first |} with
    | err e => err e
    | ok (output, current) =>
        if decide (length beforeIxsWithSigners + length afterIxsWithSigners
                   < length (instructions current))
        then ok (output ++ [deepCopyInstructions current])
        else ok output
    end.

(** The parameter [ixs] is [instructions] in the source, a name taken here
    by the field of a batch.  The default of the optional parameter
    [maxInstructionCount]: *)
Definition defaultMaxInstructionCount : nat := 64.

(** ** Outcomes of effectful code *)

Inductive Exception :=
| SignerRejected (who : PublicKey)
| AssertionError
| MissingSignature (who : PublicKey) (index : nat)
| SignatureFailedToVerify (who : PublicKey) (index : nat)
| SerializeError (reason : string)
| NetworkError (reason : string).

(** What an [await] gives: a value, or a thrown exception. *)
Inductive Outcome (A : Type) :=
| Returns (a : A)
| Throws (e : Exception).
Arguments Returns {A} a.
Arguments Throws {A} e.

(** ** Signer coordinator (transactionHandling module) *)

Record BlockhashWithExpiryBlockHeight := mkRbh {
  blockhash : string;
  lastValidBlockHeight : nat;
}.

Inductive Commitment := processed | confirmed | finalized.

Record TransactionReturn := mkTransactionReturn {
  transaction : AnyTransaction;
  rbh : BlockhashWithExpiryBlockHeight;
  commitment : Commitment;
}.

Record SignerEntry := mkSignerEntry {
  signer : AsyncSigner;
  transactions : gset nat;
}.

(** [SignerMap = Map<string, SignerEntry>]; a JavaScript [Map] iterates in
    insertion order, so it is the list of its entries in that order. *)
Abbreviation SignerMap := (list (string * SignerEntry)) (only parsing).

(** Calls that leave the coordinator, in the order they happen. *)
Inductive SignEvent :=
| SignAllCalled (who : PublicKey) (indices : list nat)
| SignAllResolved (who : PublicKey).

(** The array [unsignedTransactions], mutated in place, and the log of
    calls made so far. *)
Record SignState := mkSignState {
  unsignedTransactions : list TransactionReturn;
  signLog : list SignEvent;
}.

Definition Sign (A : Type) : Type := SignState → Outcome A * SignState.

Definition signRet {A} (a : A) : Sign A := λ st, (Returns a, st).

Definition signBind {A B} (m : Sign A) (k : A → Sign B) : Sign B :=
  λ st,
    match m st with
    | (Returns a, st') => k a st'
    | (Throws e, st') => (Throws e, st')
    end.

#[export] Instance sign_ret : MRet Sign := @signRet.
#[export] Instance sign_bind : MBind Sign := λ A B k m, signBind m k.

Definition logEvent (e : SignEvent) : Sign unit :=
  λ st, (Returns tt,
         {| unsignedTransactions := unsignedTransactions st;
            signLog := signLog st ++ [e] |}).

Definition throwSign {A} (e : Exception) : Sign A := λ st, (Throws e, st).

Definition readTransactions : Sign (list TransactionReturn) :=
  λ st, (Returns (unsignedTransactions st), st).

(** [unsignedTransactions[index].transaction = newTx] *)
Definition setTransaction (index : nat) (newTx : AnyTransaction) : Sign unit :=
  λ st, (Returns tt,
         {| unsignedTransactions :=
              alter (λ tr, {| transaction := newTx; rbh := rbh tr;
                              commitment := commitment tr |})
                index (unsignedTransactions st);
            signLog := signLog st |}).

(** The loop [for (let x = 0; x < txsToSign.length; x++)]; under the
    assertion both arrays have the same length. *)
Fixpoint storeSigned (txsToSign : list (nat * TransactionReturn))
    (newTxs : list AnyTransaction) : Sign unit :=
  match txsToSign, newTxs with
  | (index, _) :: rest, newTx :: newRest =>
      setTransaction index newTx;;
      storeSigned rest newRest
  | _, _ => signRet tt
  end.

(** [unsignedTransactions.map((tx, index) => ({tx, index}))
      .filter(({index}) => transactions.has(index))] *)
Definition txsToSignOf (entry : SignerEntry) (txs : list TransactionReturn)
    : list (nat * TransactionReturn) :=
  filter (λ p, p.1 ∈ transactions entry) (imap (λ index tx, (index, tx)) txs).

Definition signTxns (entry : SignerEntry) : Sign unit :=
  txs ← readTransactions;
  let txsToSign := txsToSignOf entry txs in
  let who := publicKey (signer entry) in
  logEvent (SignAllCalled who txsToSign.*1);;
  match signAll (signer entry) (transaction <$> txsToSign.*2) with
  | None => throwSign (SignerRejected who)
  | Some newTxs =>
      logEvent (SignAllResolved who);;
      if decide (length newTxs = length txsToSign)
      then storeSigned txsToSign newTxs
      else throwSign AssertionError
  end.

(** [for (const signer of signers.values()) if (wanted) await signTxns(signer)] *)
Fixpoint signPass (wanted : SignerEntry → bool) (values : list SignerEntry)
    : Sign unit :=
  match values with
  | [] => signRet tt
  | entry :: rest =>
      (if wanted entry then signTxns entry else signRet tt);;
      signPass wanted rest
  end.

Definition signTransactionReturns (unsigned : list TransactionReturn)
    (signers : SignerMap) : Outcome (list TransactionReturn) * SignState :=
  (signPass (λ e, requiresAsync (signer e)) signers.*2;;
   signPass (λ e, negb (requiresAsync (signer e))) signers.*2;;
   readTransactions)
    {| unsignedTransactions := unsigned; signLog := [] |}.

(** ** Submission (transactionHandling module) *)

Definition TransactionSignature := string.

(** [TransactionError]: the structured error of a failed execution. *)
Inductive TransactionError :=
| InstructionError (index : nat) (custom : nat)
| OtherTransactionError (name : string).

Record SignatureResult := mkSignatureResult {
  sigErr : option TransactionError;
}.

Record RpcResponseAndContext (T : Type) := mkRpcResponse {
  context : nat;
  value : T;
}.
Arguments mkRpcResponse {T} context value.
Arguments context {T} r.
Arguments value {T} r.

Record SendOptions := mkSendOptions {
  skipPreflight : bool;
  maxRetriesRpc : option nat;
}.

Record SendTransactionOptions := mkSendTransactionOptions {
  optCommitment : option Commitment;
  sendOptions : option SendOptions;
}.

(** [TransactionSender]: the two methods [sendTransaction] uses. *)
Record TransactionSender := mkTransactionSender {
  sendRawTransaction :
    list byte → option SendOptions → Outcome TransactionSignature;
  confirmTransaction :
    TransactionSignature → BlockhashWithExpiryBlockHeight → Commitment →
    Outcome (RpcResponseAndContext SignatureResult);
}.

(** The timers of the JavaScript runtime and the raw transactions handed
    to the network so far. *)
Record Runtime := mkRuntime {
  activeIntervals : gset nat;
  nextIntervalId : nat;
  broadcasts : list (list byte * option SendOptions);
}.

Definition setInterval (rt : Runtime) : nat * Runtime :=
  (nextIntervalId rt,
   {| activeIntervals := {[nextIntervalId rt]} ∪ activeIntervals rt;
      nextIntervalId := S (nextIntervalId rt);
      broadcasts := broadcasts rt |}).

Definition clearInterval (interval : nat) (rt : Runtime) : Runtime :=
  {| activeIntervals := activeIntervals rt ∖ {[interval]};
     nextIntervalId := nextIntervalId rt;
     broadcasts := broadcasts rt |}.

Definition broadcast (raw : list byte) (o : option SendOptions)
    (rt : Runtime) : Runtime :=
  {| activeIntervals := activeIntervals rt;
     nextIntervalId := nextIntervalId rt;
     broadcasts := broadcasts rt ++ [(raw, o)] |}.

Definition isVersionedTransaction (tx : AnyTransaction) : bool :=
  txVersioned tx.

(** [verifySignatures] on a versioned transaction: the first zero or
    invalid signature throws. *)
Fixpoint verifySlots (index : nat) (slots : list (PublicKey * SignatureSlot))
    : Outcome unit :=
  match slots with
  | [] => Returns tt
  | (key, ZeroSignature) :: _ => Throws (MissingSignature key index)
  | (key, BadSignature) :: _ => Throws (SignatureFailedToVerify key index)
  | (_, GoodSignature) :: rest => verifySlots (S index) rest
  end.

(** [{...options?.sendOptions, skipPreflight: true}] *)
Definition withSkipPreflight (o : option SendOptions) : option SendOptions :=
  Some {| skipPreflight := true;
          maxRetriesRpc := o ≫= maxRetriesRpc |}.

(** The interval callback, fired [ticks] times; [count] is its counter. *)
Fixpoint fireInterval (raw : list byte) (o : option SendOptions)
    (maxRetries : nat) (ticks count : nat) (rt : Runtime) : Runtime :=
  match ticks with
  | 0 => rt
  | S ticks' =>
      let rt' :=
        if decide (count < maxRetries)
        then broadcast raw (withSkipPreflight o) rt
        else rt in
      fireInterval raw o maxRetries ticks' (S count) rt'
  end.

Section Submission.
(** [transaction.serialize()] is taken as given.  It can throw: for a
    legacy transaction it checks the signatures first and throws when one
    is missing or does not verify. *)
Variable serialize : AnyTransaction → Outcome (list byte).

(** [verifySignatures]: the slots of a versioned transaction are checked
    one by one; for a legacy transaction it is [tx.serialize()], called
    for its exception. *)
Definition verifySignatures (tx : AnyTransaction) : Outcome unit :=
  if isVersionedTransaction tx then verifySlots 0 (txSignatures tx)
  else
    match serialize tx with
    | Throws e => Throws e
    | Returns _ => Returns tt
    end.

(** [ticks] is how often the runtime fires the interval while the
    confirmation is awaited. *)
Definition sendTransaction (tr : TransactionReturn)
    (connection : TransactionSender)
    (options : option SendTransactionOptions)
    (retryInterval maxRetries : nat) (ticks : nat) (rt : Runtime)
    : Outcome (RpcResponseAndContext
                 (Result TransactionSignature TransactionError))
      * Runtime :=
  match serialize (transaction tr) with
  | Throws e => (Throws e, rt)
  | Returns rawTransaction =>
      match (if isVersionedTransaction (transaction tr)
             then verifySignatures (transaction tr) else Returns tt) with
      | Throws e => (Throws e, rt)
      | Returns _ =>
          let commitment :=
            default confirmed (options ≫= optCommitment) in
          let rt := broadcast rawTransaction (options ≫= sendOptions) rt in
          match sendRawTransaction connection rawTransaction
                  (options ≫= sendOptions) with
          | Throws e => (Throws e, rt)
          | Returns signature =>
              let '(interval, rt) := setInterval rt in
              let rt :=
                fireInterval rawTransaction (options ≫= sendOptions)
                  maxRetries ticks 0 rt in
              match confirmTransaction connection signature (rbh tr)
                      commitment with
              | Throws e => (Throws e, clearInterval interval rt)
              | Returns result =>
                  let rt := clearInterval interval rt in
                  match sigErr (value result) with
                  | Some e =>
                      (Returns {| context := context result;
                                  value := err e |}, rt)
                  | None =>
                      (Returns {| context := context result;
                                  value := ok signature |}, rt)
                  end
              end
          end
      end
  end.
End Submission.

(** The defaults of [retryInterval] and [maxRetries]. *)
Definition defaultRetryInterval : nat := 3000.
Definition defaultMaxRetries : nat := 10.

(** ** Signers and instruction builders of the library *)

(** A transaction whose slot of [who] holds a valid signature. *)
Definition signedWith (who : PublicKey) (tx : AnyTransaction)
    : AnyTransaction :=
  {| txVersioned := txVersioned tx;
     txMessage := txMessage tx;
     txSignatures :=
       (λ slot, if decide (slot.1 = who) then (slot.1, GoodSignature)
                else slot) <$> txSignatures tx |}.

(** [partialSign], that is [tx.sign([signer])] or [tx.partialSign(signer)]
    of web3.js: the slot of [who] receives a valid signature; it throws
    ([None]) when [who] is not a required signer of the transaction. *)
Definition partialSign (who : PublicKey) (tx : AnyTransaction)
    : option AnyTransaction :=
  if decide (who ∈ (txSignatures tx).*1) then Some (signedWith who tx)
  else None.

(** [keypairToAsyncSigner]: a local signer; it signs the transactions one
    after the other and rejects at the first it cannot sign.  The
    signatures it has put in place before rejecting are not kept here. *)
Definition keypairToAsyncSigner (keypair : PublicKey) : AsyncSigner :=
  {| publicKey := keypair;
     requiresAsync := false;
     signAll := λ txs, mapM (partialSign keypair) txs |}.

(** [walletToAsyncSigner]: whatever the wallet answers, after a round
    trip. *)
Definition walletToAsyncSigner (wallet : PublicKey)
    (signAllTransactions : list AnyTransaction → option (list AnyTransaction))
    : AsyncSigner :=
  {| publicKey := wallet;
     requiresAsync := true;
     signAll := signAllTransactions |}.

Definition ixToIxReturn (ix : TransactionInstruction) : InstructionReturn :=
  λ _, One {| instruction := ix; signers := [] |}.

(** ** Vocabulary of the specification *)

(** compact-length-of(n), as the specification words it. *)
Definition compactLengthOf (n : nat) : nat :=
  if decide (n ≤ 127) then 1 else 2.

Definition accountsOf (ixs : list InstructionWithSigners)
    : list AccountMeta :=
  concat ((λ iws, keys (instruction iws)) <$> ixs).

(** The fee payer and every account flagged as signer. *)
Definition signerKeys (ixs : list InstructionWithSigners)
    (funder : PublicKey) : gset string :=
  {[funder]} ∪ list_to_set (pubkey <$> filter (λ s, isSigner s = true)
                                         (accountsOf ixs)).

Definition programIdKeys (ixs : list InstructionWithSigners) : gset string :=
  list_to_set ((λ iws, programId (instruction iws)) <$> ixs).

Definition referencedKeys (ixs : list InstructionWithSigners) : gset string :=
  list_to_set (pubkey <$> accountsOf ixs).

(** Every key of the message, each counted once. *)
Definition allKeys (ixs : list InstructionWithSigners) (funder : PublicKey)
    : gset string :=
  signerKeys ixs funder ∪ programIdKeys ixs ∪ referencedKeys ixs.

Definition perInstructionSize (iws : InstructionWithSigners) : nat :=
  let accountCount := length (keys (instruction iws)) in
  let dataLen := length (data (instruction iws)) in
  1 + compactLengthOf accountCount + accountCount
  + compactLengthOf dataLen + dataLen.

Definition staticRegion (ixs : list InstructionWithSigners)
    (funder : PublicKey) : nat :=
  let signerCount := size (signerKeys ixs funder) in
  compactLengthOf signerCount + 64 * signerCount + 3 + 32 + 1
  + compactLengthOf (length ixs)
  + sum_list (perInstructionSize <$> ixs)
  + 1.

(** The projected size of the message when [lut] joins the tables in use. *)
Definition projectedSize (staticAccountSize : StaticAccountSize)
    (lutCount includedAccounts : nat) (remainingAccounts : gset string)
    (lut : LutEntry) : nat :=
  let cr := containedInLUTCount remainingAccounts lut.1 in
  totalSize staticAccountSize (lutCount + 1) (includedAccounts + cr.1)
    (size cr.2).

(** A list of instructions passes the byte and the key test of the packer. *)
Definition fitsBytesAndKeys (funder : PublicKey) (luts : list LutEntry)
    (ixs : list InstructionWithSigners) : Prop :=
  txSize (getTransactionSize ixs funder luts) ≤ MAX_TRANSACTION_SIZE
  ∧ uniqueKeyCount (getTransactionSize ixs funder luts)
    ≤ MAX_UNIQUE_KEYS_COUNT.

(** The instructions of a batch between its scaffolding. *)
Definition stripScaffolding (nBefore nAfter : nat)
    (b : InstructionsWithSignersAndLUTs) : list InstructionWithSigners :=
  take (length (instructions b) - nBefore - nAfter)
    (drop nBefore (instructions b)).

(** The test of the packer on a tentative splice of [ix] into the working
    batch [current]: true when the instruction does not fit. *)
Definition spliceRejected (funder : PublicKey) (luts : list LutEntry)
    (nAfter maxInstructionCount : nat)
    (current : list InstructionWithSigners) (ix : InstructionWithSigners)
    : Prop :=
  let nextIxs := arrayInsert current (length current - nAfter) ix in
  let next := getTransactionSize nextIxs funder luts in
  MAX_TRANSACTION_SIZE < txSize next
  ∨ MAX_UNIQUE_KEYS_COUNT < uniqueKeyCount next
  ∨ maxInstructionCount < length nextIxs.

(** What every emitted batch satisfies. *)
Definition batchWithinBudgets (funder : PublicKey) (luts : list LutEntry)
    (countBound : nat) (b : InstructionsWithSignersAndLUTs) : Prop :=
  let estimate := getTransactionSize (instructions b) funder luts in
  txSize estimate ≤ MAX_TRANSACTION_SIZE
  ∧ uniqueKeyCount estimate ≤ MAX_UNIQUE_KEYS_COUNT
  ∧ size (allKeys (instructions b) funder) ≤ MAX_UNIQUE_KEYS_COUNT
  ∧ length (instructions b) ≤ countBound
  ∧ lookupTables b = txLookupTables estimate.

(** The signers whose [signAll] was called, in call order. *)
Definition calledSigners (log : list SignEvent) : list PublicKey :=
  omap (λ e, match e with
             | SignAllCalled who _ => Some who
             | SignAllResolved _ => None
             end) log.

(** The messages assigned to a signer, among [n] built messages. *)
Definition assignedIndices (entry : SignerEntry) (n : nat) : list nat :=
  filter (λ i, i ∈ transactions entry) (seq 0 n).

(** What one batched call of [signAll] leaves in the log when it resolves. *)
Definition callEvents (n : nat) (entry : SignerEntry) : list SignEvent :=
  [SignAllCalled (publicKey (signer entry)) (assignedIndices entry n);
   SignAllResolved (publicKey (signer entry))].

Definition asyncEntries (signers : SignerMap) : list SignerEntry :=
  filter (λ e, requiresAsync (signer e) = true) signers.*2.

Definition localEntries (signers : SignerMap) : list SignerEntry :=
  filter (λ e, ¬ requiresAsync (signer e) = true) signers.*2.

(** The signers registered in the map, in its order. *)
Definition registeredSigners (signers : SignerMap) : list PublicKey :=
  (λ e, publicKey (signer e)) <$> signers.*2.

(** The intermediate values of [getTransactionSize], named. *)
Definition staticAccountSizeOf (ixs : list InstructionWithSigners)
    (funder : PublicKey) : StaticAccountSize :=
  let ks := collectKeys ixs funder in
  {| staticSize :=
       lengthToCompact16size (size (uniqueSigners ks))
       + size (uniqueSigners ks) * 64 + 3 + 32 + 1
       + lengthToCompact16size (length ixs) + ixSizes ixs + 1;
     staticAccounts := size (uniqueSigners ks ∪ programIds ks) |}.

Definition eligibleKeysOf (ixs : list InstructionWithSigners)
    (funder : PublicKey) : gset string :=
  let ks := collectKeys ixs funder in
  lutEligibleKeys ks ∖ uniqueSigners ks ∖ programIds ks.

Definition baselineSize (ixs : list InstructionWithSigners)
    (funder : PublicKey) : nat :=
  totalSize (staticAccountSizeOf ixs funder) 0 0
    (size (eligibleKeysOf ixs funder)).

(** The number of unique keys of the message ([uniqueKeyCount] as first
    computed by [getTransactionSize]). *)
Definition uniqueKeysOf (ixs : list InstructionWithSigners)
    (funder : PublicKey) : nat :=
  staticAccounts (staticAccountSizeOf ixs funder)
  + size (eligibleKeysOf ixs funder).

(** ** Sample inputs *)

Definition keyName (n : nat) : string := "Key" +:+ pretty n.

Definition readonlyAccount (k : PublicKey) : AccountMeta :=
  {| pubkey := k; isSigner := false; isWritable := false |}.

(** An instruction of [program] over read-only accounts [ks], with
    [dataLen] zero bytes of data. *)
Definition plainInstruction (program : PublicKey) (ks : list PublicKey)
    (dataLen : nat) : TransactionInstruction :=
  {| keys := readonlyAccount <$> ks; programId := program;
     data := replicate dataLen x00 |}.

Definition payer : AsyncSigner := keypairToAsyncSigner "Payer".

(** Three accounts and 989 bytes of data: 1260 bytes uncompressed. *)
Definition wideInstruction : InstructionWithSigners :=
  {| instruction := plainInstruction "Prog" (keyName <$> seq 0 3) 989;
     signers := [] |}.

Definition tableOfTwo : AddressLookupTableAccount :=
  {| lutKey := "TableA"; addresses := keyName <$> seq 0 2 |}.
Definition tableOfThree : AddressLookupTableAccount :=
  {| lutKey := "TableB"; addresses := keyName <$> seq 0 3 |}.
(** The same with 1100 bytes of data: 1371 bytes uncompressed. *)
Definition widerInstruction : InstructionWithSigners :=
  {| instruction := plainInstruction "Prog" (keyName <$> seq 0 3) 1100;
     signers := [] |}.
Definition tableOfStrangers : AddressLookupTableAccount :=
  {| lutKey := "TableC"; addresses := keyName <$> seq 10 3 |}.

(** 1300 bytes of data: larger than any message. *)
Definition oversizedInstruction : TransactionInstruction :=
  plainInstruction "Big" [] 1300.

Definition smallInstruction (n : nat) : TransactionInstruction :=
  plainInstruction "Prog" [keyName n] 8.

(** One instruction over [n] accounts, and a table holding them all. *)
Definition manyAccountsInstruction (n : nat) : TransactionInstruction :=
  plainInstruction "Prog" (keyName <$> seq 0 n) 0.
Definition tableOfAll (n : nat) : AddressLookupTableAccount :=
  {| lutKey := "TableAll"; addresses := keyName <$> seq 0 n |}.

(** Scaffolding whose greedy estimate (1240 bytes, first table alone) is
    larger than the estimate of the same scaffolding followed by
    [lateInstruction] (1221 bytes, second and third table). *)
Definition scaffoldInstruction : TransactionInstruction :=
  plainInstruction "Prog" (keyName <$> seq 0 8) 956.
Definition lateInstruction : TransactionInstruction :=
  plainInstruction "Prog" (keyName <$> seq 8 3) 0.
Definition overlappingTables : list AddressLookupTableAccount :=
  [{| lutKey := "TableX"; addresses := keyName <$> seq 0 6 |};
   {| lutKey := "TableY"; addresses := keyName <$> [0; 1; 2; 6; 8; 9; 10] |};
   {| lutKey := "TableZ"; addresses := keyName <$> [3; 4; 5; 7] |}].

Definition builtMessage (who : list PublicKey) : TransactionReturn :=
  {| transaction :=
       {| txVersioned := true; txMessage := [];
          txSignatures := (λ k, (k, ZeroSignature)) <$> who |};
     rbh := {| blockhash := "Hash"; lastValidBlockHeight := 100 |};
     commitment := confirmed |}.

(** A wallet whose user declines to sign. *)
Definition decliningWallet : AsyncSigner :=
  walletToAsyncSigner "Wallet" (λ _, None).
(** A wallet that signs what it is given. *)
Definition signingWallet : AsyncSigner :=
  walletToAsyncSigner "Wallet" (λ txs, Some (signedWith "Wallet" <$> txs)).

Definition sampleSigners (wallet : AsyncSigner) : SignerMap :=
  [("Payer", {| signer := payer; transactions := {[0; 1]} |});
   ("Wallet", {| signer := wallet; transactions := {[1]} |})].

Definition sampleMessages : list TransactionReturn :=
  [builtMessage ["Payer"]; builtMessage ["Payer"; "Wallet"]].

(** A network on which the message confirms with a failed execution. *)
Definition failingNetwork : TransactionSender :=
  {| sendRawTransaction := λ _ _, Returns "Sig";
     confirmTransaction := λ _ _ _,
       Returns {| context := 7;
                  value := {| sigErr := Some (InstructionError 0 17) |} |} |}.

(** A network whose confirmation request fails. *)
Definition droppingNetwork : TransactionSender :=
  {| sendRawTransaction := λ _ _, Returns "Sig";
     confirmTransaction := λ _ _ _, Throws (NetworkError "timeout") |}.

Definition signedMessage : TransactionReturn :=
  {| transaction :=
       {| txVersioned := true; txMessage := [];
          txSignatures := [("Payer", GoodSignature)] |};
     rbh := {| blockhash := "Hash"; lastValidBlockHeight := 100 |};
     commitment := confirmed |}.

(** A stand-in for [serialize]: a legacy transaction with a slot that
    holds no valid signature is refused. *)
Definition sampleSerialize (tx : AnyTransaction) : Outcome (list byte) :=
  if txVersioned tx
     || forallb (λ slot : PublicKey * SignatureSlot,
                   match slot.2 with GoodSignature => true | _ => false end)
          (txSignatures tx)
  then Returns (replicate (length (txSignatures tx)) x01)
  else Throws (SerializeError "Signature verification failed").

(** A legacy transaction that nobody has signed. *)
Definition unsignedLegacyMessage : TransactionReturn :=
  {| transaction :=
       {| txVersioned := false; txMessage := [];
          txSignatures := [("Payer", ZeroSignature)] |};
     rbh := {| blockhash := "Hash"; lastValidBlockHeight := 100 |};
     commitment := confirmed |}.

Definition idleRuntime : Runtime :=
  {| activeIntervals := ∅; nextIntervalId := 0; broadcasts := [] |}.

(** ** Building the signer map (transactionHandling module) *)

(** Where the blockhash of a message comes from: a connection (its
    [getLatestBlockhash], the commitment asked for, the commitment of the
    connection), or a blockhash handed in. *)
Inductive ConnectionOrRbh :=
| FromConnection
    (getLatestBlockhash :
       option Commitment → Outcome BlockhashWithExpiryBlockHeight)
    (asked : option Commitment) (ofConnection : option Commitment)
| GivenRbh (given : BlockhashWithExpiryBlockHeight)
    (withCommitment : Commitment).

(** [BuildTransactionsType]; the fields are [ixs], [connectionOrRbh] and
    [lookupTables] in the source. *)
Record BuildTransactionsType := mkBuildTransactions {
  buildIxs : OneOrMany InstructionWithSigners;
  buildConnectionOrRbh : ConnectionOrRbh;
  buildLookupTables : option (list AddressLookupTableAccount);
}.

Record CompileV0Args := mkCompileArgs {
  addressLookupTableAccounts : option (list AddressLookupTableAccount);
  compileInstructions : list TransactionInstruction;
  payerKey : PublicKey;
  recentBlockhash : string;
}.

Record BuildTransactionReturn := mkBuildTransactionReturn {
  compileArgs : CompileV0Args;
  builtCommitment : Commitment;
  builtRbh : BlockhashWithExpiryBlockHeight;
}.

(** [{ signer: AsyncSigner } | { key: PublicKey }] *)
Inductive FeePayer :=
| PayerSigner (payerSigner : AsyncSigner)
| PayerKey (key : PublicKey).

(** [signers.get(key)] *)
Fixpoint signerMapGet (key : string) (signers : SignerMap)
    : option SignerEntry :=
  match signers with
  | [] => None
  | (k, entry) :: rest =>
      if decide (k = key) then Some entry else signerMapGet key rest
  end.

(** [signerEntry.transactions.add(index)] on the entry stored under [key]. *)
Fixpoint signerMapAddIndex (key : string) (index : nat) (signers : SignerMap)
    : SignerMap :=
  match signers with
  | [] => []
  | (k, entry) :: rest =>
      if decide (k = key)
      then (k, {| signer := signer entry;
                  transactions := {[index]} ∪ transactions entry |}) :: rest
      else (k, entry) :: signerMapAddIndex key index rest
  end.

(** The body of [for (const signer of instructions.flatMap(...))]. *)
Definition registerSigner (index : nat) (signers : SignerMap)
    (s : AsyncSigner) : SignerMap :=
  let key := publicKey s in
  match signerMapGet key signers with
  | None =>
      signers ++ [(key, {| signer := s; transactions := {[index]} |})]
  | Some _ => signerMapAddIndex key index signers
  end.

Definition signersOf (t : BuildTransactionsType) : list AsyncSigner :=
  concat (signers <$> normalizeArray (buildIxs t)).

(** The registration loops of all the [transactions.map] callbacks; the
    callbacks start in index order and each registers its signers before
    its first [await]. *)
Fixpoint registerAll (index : nat) (txs : list BuildTransactionsType)
    (signers : SignerMap) : SignerMap :=
  match txs with
  | [] => signers
  | t :: rest =>
      registerAll (S index) rest
        (foldl (registerSigner index) signers (signersOf t))
  end.

(** The body of one [transactions.map] callback after the registration
    loop. *)
Definition buildOne (feePayerKey : PublicKey) (t : BuildTransactionsType)
    : Outcome BuildTransactionReturn :=
  let instructions := normalizeArray (buildIxs t) in
  let fetched :=
    match buildConnectionOrRbh t with
    | FromConnection getLatestBlockhash asked ofConnection =>
        match getLatestBlockhash asked with
        | Returns rbh =>
            Returns (rbh, default (default processed ofConnection) asked)
        | Throws e => Throws e
        end
    | GivenRbh given withCommitment => Returns (given, withCommitment)
    end in
  match fetched with
  | Throws e => Throws e
  | Returns (rbh, commitment) =>
      Returns
        {| compileArgs :=
             {| addressLookupTableAccounts := buildLookupTables t;
                compileInstructions := instruction <$> instructions;
                payerKey := feePayerKey;
                recentBlockhash := blockhash rbh |};
           builtCommitment := commitment;
           builtRbh := rbh |}
  end.

(** [Promise.all]: every promise has to resolve.  When several reject,
    which rejection is reported depends on their timing; the one of least
    index stands for it. *)
Fixpoint promiseAll {A} (promises : list (Outcome A)) : Outcome (list A) :=
  match promises with
  | [] => Returns []
  | Throws e :: _ => Throws e
  | Returns a :: rest =>
      match promiseAll rest with
      | Returns values => Returns (a :: values)
      | Throws e => Throws e
      end
  end.

(** The signer map once every callback has run its registration loop. *)
Definition signerMapOf (txs : list BuildTransactionsType)
    (feePayer : FeePayer) : SignerMap :=
  registerAll 0 txs
    match feePayer with
    | PayerSigner s =>
        [(publicKey s,
          {| signer := s;
             transactions := list_to_set (seq 0 (length txs)) |})]
    | PayerKey _ => []
    end.

Definition buildTransactionsFromIxWithSigners
    (txs : list BuildTransactionsType) (feePayer : FeePayer)
    : Outcome (list BuildTransactionReturn * SignerMap) :=
  let feePayerKey :=
    match feePayer with
    | PayerSigner s => publicKey s
    | PayerKey k => k
    end in
  match promiseAll (buildOne feePayerKey <$> txs) with
  | Returns tx => Returns (tx, signerMapOf txs feePayer)
  | Throws e => Throws e
  end.

(** ** Extending a lookup table (lookupTables module) *)

(** The loop [while (addressesClone.length > 0) addressesClone.splice(0, 20)]. *)
Equations? spliceChunks {T} (addressesClone : list T) : list (list T)
    by wf (length addressesClone) lt :=
  spliceChunks [] := [];
  spliceChunks (a :: rest) :=
    take 20 (a :: rest) :: spliceChunks (drop 20 (a :: rest)).
Proof. rewrite length_drop. lia. Qed.

Definition msgTooManyAddresses : string :=
  "Transaction lookup table can only hold up to 256 addresses".

Section ExtendLookupTable.
(** [AddressLookupTableProgram.extendLookupTable] is taken as given. *)
Variable extendLookupTable :
  PublicKey → PublicKey → PublicKey → list PublicKey → TransactionInstruction.

(** The instructions [extendAddressLookupTable] hands to the packer, or its
    early error. *)
Definition extendInstructions (lookupTable : PublicKey)
    (authority feePayer : AsyncSigner) (addresses : list PublicKey)
    : Result (list InstructionReturn) string :=
  if decide (256 < length addresses) then err msgTooManyAddresses
  else
    ok ((λ chunk (payer : AsyncSigner),
           One {| instruction :=
                    extendLookupTable lookupTable (publicKey authority)
                      (publicKey feePayer) chunk;
                  signers := [payer; feePayer; authority] |})
          <$> spliceChunks addresses).
End ExtendLookupTable.

(** ** Utilities (util module) *)

(** [arrayDeepEquals]: an element of the second array that is [null] or
    [undefined] is [None]. *)
Definition arrayDeepEquals {T U} (array1 : list T) (array2 : list (option U))
    (eq : T → U → bool) : bool :=
  if decide (length array1 ≠ length array2) then false
  else
    foldl (λ (prev : bool) (p : nat * T),
             match array2 !! p.1 with
             | Some (Some other) => prev && eq p.2 other
             | _ => false
             end)
      true (imap (λ index current, (index, current)) array1).

Section ByteStrings.
(** [TextEncoder.encode] and [TextDecoder.decode] are taken as given. *)
Variable encode : string → list byte.
Variable decode : list byte → string.

(** [stringToByteArray]; the error is the thrown ['name too long']. *)
Definition stringToByteArray (input : string) (forceSize : option nat)
    : Result (list byte) string :=
  let nameBytes := encode input in
  match forceSize with
  | None => ok nameBytes
  | Some n =>
      if decide (n < length nameBytes) then err "name too long"%string
      else ok (nameBytes ++ replicate (n - length nameBytes) x00)
  end.

(** [input.findIndex((x) => x === 0)], [None] for [-1]. *)
Fixpoint findZero (input : list byte) : option nat :=
  match input with
  | [] => None
  | b :: rest => if Byte.eqb b x00 then Some 0 else S <$> findZero rest
  end.

Definition byteArrayToString (input : list byte) : string :=
  decode (match findZero input with
          | None => input
          | Some firstZero => take firstZero input
          end).
End ByteStrings.

(** ** Account discriminants (listenProgram module) *)

#[global] Instance byte_eq_decision : EqDecision byte := Byte.byte_eq_dec.

(** [data.subarray(0, value.length).equals(value)] *)
Definition startsWith (data value : list byte) : bool :=
  bool_decide (take (length value) data = value).

(** [discriminantToAccountId] over the entries of [accountDiscriminants]
    in their order. *)
Fixpoint discriminantToAccountId (accountDiscriminants : list (string * list byte))
    (data : list byte) : option (string * nat) :=
  match accountDiscriminants with
  | [] => None
  | (key, value) :: rest =>
      if startsWith data value then Some (key, length value)
      else discriminantToAccountId rest data
  end.

(** ** Building and signing in one call (transactionHandling module) *)

Section BuildAndSign.
(** [new VersionedTransaction(MessageV0.compile(args))] is taken as given. *)
Variable compile : CompileV0Args → AnyTransaction.

Definition convertBuildTransactionReturn (tx : BuildTransactionReturn)
    : TransactionReturn :=
  {| transaction := compile (compileArgs tx);
     rbh := builtRbh tx;
     commitment := builtCommitment tx |}.

Definition buildAndSignTransactionsFromIxWithSigners
    (txs : list BuildTransactionsType) (feePayer : AsyncSigner)
    : Outcome (list TransactionReturn) * SignState :=
  match buildTransactionsFromIxWithSigners txs (PayerSigner feePayer) with
  | Throws e => (Throws e, {| unsignedTransactions := []; signLog := [] |})
  | Returns (unsignedMessage, signers) =>
      signTransactionReturns
        (convertBuildTransactionReturn <$> unsignedMessage) signers
  end.
End BuildAndSign.

(** ** Packing, building and signing in one call (sizing module) *)

Section BuildDynamic.
Variable compile : CompileV0Args → AnyTransaction.

(** The promise resolves with the packer's error, or with the signed
    messages; it rejects when building or signing throws. *)
Definition buildDynamicTransactions (ixs : OneOrMany InstructionReturn)
    (feePayer : AsyncSigner) (connectionOrRbh : ConnectionOrRbh)
    (beforeIxs afterIxs : OneOrMany InstructionReturn)
    (tables : list AddressLookupTableAccount) (maxInstructionCount : nat)
    : Outcome (Result (list TransactionReturn) string) * SignState :=
  match buildDynamicTransactionsNoSigning ixs feePayer beforeIxs afterIxs
          tables maxInstructionCount with
  | err e => (Returns (err e), {| unsignedTransactions := []; signLog := [] |})
  | ok output =>
      let transactions :=
        (λ b, {| buildIxs := Many (instructions b);
                 buildConnectionOrRbh := connectionOrRbh;
                 buildLookupTables := Some (lookupTables b) |})
          <$> output in
      match buildAndSignTransactionsFromIxWithSigners compile transactions
              feePayer with
      | (Returns signed, st) => (Returns (ok signed), st)
      | (Throws e, st) => (Throws e, st)
      end
  end.
End BuildDynamic.

(** ** Vocabulary for the signer map and the signing cycle *)

(** The signer objects handed to [buildTransactionsFromIxWithSigners], in
    the order it meets them. *)
Definition suppliedSigners (txs : list BuildTransactionsType)
    (feePayer : FeePayer) : list AsyncSigner :=
  match feePayer with
  | PayerSigner s => [s]
  | PayerKey _ => []
  end ++ concat (signersOf <$> txs).

Definition signsAsFeePayer (feePayer : FeePayer) (k : string) : Prop :=
  match feePayer with
  | PayerSigner s => publicKey s = k
  | PayerKey _ => False
  end.

(** Transaction [i] holds an instruction that lists a signer of key [k]. *)
Definition namedAsSigner (txs : list BuildTransactionsType) (i : nat)
    (k : string) : Prop :=
  ∃ t, txs !! i = Some t ∧ k ∈ publicKey <$> signersOf t.

(** The signer object and the indices stored under a key. *)
Definition ownerOf (k : string) (signers : SignerMap) : option AsyncSigner :=
  signer <$> signerMapGet k signers.
Definition indicesOf (k : string) (signers : SignerMap) : gset nat :=
  from_option transactions ∅ (signerMapGet k signers).

Definition withTransaction (newTx : AnyTransaction) (tr : TransactionReturn)
    : TransactionReturn :=
  {| transaction := newTx; rbh := rbh tr; commitment := commitment tr |}.

(** Message [i] after the signers [entries] have been called in order,
    when the signer of entry [e] turns each transaction [tx] it is given
    into [F e tx]. *)
Definition signedBy (F : SignerEntry → AnyTransaction → AnyTransaction)
    (entries : list SignerEntry) (i : nat) (tx : AnyTransaction)
    : AnyTransaction :=
  foldl (λ tx e, if decide (i ∈ transactions e) then F e tx else tx)
    tx entries.

(** The order in which a signing cycle calls the signers. *)
Definition passOrder (signers : SignerMap) : list SignerEntry :=
  asyncEntries signers ++ localEntries signers.

(** A signer that answers a batch of transactions it is [able] to sign
    with [f] applied to each of them. *)
Definition signsPointwise (s : AsyncSigner) (able : AnyTransaction → Prop)
    (f : AnyTransaction → AnyTransaction) : Prop :=
  ∀ txs, Forall able txs → signAll s txs = Some (f <$> txs).

(** The key of the signer of [e] has a signature slot in [tx]. *)
Definition hasSlot (e : SignerEntry) (tx : AnyTransaction) : Prop :=
  publicKey (signer e) ∈ (txSignatures tx).*1.

(** The signature slots after every signer of [who] has signed. *)
Definition signSlots (who : list PublicKey)
    (slots : list (PublicKey * SignatureSlot))
    : list (PublicKey * SignatureSlot) :=
  (λ slot, if decide (slot.1 ∈ who) then (slot.1, GoodSignature) else slot)
    <$> slots.

(** ** Sample inputs for building and signing *)

(** A stand-in for [MessageV0.compile]: one empty signature slot for the
    payer and for every account flagged as signer. *)
Definition sampleCompile (args : CompileV0Args) : AnyTransaction :=
  {| txVersioned := true; txMessage := [];
     txSignatures :=
       (λ k, (k, ZeroSignature))
         <$> remove_dups
               (payerKey args
                :: (pubkey <$> filter (λ a, isSigner a = true)
                                 (concat (keys <$> compileInstructions args))))
  |}.

Definition ownerSigner : AsyncSigner := keypairToAsyncSigner "Owner".

Definition signedInstruction : InstructionWithSigners :=
  {| instruction :=
       {| keys := [{| pubkey := "Owner"; isSigner := true;
                      isWritable := true |}];
          programId := "Prog"; data := [] |};
     signers := [ownerSigner] |}.

Definition sampleRbh : BlockhashWithExpiryBlockHeight :=
  {| blockhash := "Hash"; lastValidBlockHeight := 100 |}.

Definition sampleTransactions : list BuildTransactionsType :=
  [{| buildIxs := One {| instruction := smallInstruction 0; signers := [] |};
      buildConnectionOrRbh := GivenRbh sampleRbh confirmed;
      buildLookupTables := None |};
   {| buildIxs := Many [signedInstruction; signedInstruction];
      buildConnectionOrRbh :=
        FromConnection (λ _, Returns sampleRbh) None (Some finalized);
      buildLookupTables := None |}].

(** * Properties *)

(** ** The size estimator *)

Lemma lengthToCompact16size_spec n :
  lengthToCompact16size n = compactLengthOf n.
Proof.
  unfold lengthToCompact16size, compactLengthOf.
  repeat case_decide; lia.
Qed.

Lemma lengthToCompact16size_bounds n : 1 ≤ lengthToCompact16size n ≤ 2.
Proof. unfold lengthToCompact16size. case_decide; lia. Qed.

Lemma containedInLUTCount_spec (ks lut : gset string) :
  (containedInLUTCount ks lut).1 = size (filter (λ k, k ∈ lut) ks)
  ∧ (containedInLUTCount ks lut).2 = filter (λ k, k ∉ lut) ks.
Proof.
  unfold containedInLUTCount.
  apply (set_fold_ind_L (λ acc X,
           acc.1 = size (filter (λ k, k ∈ lut) X)
           ∧ acc.2 = filter (λ k, k ∉ lut) X)).
  - split; [|set_solver]. simpl.
    assert (filter (λ k, k ∈ lut) (∅ : gset string) = ∅) as -> by set_solver.
    by rewrite size_empty.
  - intros x X [c ni] Hx [Hc Hni]; simpl in *.
    case_decide as Hin; simpl; split.
    + assert (filter (λ k, k ∈ lut) ({[x]} ∪ X)
              = {[x]} ∪ filter (λ k, k ∈ lut) X) as -> by set_solver.
      rewrite size_union by set_solver. rewrite size_singleton. lia.
    + set_solver.
    + rewrite Hc. f_equal. set_solver.
    + set_solver.
Qed.

(** The keys found in the table and the keys left over partition the set. *)
Lemma containedInLUTCount_total (ks lut : gset string) :
  (containedInLUTCount ks lut).1 + size (containedInLUTCount ks lut).2
  = size ks.
Proof.
  destruct (containedInLUTCount_spec ks lut) as [-> ->].
  rewrite <- size_union.
  - f_equal. apply set_eq. intros x. rewrite elem_of_union, !elem_of_filter.
    destruct (decide (x ∈ lut)); tauto.
  - intros x. rewrite !elem_of_filter. tauto.
Qed.

Lemma getTransactionSize_unfold ixs funder luts :
  getTransactionSize ixs funder luts =
  if decide (baselineSize ixs funder ≤ MAX_TRANSACTION_SIZE ∨ length luts = 0)
  then {| txSize := baselineSize ixs funder; txLookupTables := [];
          uniqueKeyCount := uniqueKeysOf ixs funder |}
  else if decide (MAX_UNIQUE_KEYS_COUNT < uniqueKeysOf ixs funder)
  then {| txSize := baselineSize ixs funder; txLookupTables := [];
          uniqueKeyCount := uniqueKeysOf ixs funder |}
  else findBestLookupTables (staticAccountSizeOf ixs funder)
         (baselineSize ixs funder) 0 0 (eligibleKeysOf ixs funder) [] luts.
Proof. reflexivity. Qed.

Lemma foldl_addAccount acc metas :
  uniqueSigners (foldl addAccount acc metas)
  = uniqueSigners acc
    ∪ list_to_set (pubkey <$> filter (λ s, isSigner s = true) metas)
  ∧ programIds (foldl addAccount acc metas) = programIds acc
  ∧ lutEligibleKeys (foldl addAccount acc metas)
    = lutEligibleKeys acc ∪ list_to_set (pubkey <$> metas).
Proof.
  revert acc. induction metas as [|m ms IH]; intros acc; simpl.
  - set_solver.
  - destruct (IH (addAccount acc m)) as (-> & -> & ->).
    rewrite filter_cons. unfold addAccount; simpl.
    case_decide as Hs.
    + rewrite Hs. simpl. set_solver.
    + destruct (isSigner m); [done|]. set_solver.
Qed.

Lemma foldl_addInstruction acc ixs :
  uniqueSigners (foldl addInstruction acc ixs)
  = uniqueSigners acc
    ∪ list_to_set (pubkey <$> filter (λ s, isSigner s = true)
                                (accountsOf ixs))
  ∧ programIds (foldl addInstruction acc ixs)
    = programIds acc ∪ programIdKeys ixs
  ∧ lutEligibleKeys (foldl addInstruction acc ixs)
    = lutEligibleKeys acc ∪ referencedKeys ixs.
Proof.
  revert acc. induction ixs as [|ix ixs IH]; intros acc.
  - unfold programIdKeys, referencedKeys, accountsOf. simpl. set_solver.
  - simpl. destruct (IH (addInstruction acc ix)) as (-> & -> & ->).
    unfold addInstruction.
    match goal with |- context [foldl addAccount ?a ?l] =>
      destruct (foldl_addAccount a l) as (-> & -> & ->) end.
    unfold programIdKeys, referencedKeys, accountsOf. simpl.
    rewrite filter_app, !fmap_app, !list_to_set_app_L. set_solver.
Qed.

Lemma collectKeys_spec ixs funder :
  uniqueSigners (collectKeys ixs funder) = signerKeys ixs funder
  ∧ programIds (collectKeys ixs funder) = programIdKeys ixs
  ∧ lutEligibleKeys (collectKeys ixs funder) = referencedKeys ixs.
Proof.
  unfold collectKeys.
  match goal with |- context [foldl addInstruction ?a ?l] =>
    destruct (foldl_addInstruction a l) as (-> & -> & ->) end.
  unfold signerKeys. simpl. set_solver.
Qed.

Lemma ixSize_spec iws : ixSize iws = perInstructionSize iws.
Proof.
  unfold ixSize, perInstructionSize.
  by rewrite !lengthToCompact16size_spec.
Qed.

Lemma ixSizes_spec ixs : ixSizes ixs = sum_list (perInstructionSize <$> ixs).
Proof.
  unfold ixSizes.
  assert (∀ a, foldl (λ acc iws, acc + ixSize iws) a ixs
               = a + sum_list (perInstructionSize <$> ixs)) as ->; [|done].
  induction ixs as [|ix ixs IH]; intros a; [simpl; lia|].
  rewrite fmap_cons. cbn [foldl]. rewrite IH, ixSize_spec.
  generalize (perInstructionSize ix). intros n. simpl. lia.
Qed.

(** The count of the source is the number of distinct keys of the message. *)
Lemma uniqueKeysOf_spec ixs funder :
  uniqueKeysOf ixs funder = size (allKeys ixs funder).
Proof.
  unfold uniqueKeysOf, eligibleKeysOf, staticAccountSizeOf, allKeys; simpl.
  destruct (collectKeys_spec ixs funder) as (-> & -> & ->).
  rewrite <- size_union by set_solver. f_equal.
  apply set_eq. intros x.
  destruct (decide (x ∈ signerKeys ixs funder)),
    (decide (x ∈ programIdKeys ixs)); set_solver.
Qed.

Lemma baselineSize_spec ixs funder :
  baselineSize ixs funder
  = staticRegion ixs funder
    + compactLengthOf (size (allKeys ixs funder))
    + 32 * size (allKeys ixs funder).
Proof.
  rewrite <- uniqueKeysOf_spec.
  unfold baselineSize, totalSize, uniqueKeysOf, staticRegion.
  rewrite lengthToCompact16size_spec.
  unfold staticAccountSizeOf; simpl.
  destruct (collectKeys_spec ixs funder) as (-> & _ & _).
  rewrite !lengthToCompact16size_spec, ixSizes_spec. lia.
Qed.

(** ** The lookup-table selector *)

Lemma findBestLookupTables_nil sas sz lc inc rem used :
  findBestLookupTables sas sz lc inc rem used []
  = {| txSize := sz; txLookupTables := used;
       uniqueKeyCount := inc + size rem |}.
Proof. by simp findBestLookupTables. Qed.

Lemma findBestLookupTables_cons sas sz lc inc rem used l ls :
  findBestLookupTables sas sz lc inc rem used (l :: ls) =
  match scanLuts sas lc inc rem used (l :: ls) 0
          {| bestSize := sz; bestRemaining := rem;
             bestIncluded := inc; bestLutIndex := 0 |} with
  | Returned r => r
  | Finished best =>
      if decide (sz = bestSize best) then
        {| txSize := sz; txLookupTables := used;
           uniqueKeyCount := inc + size rem |}
      else
        findBestLookupTables sas (bestSize best) (lc + 1)
          (bestIncluded best) (bestRemaining best)
          (used ++ [(nth (bestLutIndex best) (l :: ls) l).2])
          (spliceOut (bestLutIndex best) (l :: ls))
  end.
Proof.
  simp findBestLookupTables.
  match goal with |- ?f (inspect ?X) = _ =>
    assert (Hgen : ∀ p : {b | X = b},
      f p = match `p with
            | Returned r => r
            | Finished best =>
                if decide (sz = bestSize best) then
                  {| txSize := sz; txLookupTables := used;
                     uniqueKeyCount := inc + size rem |}
                else
                  findBestLookupTables sas (bestSize best) (lc + 1)
                    (bestIncluded best) (bestRemaining best)
                    (used ++ [(nth (bestLutIndex best) (l :: ls) l).2])
                    (spliceOut (bestLutIndex best) (l :: ls))
            end);
    [|exact (Hgen (inspect X))]
  end.
  intros [[r|best] Hr]; simp findBestLookupTables; [done|].
  simpl. destruct (decide (sz = bestSize best)); by simp findBestLookupTables.
Qed.

#[global] Opaque findBestLookupTables.

Lemma scanLuts_cons sas lc inc rem used lut rest i b :
  scanLuts sas lc inc rem used (lut :: rest) i b =
  if decide (projectedSize sas lc inc rem lut < MAX_TRANSACTION_SIZE) then
    Returned {| txSize := projectedSize sas lc inc rem lut;
                txLookupTables := used ++ [lut.2];
                uniqueKeyCount :=
                  inc + (containedInLUTCount rem lut.1).1
                  + size (containedInLUTCount rem lut.1).2 |}
  else if decide (projectedSize sas lc inc rem lut < bestSize b) then
    scanLuts sas lc inc rem used rest (S i)
      {| bestSize := projectedSize sas lc inc rem lut;
         bestRemaining := (containedInLUTCount rem lut.1).2;
         bestIncluded := inc + (containedInLUTCount rem lut.1).1;
         bestLutIndex := i |}
  else scanLuts sas lc inc rem used rest (S i) b.
Proof. reflexivity. Qed.

(** The search returns at the first candidate below the limit. *)
Lemma scanLuts_accepts_first sas lc inc rem used pre lut post i b :
  Forall (λ e, ¬ projectedSize sas lc inc rem e < MAX_TRANSACTION_SIZE) pre →
  projectedSize sas lc inc rem lut < MAX_TRANSACTION_SIZE →
  scanLuts sas lc inc rem used (pre ++ lut :: post) i b =
  Returned {| txSize := projectedSize sas lc inc rem lut;
              txLookupTables := used ++ [lut.2];
              uniqueKeyCount := inc + size rem |}.
Proof.
  intros Hpre Hlut. revert i b.
  induction Hpre as [|e pre He _ IH]; intros i b.
  - rewrite app_nil_l, scanLuts_cons, decide_True by done.
    by rewrite <- Nat.add_assoc, containedInLUTCount_total.
  - rewrite <- app_comm_cons, scanLuts_cons, decide_False by done.
    case_decide; apply IH.
Qed.

(** What the search loop ends with when no candidate is below the limit:
    the first candidate of least projected size, if that improves on the
    size it started from. *)
Lemma scanLuts_finishes sas lc inc rem used entries i b :
  Forall (λ e, ¬ projectedSize sas lc inc rem e < MAX_TRANSACTION_SIZE)
    entries →
  ∃ b', scanLuts sas lc inc rem used entries i b = Finished b'
    ∧ ((b' = b
        ∧ Forall (λ e, bestSize b ≤ projectedSize sas lc inc rem e) entries)
       ∨ (∃ k lut,
            entries !! k = Some lut
            ∧ b' = {| bestSize := projectedSize sas lc inc rem lut;
                      bestRemaining := (containedInLUTCount rem lut.1).2;
                      bestIncluded := inc + (containedInLUTCount rem lut.1).1;
                      bestLutIndex := i + k |}
            ∧ projectedSize sas lc inc rem lut < bestSize b
            ∧ Forall (λ e, projectedSize sas lc inc rem lut
                           ≤ projectedSize sas lc inc rem e) entries
            ∧ ∀ j e, j < k → entries !! j = Some e →
                projectedSize sas lc inc rem lut
                < projectedSize sas lc inc rem e)).
Proof.
  intros Hall. revert i b.
  induction Hall as [|e es He _ IH]; intros i b.
  - exists b. split; [done|]. left. by split.
  - rewrite scanLuts_cons, decide_False by done.
    case_decide as Hlt.
    + edestruct IH as (b' & -> & Hb'). exists b'. split; [done|]. right.
      destruct Hb' as [[-> Hge]|(k & lut & Hk & -> & Hlt' & Hmin & Hfirst)];
        simpl in *.
      * exists 0, e. rewrite Nat.add_0_r. repeat split; try done.
        -- constructor; [lia|done].
        -- intros j e' Hj. lia.
      * exists (S k), lut. rewrite Nat.add_succ_r. repeat split; try done.
        -- lia.
        -- constructor; [lia|done].
        -- intros [|j] e' Hj Hl; simpl in Hl.
           ++ injection Hl as <-. done.
           ++ apply (Hfirst j); [lia|done].
    + edestruct IH as (b' & -> & Hb'). exists b'. split; [done|].
      destruct Hb' as [[-> Hge]|(k & lut & Hk & -> & Hlt' & Hmin & Hfirst)].
      * left. split; [done|]. constructor; [lia|done].
      * right. exists (S k), lut. rewrite Nat.add_succ_r.
        repeat split; try done.
        -- constructor; [lia|done].
        -- intros [|j] e' Hj Hl; simpl in Hl.
           ++ injection Hl as <-. lia.
           ++ apply (Hfirst j); [lia|done].
Qed.

Lemma scanLuts_returned sas lc inc rem used entries i b r :
  scanLuts sas lc inc rem used entries i b = Returned r →
  txSize r < MAX_TRANSACTION_SIZE
  ∧ uniqueKeyCount r = inc + size rem
  ∧ ∃ lut, txLookupTables r = used ++ [lut].
Proof.
  revert i b. induction entries as [|e es IH]; intros i b; [done|].
  rewrite scanLuts_cons. repeat case_decide; try apply IH.
  intros [= <-]; simpl. split; [done|]. split; [|by eexists].
  by rewrite <- Nat.add_assoc, containedInLUTCount_total.
Qed.

Lemma scanLuts_finished sas lc inc rem used entries i b b' :
  scanLuts sas lc inc rem used entries i b = Finished b' →
  b' = b
  ∨ (i ≤ bestLutIndex b' < i + length entries
     ∧ bestSize b' < bestSize b
     ∧ bestIncluded b' + size (bestRemaining b') = inc + size rem).
Proof.
  revert i b. induction entries as [|e es IH]; intros i b.
  - intros [= <-]. by left.
  - rewrite scanLuts_cons. repeat case_decide; try done; intros Hs.
    + right. apply IH in Hs as [->|(? & ? & ?)]; simpl in *.
      * split; [lia|]. split; [done|].
        by rewrite <- Nat.add_assoc, containedInLUTCount_total.
      * split; [lia|]. split; [lia|done].
    + apply IH in Hs as [->|(? & ? & ?)]; [by left|right].
      simpl. split; [lia|done].
Qed.

Lemma spliceOut_length {T} (i : nat) (l : list T) :
  i < length l → length (spliceOut i l) < length l.
Proof.
  intros Hi. unfold spliceOut.
  rewrite length_app, length_take, length_drop. lia.
Qed.

(** The selector keeps the number of keys it was given, only ever appends
    to the tables in use, and changes the size only by taking a table. *)
Lemma findBestLookupTables_result sas sz lc inc rem used luts :
  uniqueKeyCount (findBestLookupTables sas sz lc inc rem used luts)
  = inc + size rem
  ∧ ∃ extra,
      txLookupTables (findBestLookupTables sas sz lc inc rem used luts)
      = used ++ extra
      ∧ (extra = [] →
         txSize (findBestLookupTables sas sz lc inc rem used luts) = sz).
Proof.
  remember (length luts) as n eqn:Hn.
  revert sz lc inc rem used luts Hn.
  induction (lt_wf n) as [n _ IH]; intros sz lc inc rem used luts ->.
  destruct luts as [|l ls].
  - rewrite findBestLookupTables_nil. simpl. split; [done|].
    exists []. by rewrite app_nil_r.
  - rewrite findBestLookupTables_cons.
    destruct (scanLuts _ _ _ _ _ _ _ _) as [r|best] eqn:Hscan.
    + apply scanLuts_returned in Hscan as (_ & Hk & lut & Hl).
      split; [done|]. exists [lut]. by split.
    + case_decide as Hsz.
      * simpl. split; [done|]. exists []. by rewrite app_nil_r.
      * apply scanLuts_finished in Hscan
          as [->|(Hidx & _ & Hkeys)]; [done|]. simpl in Hidx.
        edestruct (IH (length (spliceOut (bestLutIndex best) (l :: ls))))
          as (Hk & extra & Hl & _); [|reflexivity|].
        { apply spliceOut_length. simpl. lia. }
        rewrite Hk, Hl. split; [done|].
        eexists (_ :: extra). rewrite <- app_assoc. by split.
Qed.

(** The selector returns at once with the first candidate, in input order,
    whose projected size is strictly below the limit. *)
Lemma findBestLookupTables_accepts_first sas sz lc inc rem used pre lut post :
  Forall (λ e, ¬ projectedSize sas lc inc rem e < MAX_TRANSACTION_SIZE) pre →
  projectedSize sas lc inc rem lut < MAX_TRANSACTION_SIZE →
  findBestLookupTables sas sz lc inc rem used (pre ++ lut :: post)
  = {| txSize := projectedSize sas lc inc rem lut;
       txLookupTables := used ++ [lut.2];
       uniqueKeyCount := inc + size rem |}.
Proof.
  intros Hpre Hlut.
  destruct (pre ++ lut :: post) as [|l ls] eqn:Heq.
  { by destruct pre. }
  rewrite findBestLookupTables_cons, <- Heq.
  by rewrite (scanLuts_accepts_first _ _ _ _ _ pre lut post).
Qed.

(** Closes a closed comparison of numbers by evaluation. *)
Ltac by_evaluation :=
  lazymatch goal with
  | |- _ = _ => vm_compute; reflexivity
  | |- ?P => apply (bool_decide_unpack P); vm_compute; exact I
  end.

(** C4: when the estimate comes back with no table selected, it is the
    static region plus compact-length-of(staticKeyCount) plus 32 bytes per
    static key; the static region is spelled out in [staticRegion],
    compact-length-of in [compactLengthOf], and staticKeyCount is the number
    of distinct keys among the fee payer, the signer keys, the program ids
    and the other referenced keys. *)
Theorem estimate_without_tables ixs funder luts :
  txLookupTables (getTransactionSize ixs funder luts) = [] →
  txSize (getTransactionSize ixs funder luts)
  = staticRegion ixs funder
    + compactLengthOf (size (allKeys ixs funder))
    + 32 * size (allKeys ixs funder).
Proof.
  rewrite <- baselineSize_spec, getTransactionSize_unfold.
  repeat case_decide; try done.
  destruct (findBestLookupTables_result (staticAccountSizeOf ixs funder)
              (baselineSize ixs funder) 0 0 (eligibleKeysOf ixs funder) []
              luts) as (_ & extra & Hl & Hsz).
  rewrite Hl. simpl. intros ->. by apply Hsz.
Qed.

Lemma estimate_without_tables_witness :
  txLookupTables (getTransactionSize [wideInstruction] "Payer" []) = []
  ∧ txSize (getTransactionSize [wideInstruction] "Payer" [])
    = staticRegion [wideInstruction] "Payer"
      + compactLengthOf (size (allKeys [wideInstruction] "Payer"))
      + 32 * size (allKeys [wideInstruction] "Payer").
Proof.
  split; [by_evaluation|].
  apply estimate_without_tables. by_evaluation.
Defined.

(** C3, at the input where the code departs from it: the first candidate
    projects to exactly 1232 bytes, within the limit, yet the search passes
    it over and returns with the second candidate. *)
Theorem selector_passes_over_candidate_at_limit :
  let sas := staticAccountSizeOf [wideInstruction] "Payer" in
  let remaining := eligibleKeysOf [wideInstruction] "Payer" in
  let candidates := buildLookupTableSet [tableOfTwo; tableOfThree] in
  baselineSize [wideInstruction] "Payer" = 1260
  ∧ projectedSize sas 0 0 remaining
      (list_to_set (addresses tableOfTwo), tableOfTwo) = 1232
  ∧ findBestLookupTables sas 1260 0 0 remaining [] candidates
    = {| txSize := 1201; txLookupTables := [tableOfThree];
         uniqueKeyCount := 3 |}
  ∧ getTransactionSize [wideInstruction] "Payer" candidates
    = {| txSize := 1201; txLookupTables := [tableOfThree];
         uniqueKeyCount := 3 |}.
Proof. repeat split; by_evaluation. Qed.

(** C9, as the code has it: when every candidate projects above the limit,
    the first candidate of least projected size is committed, removed from
    the pool, and the selection goes on from the updated state, provided it
    is strictly smaller than the current size; when no candidate is
    strictly smaller than the current size (in particular when the pool is
    empty) the selection stops with the current size and tables. *)
Theorem selector_commits_least sas sz lc inc rem used luts :
  Forall (λ e, MAX_TRANSACTION_SIZE < projectedSize sas lc inc rem e) luts →
  (∀ i lut,
     luts !! i = Some lut →
     projectedSize sas lc inc rem lut < sz →
     Forall (λ e, projectedSize sas lc inc rem lut
                  ≤ projectedSize sas lc inc rem e) luts →
     (∀ j e, j < i → luts !! j = Some e →
        projectedSize sas lc inc rem lut < projectedSize sas lc inc rem e) →
     findBestLookupTables sas sz lc inc rem used luts
     = findBestLookupTables sas (projectedSize sas lc inc rem lut) (lc + 1)
         (inc + (containedInLUTCount rem lut.1).1)
         (containedInLUTCount rem lut.1).2
         (used ++ [lut.2]) (spliceOut i luts))
  ∧ (Forall (λ e, sz ≤ projectedSize sas lc inc rem e) luts →
     findBestLookupTables sas sz lc inc rem used luts
     = {| txSize := sz; txLookupTables := used;
          uniqueKeyCount := inc + size rem |}).
Proof.
  intros Habove.
  destruct luts as [|l ls].
  { split; [done|]. intros _. apply findBestLookupTables_nil. }
  assert (Hnot : Forall (λ e, ¬ projectedSize sas lc inc rem e
                              < MAX_TRANSACTION_SIZE) (l :: ls)).
  { eapply Forall_impl; [exact Habove|]. simpl. lia. }
  destruct (scanLuts_finishes sas lc inc rem used (l :: ls) 0
              (mkBest sz rem inc 0) Hnot) as (b' & Hscan & Hb').
  rewrite findBestLookupTables_cons, Hscan. simpl in Hb'. split.
  - intros i lut Hi Hlt Hmin Hfirst.
    destruct Hb' as [[-> Hge]|(k & lut' & Hk & -> & Hlt' & Hmin' & Hfirst')].
    { rewrite Forall_lookup in Hge. specialize (Hge i lut Hi). lia. }
    assert (k = i) as ->.
    { destruct (Nat.lt_trichotomy k i) as [Hki|[Hki|Hki]]; [|done|].
      - specialize (Hfirst k lut' Hki Hk).
        rewrite Forall_lookup in Hmin'. specialize (Hmin' i lut Hi). lia.
      - specialize (Hfirst' i lut Hki Hi).
        rewrite Forall_lookup in Hmin. specialize (Hmin k lut' Hk). lia. }
    assert (lut' = lut) as -> by congruence.
    cbn [bestSize bestIncluded bestRemaining bestLutIndex].
    change (0 + i) with i.
    rewrite decide_False by lia.
    by rewrite nth_lookup, Hi.
  - intros Hge.
    destruct Hb' as [[-> _]|(k & lut' & Hk & -> & Hlt' & _)].
    + cbn [bestSize]. by rewrite decide_True.
    + rewrite Forall_lookup in Hge. specialize (Hge k lut' Hk). lia.
Qed.

Lemma selector_commits_least_witness :
  let sas := staticAccountSizeOf [widerInstruction] "Payer" in
  let remaining := eligibleKeysOf [widerInstruction] "Payer" in
  let luts :=
    buildLookupTableSet [tableOfStrangers; tableOfTwo; tableOfThree] in
  Forall (λ e, MAX_TRANSACTION_SIZE < projectedSize sas 0 0 remaining e) luts
  ∧ findBestLookupTables sas 1371 0 0 remaining [] luts
    = findBestLookupTables sas 1312 1 3 ∅ [tableOfThree]
        (buildLookupTableSet [tableOfStrangers; tableOfTwo]).
Proof.
  intros sas remaining luts.
  assert (Habove : Forall (λ e, MAX_TRANSACTION_SIZE
                                < projectedSize sas 0 0 remaining e) luts)
    by by_evaluation.
  split; [exact Habove|].
  destruct (selector_commits_least sas 1371 0 0 remaining [] luts Habove)
    as [Hstep _].
  rewrite (Hstep 2 (list_to_set (addresses tableOfThree), tableOfThree)).
  - by_evaluation.
  - reflexivity.
  - by_evaluation.
  - by_evaluation.
  - intros [|[|j]] e Hj Hl; try lia; injection Hl as <-; by_evaluation.
Defined.

(** C9 fails as stated: the only candidate holds none of the remaining
    keys, so its projected size (1294) is above the limit and it is the
    least there is; it is not committed, the selection stops with no table
    and the size unchanged. *)
Lemma selector_commits_least_counterexample :
  let sas := staticAccountSizeOf [wideInstruction] "Payer" in
  let remaining := eligibleKeysOf [wideInstruction] "Payer" in
  let candidate := (list_to_set (addresses tableOfStrangers),
                    tableOfStrangers) in
  MAX_TRANSACTION_SIZE < projectedSize sas 0 0 remaining candidate
  ∧ findBestLookupTables sas 1260 0 0 remaining [] [candidate]
    = {| txSize := 1260; txLookupTables := []; uniqueKeyCount := 3 |}
  ∧ findBestLookupTables sas 1260 0 0 remaining [] [candidate]
    ≠ findBestLookupTables sas
        (projectedSize sas 0 0 remaining candidate) 1
        (0 + (containedInLUTCount remaining candidate.1).1)
        (containedInLUTCount remaining candidate.1).2
        [tableOfStrangers] [].
Proof.
  repeat split; try by_evaluation.
  vm_compute. discriminate.
Qed.

(** ** The estimate and the key budget *)

(** An estimate that reports at most 128 keys is of a message with at most
    128 distinct keys: the selector is only entered under that bound. *)
Lemma reported_keys_bound ixs funder luts :
  uniqueKeyCount (getTransactionSize ixs funder luts) ≤ MAX_UNIQUE_KEYS_COUNT →
  uniqueKeysOf ixs funder ≤ MAX_UNIQUE_KEYS_COUNT.
Proof.
  rewrite getTransactionSize_unfold. repeat case_decide; simpl; lia.
Qed.

Lemma baselineSize_lower ixs funder :
  32 * uniqueKeysOf ixs funder ≤ baselineSize ixs funder.
Proof. unfold baselineSize, totalSize, uniqueKeysOf. lia. Qed.

(** An estimate within the byte budget never reports more than 128 keys:
    the second test of the packer cannot fail once the first has passed. *)
Lemma size_within_budget_keys ixs funder luts :
  txSize (getTransactionSize ixs funder luts) ≤ MAX_TRANSACTION_SIZE →
  uniqueKeyCount (getTransactionSize ixs funder luts) ≤ MAX_UNIQUE_KEYS_COUNT.
Proof.
  rewrite getTransactionSize_unfold.
  pose proof (baselineSize_lower ixs funder) as Hlow.
  unfold MAX_TRANSACTION_SIZE, MAX_UNIQUE_KEYS_COUNT in *.
  repeat case_decide; simpl; try lia.
  intros _.
  destruct (findBestLookupTables_result (staticAccountSizeOf ixs funder)
              (baselineSize ixs funder) 0 0 (eligibleKeysOf ixs funder) []
              luts) as (-> & _).
  unfold uniqueKeysOf in *. lia.
Qed.

(** More than 128 distinct keys put the estimate above the byte budget. *)
Lemma too_many_keys_too_large ixs funder luts :
  MAX_UNIQUE_KEYS_COUNT < uniqueKeysOf ixs funder →
  MAX_TRANSACTION_SIZE < txSize (getTransactionSize ixs funder luts).
Proof.
  rewrite getTransactionSize_unfold.
  pose proof (baselineSize_lower ixs funder) as Hlow.
  unfold MAX_TRANSACTION_SIZE, MAX_UNIQUE_KEYS_COUNT in *.
  repeat case_decide; simpl; lia.
Qed.

(** ** The dynamic packer *)

Lemma deepCopyInstructions_id b : deepCopyInstructions b = b.
Proof.
  destruct b as [ixs luts]. unfold deepCopyInstructions; simpl. f_equal.
  induction ixs as [|[[ks p d] sg] ixs IH]; [done|].
  rewrite fmap_cons, IH. simpl. do 3 f_equal.
  clear. induction ks as [|[k s w] ks IH]; [done|].
  rewrite fmap_cons, IH. done.
Qed.

Lemma arrayInsert_scaffold {T} (before mid after : list T) (x : T) :
  arrayInsert (before ++ mid ++ after)
    (length (before ++ mid ++ after) - length after) x
  = before ++ (mid ++ [x]) ++ after.
Proof.
  unfold arrayInsert.
  replace (length (before ++ mid ++ after) - length after)
    with (length (before ++ mid)) by (rewrite !length_app; lia).
  rewrite (app_assoc before mid after).
  rewrite take_app_length, drop_app_length.
  by rewrite <- !app_assoc.
Qed.

Lemma stripScaffolding_scaffold before mid after luts :
  stripScaffolding (length before) (length after)
    {| instructions := before ++ mid ++ after; lookupTables := luts |}
  = mid.
Proof.
  unfold stripScaffolding; simpl.
  rewrite drop_app_length.
  replace (length (before ++ mid ++ after) - length before - length after)
    with (length mid) by (rewrite !length_app; lia).
  apply take_app_length.
Qed.

Section Packer.
Variables (funder : PublicKey) (luts : list LutEntry).
Variables (before after : list InstructionWithSigners).
Variable maxInstructionCount : nat.

Local Abbreviation loop :=
  (packLoop funder luts before after maxInstructionCount).
Local Abbreviation rejected :=
  (spliceRejected funder luts (length after) maxInstructionCount).

Lemma packLoop_nil output current :
  loop [] output current = ok (output, current).
Proof. reflexivity. Qed.

Lemma packLoop_cons ix rest output current :
  loop (ix :: rest) output current =
  let nextIxs :=
    arrayInsert (instructions current)
      (length (instructions current) - length after) ix in
  let next := getTransactionSize nextIxs funder luts in
  if decide (rejected (instructions current) ix) then
    let cur := getTransactionSize (before ++ [ix] ++ after) funder luts in
    if decide (MAX_TRANSACTION_SIZE < txSize cur) then
      err (msgInstructionTooLarge (programId (instruction ix)))
    else if decide (MAX_UNIQUE_KEYS_COUNT < uniqueKeyCount cur) then
      err (msgInstructionTooManyKeys (programId (instruction ix)))
    else
      loop rest (output ++ [current])
        {| instructions := before ++ [ix] ++ after;
           lookupTables := txLookupTables cur |}
  else
    loop rest output
      {| instructions := nextIxs; lookupTables := txLookupTables next |}.
Proof.
  cbn [packLoop]. unfold spliceRejected.
  by rewrite deepCopyInstructions_id.
Qed.

Lemma packLoop_app pre rest output current :
  loop (pre ++ rest) output current =
  match loop pre output current with
  | ok (output', current') => loop rest output' current'
  | err e => err e
  end.
Proof.
  revert output current.
  induction pre as [|ix pre IH]; intros output current; [done|].
  rewrite <- app_comm_cons, !packLoop_cons. cbv zeta.
  repeat case_decide; try done; apply IH.
Qed.

(** When every instruction fits with the scaffolding alone, the loop
    runs to its end and loses no instruction. *)
Lemma packLoop_total rest output mid tables :
  (∀ ix, ix ∈ rest → fitsBytesAndKeys funder luts (before ++ [ix] ++ after)) →
  ∃ output' mid' tables',
    loop rest output
      {| instructions := before ++ mid ++ after; lookupTables := tables |}
    = ok (output', {| instructions := before ++ mid' ++ after;
                      lookupTables := tables' |})
    ∧ concat (stripScaffolding (length before) (length after) <$> output')
      ++ mid'
      = concat (stripScaffolding (length before) (length after) <$> output)
        ++ mid ++ rest.
Proof.
  revert output mid tables.
  induction rest as [|ix rest IH]; intros output mid tables Hfit.
  - exists output, mid, tables. by rewrite app_nil_r.
  - rewrite packLoop_cons. cbv zeta. cbn [instructions].
    assert (Hrest : ∀ ix', ix' ∈ rest →
              fitsBytesAndKeys funder luts (before ++ [ix'] ++ after)).
    { intros ix' Hin. apply Hfit. by right. }
    case_decide as Hrej.
    + destruct (Hfit ix) as [Hsz Hk]; [by left|].
      rewrite !decide_False by lia.
      destruct (IH (output ++ [{| instructions := before ++ mid ++ after;
                                  lookupTables := tables |}])
                  [ix] (txLookupTables
                          (getTransactionSize (before ++ [ix] ++ after)
                             funder luts)) Hrest)
        as (output' & mid' & tables' & -> & Heq).
      exists output', mid', tables'. split; [done|].
      rewrite Heq, fmap_app, concat_app. simpl.
      rewrite stripScaffolding_scaffold, app_nil_r.
      by rewrite <- !app_assoc.
    + rewrite (arrayInsert_scaffold before mid after ix).
      destruct (IH output (mid ++ [ix])
                  (txLookupTables
                     (getTransactionSize (before ++ (mid ++ [ix]) ++ after)
                        funder luts)) Hrest)
        as (output' & mid' & tables' & -> & Heq).
      exists output', mid', tables'. split; [done|].
      by rewrite Heq, <- !app_assoc.
Qed.

(** Every batch the loop emits, and the batch it is working on, passed
    the byte and key tests; the count is within the cap unless the batch
    is the scaffolding with at most one instruction. *)
Lemma packLoop_batches rest output current output' current' :
  let ok_batch :=
    batchWithinBudgets funder luts
      (maxInstructionCount `max` (length before + length after + 1)) in
  loop rest output current = ok (output', current') →
  Forall ok_batch output → ok_batch current →
  Forall ok_batch output' ∧ ok_batch current'.
Proof.
  intros ok_batch. revert output current.
  induction rest as [|ix rest IH]; intros output current.
  - intros [= <- <-]. by split.
  - rewrite packLoop_cons. cbv zeta. unfold spliceRejected.
    set (nextIxs := arrayInsert _ _ _).
    case_decide as Hrej.
    + repeat case_decide; try done.
      intros Hloop Hout Hcur. apply (IH _ _ Hloop).
      * apply Forall_app. split; [done|]. by constructor.
      * unfold ok_batch, batchWithinBudgets. cbn [instructions lookupTables].
        split; [lia|]. split; [lia|]. split.
        { rewrite <- uniqueKeysOf_spec.
          apply (reported_keys_bound _ _ luts). lia. }
        split; [|done]. rewrite !length_app. simpl. lia.
    + intros Hloop Hout Hcur. apply (IH _ _ Hloop); [done|].
      unfold ok_batch, batchWithinBudgets. cbn [instructions lookupTables].
      split; [lia|]. split; [lia|]. split.
      { rewrite <- uniqueKeysOf_spec.
        apply (reported_keys_bound _ _ luts). lia. }
      split; [lia|done].
Qed.
End Packer.

Lemma buildDynamicTransactionsNoSigning_unfold ixs feePayer beforeIxs afterIxs
    lookupTables maxInstructionCount :
  buildDynamicTransactionsNoSigning ixs feePayer beforeIxs afterIxs
    lookupTables maxInstructionCount =
  let before := resolveInstructions beforeIxs feePayer in
  let after := resolveInstructions afterIxs feePayer in
  let luts := buildLookupTableSet lookupTables in
  let first := getTransactionSize (before ++ after) (publicKey feePayer) luts in
  if decide (MAX_TRANSACTION_SIZE < txSize first) then err msgScaffoldTooBig
  else if decide (MAX_UNIQUE_KEYS_COUNT < uniqueKeyCount first)
  then err msgScaffoldTooManyKeys
  else
    match packLoop (publicKey feePayer) luts before after maxInstructionCount
            (resolveInstructions ixs feePayer) []
            {| instructions := before ++ after;
               lookupTables := txLookupTables first |} with
    | err e => err e
    | ok (output, current) =>
        if decide (length before + length after
                   < length (instructions current))
        then ok (output ++ [current])
        else ok output
    end.
Proof.
  unfold buildDynamicTransactionsNoSigning. cbv zeta.
  repeat case_decide; try done.
  destruct (packLoop _ _ _ _ _ _ _ _) as [[output current]|e]; [|done].
  by rewrite deepCopyInstructions_id.
Qed.

(** C10: with no main instruction and scaffolding that fits the byte and
    key budgets, the packer returns Ok with no batch at all. *)
Theorem pack_of_nothing ixs feePayer beforeIxs afterIxs lookupTables
    maxInstructionCount :
  resolveInstructions ixs feePayer = [] →
  fitsBytesAndKeys (publicKey feePayer) (buildLookupTableSet lookupTables)
    (resolveInstructions beforeIxs feePayer
     ++ resolveInstructions afterIxs feePayer) →
  buildDynamicTransactionsNoSigning ixs feePayer beforeIxs afterIxs
    lookupTables maxInstructionCount = ok [].
Proof.
  intros Hnil [Hsz Hk].
  rewrite buildDynamicTransactionsNoSigning_unfold. cbv zeta.
  rewrite Hnil, !decide_False by lia.
  cbn [packLoop instructions]. rewrite decide_False; [done|].
  rewrite length_app. lia.
Qed.

Lemma pack_of_nothing_witness :
  buildDynamicTransactionsNoSigning (Many []) payer
    (One (ixToIxReturn (smallInstruction 0)))
    (One (ixToIxReturn (smallInstruction 1))) [tableOfTwo]
    defaultMaxInstructionCount = ok [].
Proof. apply pack_of_nothing; [reflexivity|]. split; by_evaluation. Defined.

(** C1, as the code has it: when the scaffolding alone fits the byte and
    key budgets and every instruction, on its own with the scaffolding,
    fits the byte budget, the key budget and the instruction-count cap, the
    packer returns Ok and the batches, scaffolding removed, concatenate to
    the input instructions in their order. *)
Theorem pack_keeps_every_instruction ixs feePayer beforeIxs afterIxs
    lookupTables maxInstructionCount :
  let funder := publicKey feePayer in
  let luts := buildLookupTableSet lookupTables in
  let before := resolveInstructions beforeIxs feePayer in
  let after := resolveInstructions afterIxs feePayer in
  fitsBytesAndKeys funder luts (before ++ after) →
  (∀ ix, ix ∈ resolveInstructions ixs feePayer →
     fitsBytesAndKeys funder luts (before ++ [ix] ++ after)
     ∧ length (before ++ [ix] ++ after) ≤ maxInstructionCount) →
  ∃ output,
    buildDynamicTransactionsNoSigning ixs feePayer beforeIxs afterIxs
      lookupTables maxInstructionCount = ok output
    ∧ concat (stripScaffolding (length before) (length after) <$> output)
      = resolveInstructions ixs feePayer.
Proof.
  intros funder luts before after [Hsz Hk] Hall.
  rewrite buildDynamicTransactionsNoSigning_unfold. cbv zeta.
  fold funder luts before after.
  rewrite !decide_False by lia.
  destruct (packLoop_total funder luts before after maxInstructionCount
              (resolveInstructions ixs feePayer) [] []
              (txLookupTables (getTransactionSize (before ++ after) funder luts)))
    as (output & mid & tables & Hloop & Heq).
  { intros ix Hin. by apply Hall. }
  cbn [app concat fmap list_fmap] in Hloop, Heq. rewrite Hloop.
  cbn [instructions].
  case_decide as Hlen.
  - eexists. split; [done|].
    rewrite fmap_app, concat_app. simpl.
    by rewrite stripScaffolding_scaffold, app_nil_r.
  - exists output. split; [done|].
    destruct mid; [by rewrite app_nil_r in Heq|].
    rewrite !length_app in Hlen. simpl in Hlen. lia.
Qed.

Lemma pack_keeps_every_instruction_witness :
  ∃ output,
    buildDynamicTransactionsNoSigning
      (Many (ixToIxReturn <$> (smallInstruction <$> [2; 3; 4]))) payer
      (One (ixToIxReturn (smallInstruction 0)))
      (One (ixToIxReturn (smallInstruction 1))) [] 4 = ok output
    ∧ concat (stripScaffolding 1 1 <$> output)
      = resolveInstructions
          (Many (ixToIxReturn <$> (smallInstruction <$> [2; 3; 4]))) payer.
Proof.
  apply (pack_keeps_every_instruction
           (Many (ixToIxReturn <$> (smallInstruction <$> [2; 3; 4]))) payer
           (One (ixToIxReturn (smallInstruction 0)))
           (One (ixToIxReturn (smallInstruction 1))) [] 4).
  - split; by_evaluation.
  - intros ix Hin. simpl in Hin.
    repeat (apply elem_of_cons in Hin as [->|Hin]);
      [| | |by apply elem_of_nil in Hin];
      (split; [split|]; by_evaluation).
Defined.

(** C1 fails as stated: the one instruction, on its own with the
    scaffolding, fits (1221 bytes with two tables, 11 keys, 2 instructions),
    but the greedy estimate of the scaffolding alone is 1240 bytes, and the
    packer returns the scaffolding error. *)
Lemma pack_keeps_every_instruction_counterexample :
  let ixs := One (ixToIxReturn lateInstruction) in
  let before := One (ixToIxReturn scaffoldInstruction) in
  resolveInstructions ixs payer ≠ []
  ∧ (∀ ix, ix ∈ resolveInstructions ixs payer →
       fitsBytesAndKeys (publicKey payer)
         (buildLookupTableSet overlappingTables)
         (resolveInstructions before payer ++ [ix]
          ++ resolveInstructions (Many []) payer)
       ∧ length (resolveInstructions before payer ++ [ix]
                 ++ resolveInstructions (Many []) payer)
         ≤ defaultMaxInstructionCount)
  ∧ buildDynamicTransactionsNoSigning ixs payer before (Many [])
      overlappingTables defaultMaxInstructionCount = err msgScaffoldTooBig.
Proof.
  split; [done|]. split; [|by_evaluation].
  intros ix Hin. simpl in Hin. apply list_elem_of_singleton in Hin as ->.
  split; [split|]; by_evaluation.
Qed.

(** With no main instruction at all the same error is returned for
    scaffolding of more than 1232 bytes. *)
Lemma pack_with_oversized_scaffolding :
  buildDynamicTransactionsNoSigning (Many []) payer
    (One (ixToIxReturn oversizedInstruction)) (Many []) []
    defaultMaxInstructionCount = err msgScaffoldTooBig.
Proof. by_evaluation. Qed.

(** What does hold of every batch of a successful pack: an estimated size
    of at most 1232 bytes, at most 128 unique account keys (as the estimate
    reports them and as the distinct keys of the batch), the tables of its
    estimate, and an instruction count that is within [maxInstructionCount]
    unless the batch is the scaffolding alone or the scaffolding and one
    instruction, which are never tested against the cap. *)
Lemma emitted_batches_bounds ixs feePayer beforeIxs afterIxs
    tables maxInstructionCount output :
  buildDynamicTransactionsNoSigning ixs feePayer beforeIxs afterIxs
    tables maxInstructionCount = ok output →
  Forall
    (batchWithinBudgets (publicKey feePayer)
       (buildLookupTableSet tables)
       (maxInstructionCount
          `max` (length (resolveInstructions beforeIxs feePayer)
                 + length (resolveInstructions afterIxs feePayer) + 1)))
    output.
Proof.
  rewrite buildDynamicTransactionsNoSigning_unfold. cbv zeta.
  set (funder := publicKey feePayer).
  set (luts := buildLookupTableSet tables).
  set (before := resolveInstructions beforeIxs feePayer).
  set (after := resolveInstructions afterIxs feePayer).
  case_decide as Hsz; [done|]. case_decide as Hk; [done|].
  destruct (packLoop _ _ _ _ _ _ _ _) as [[out current]|e] eqn:Hloop; [|done].
  apply packLoop_batches in Hloop as [Hout Hcur].
  - case_decide; intros [= <-]; [|done].
    apply Forall_app. split; [done|]. by constructor.
  - constructor.
  - unfold batchWithinBudgets. cbn [instructions lookupTables].
    split; [lia|]. split; [lia|]. split.
    { rewrite <- uniqueKeysOf_spec.
      apply (reported_keys_bound _ _ luts). lia. }
    split; [|done]. rewrite length_app. lia.
Qed.

(** C2, at an input where the code departs from it: with a cap of two
    instructions and scaffolding of two (one before, one after), the one
    main instruction does not fit the working batch, which is the
    scaffolding; the packer emits that batch, which holds no main
    instruction, starts a fresh batch of the scaffolding and the
    instruction, tests it against the byte and the key budget only, and
    emits it with three instructions, one more than the cap. *)
Theorem pack_emits_batch_over_instruction_cap :
  let s n := {| instruction := smallInstruction n; signers := [] |} in
  buildDynamicTransactionsNoSigning
    (One (ixToIxReturn (smallInstruction 2))) payer
    (One (ixToIxReturn (smallInstruction 0)))
    (One (ixToIxReturn (smallInstruction 1))) [] 2
  = ok [{| instructions := [s 0; s 1]; lookupTables := [] |};
        {| instructions := [s 0; s 2; s 1]; lookupTables := [] |}]
  ∧ ¬ Forall (λ b, length (instructions b) ≤ 2)
        [{| instructions := [s 0; s 1]; lookupTables := [] |};
         {| instructions := [s 0; s 2; s 1]; lookupTables := [] |}].
Proof.
  intros s. split; [by_evaluation|].
  intros Hall. apply Forall_cons in Hall as [_ Hall].
  apply Forall_cons in Hall as [Hlen _]. cbn [instructions length] in Hlen.
  lia.
Qed.

(** The two messages of a failed minimal batch differ, whatever programs
    they name. *)
Lemma minimal_batch_messages_differ p q :
  msgInstructionTooLarge p ≠ msgInstructionTooManyKeys q.
Proof.
  intros H. apply (f_equal (String.get 12)) in H.
  vm_compute in H. discriminate.
Qed.

(** A rejected instruction whose minimal batch is over a budget ends the
    loop with the message of the first test that fails. *)
Lemma packLoop_minimal_batch_error funder luts before after
    maxInstructionCount ix rest output current :
  let fresh := getTransactionSize (before ++ [ix] ++ after) funder luts in
  spliceRejected funder luts (length after) maxInstructionCount
    (instructions current) ix →
  (MAX_TRANSACTION_SIZE < txSize fresh
   ∨ MAX_UNIQUE_KEYS_COUNT < uniqueKeyCount fresh
   ∨ MAX_UNIQUE_KEYS_COUNT < size (allKeys (before ++ [ix] ++ after) funder)) →
  packLoop funder luts before after maxInstructionCount (ix :: rest) output
    current
  = err (if decide (MAX_TRANSACTION_SIZE < txSize fresh)
         then msgInstructionTooLarge (programId (instruction ix))
         else msgInstructionTooManyKeys (programId (instruction ix))).
Proof.
  intros fresh Hrej Hviol.
  rewrite packLoop_cons. cbv zeta. rewrite decide_True by done. fold fresh.
  assert (Hviol' : MAX_TRANSACTION_SIZE < txSize fresh
                   ∨ MAX_UNIQUE_KEYS_COUNT < uniqueKeyCount fresh).
  { destruct Hviol as [?|[?|Hkeys]]; [by left|by right|left].
    apply too_many_keys_too_large. by rewrite uniqueKeysOf_spec. }
  case_decide as Hbig; [done|].
  by rewrite decide_True by (destruct Hviol'; [done|lia]).
Qed.

(** C6, where the code departs from it: whenever the loop reaches an
    instruction that does not fit the working batch and the fresh minimal
    batch (before, that instruction, after) is over the byte budget or over
    the key budget, the packer returns an error value naming the target
    program of the instruction, but it is the byte-size message in either
    case, never the message for too many unique accounts: a minimal batch
    over the key budget is over the byte budget too, the byte test comes
    first, and the key test after it cannot fail. *)
Theorem minimal_batch_overflow_message ixs feePayer beforeIxs afterIxs tables
    maxInstructionCount pre ix post output current :
  let funder := publicKey feePayer in
  let luts := buildLookupTableSet tables in
  let before := resolveInstructions beforeIxs feePayer in
  let after := resolveInstructions afterIxs feePayer in
  let fresh := getTransactionSize (before ++ [ix] ++ after) funder luts in
  resolveInstructions ixs feePayer = pre ++ ix :: post →
  fitsBytesAndKeys funder luts (before ++ after) →
  packLoop funder luts before after maxInstructionCount pre []
    {| instructions := before ++ after;
       lookupTables :=
         txLookupTables (getTransactionSize (before ++ after) funder luts) |}
  = ok (output, current) →
  spliceRejected funder luts (length after) maxInstructionCount
    (instructions current) ix →
  (MAX_TRANSACTION_SIZE < txSize fresh
   ∨ MAX_UNIQUE_KEYS_COUNT < uniqueKeyCount fresh
   ∨ MAX_UNIQUE_KEYS_COUNT < size (allKeys (before ++ [ix] ++ after) funder)) →
  buildDynamicTransactionsNoSigning ixs feePayer beforeIxs afterIxs tables
    maxInstructionCount
  = err (msgInstructionTooLarge (programId (instruction ix)))
  ∧ MAX_TRANSACTION_SIZE < txSize fresh
  ∧ ∀ program,
      msgInstructionTooLarge (programId (instruction ix))
      ≠ msgInstructionTooManyKeys program.
Proof.
  intros funder luts before after fresh Hixs [Hsz Hk] Hpre Hrej Hviol.
  assert (Hbig : MAX_TRANSACTION_SIZE < txSize fresh).
  { destruct Hviol as [?|[Hkeys|Hkeys]]; [done| |].
    - pose proof (size_within_budget_keys (before ++ [ix] ++ after) funder
                    luts) as Hbound.
      fold fresh in Hbound. lia.
    - apply too_many_keys_too_large. by rewrite uniqueKeysOf_spec. }
  rewrite buildDynamicTransactionsNoSigning_unfold. cbv zeta.
  fold funder luts before after.
  rewrite !decide_False by lia.
  rewrite Hixs, packLoop_app, Hpre.
  rewrite packLoop_minimal_batch_error by done. fold fresh.
  rewrite decide_True by done.
  split; [done|]. split; [done|].
  intros program. apply minimal_batch_messages_differ.
Qed.

Lemma minimal_batch_overflow_message_witness :
  MAX_UNIQUE_KEYS_COUNT
  < size (allKeys [{| instruction := manyAccountsInstruction 127;
                      signers := [] |}] "Payer")
  ∧ buildDynamicTransactionsNoSigning
      (One (ixToIxReturn (manyAccountsInstruction 127))) payer
      (Many []) (Many []) [] defaultMaxInstructionCount
    = err (msgInstructionTooLarge "Prog").
Proof.
  assert (Hkeys : MAX_UNIQUE_KEYS_COUNT
                  < size (allKeys [{| instruction := manyAccountsInstruction 127;
                                      signers := [] |}] "Payer"))
    by by_evaluation.
  split; [exact Hkeys|].
  apply (minimal_batch_overflow_message
           (One (ixToIxReturn (manyAccountsInstruction 127))) payer
           (Many []) (Many []) [] defaultMaxInstructionCount
           [] {| instruction := manyAccountsInstruction 127; signers := [] |}
           [] [] {| instructions := []; lookupTables := [] |}).
  - reflexivity.
  - split; by_evaluation.
  - reflexivity.
  - left. by_evaluation.
  - right. right. exact Hkeys.
Defined.

Section OneBatch.
Variables (funder : PublicKey) (luts : list LutEntry).
Variables (before after : list InstructionWithSigners).
Variable maxInstructionCount : nat.

(** While every longer prefix still fits, the loop only grows the
    working batch. *)
Lemma packLoop_one_batch rest output mid :
  (∀ n, 0 < n ≤ length rest →
     fitsBytesAndKeys funder luts (before ++ (mid ++ take n rest) ++ after)) →
  length (before ++ (mid ++ rest) ++ after) ≤ maxInstructionCount →
  ∀ tables,
    (rest = [] →
     tables = txLookupTables
                (getTransactionSize (before ++ mid ++ after) funder luts)) →
    packLoop funder luts before after maxInstructionCount rest output
      {| instructions := before ++ mid ++ after; lookupTables := tables |}
    = ok (output,
          {| instructions := before ++ (mid ++ rest) ++ after;
             lookupTables :=
               txLookupTables
                 (getTransactionSize (before ++ (mid ++ rest) ++ after)
                    funder luts) |}).
Proof.
  revert mid. induction rest as [|ix rest IH]; intros mid Hfit Hlen tables Ht.
  - rewrite packLoop_nil, app_nil_r. by rewrite Ht.
  - rewrite packLoop_cons. cbv zeta. unfold spliceRejected.
    cbn [instructions].
    destruct (Hfit 1) as [Hsz Hk]; [cbn [length]; lia|].
    cbn [take] in Hsz, Hk. rewrite take_0 in Hsz, Hk.
    rewrite decide_False.
    + rewrite (arrayInsert_scaffold before mid after ix).
      rewrite (IH (mid ++ [ix])).
      * by rewrite <- (app_assoc mid [ix] rest).
      * intros n Hn. specialize (Hfit (S n)). simpl in Hfit.
        rewrite <- (app_assoc mid [ix] (take n rest)). apply Hfit. lia.
      * by rewrite <- (app_assoc mid [ix] rest).
      * done.
    + rewrite (arrayInsert_scaffold before mid after ix).
      revert Hlen. rewrite !length_app. simpl. lia.
Qed.
End OneBatch.

(** A list of instructions of which every prefix, with the scaffolding,
    fits the byte budget and the key budget, and which is within the
    instruction-count cap, is packed into exactly one batch. *)
Lemma pack_into_one_batch ixs feePayer beforeIxs afterIxs tables
    maxInstructionCount :
  let funder := publicKey feePayer in
  let before := resolveInstructions beforeIxs feePayer in
  let after := resolveInstructions afterIxs feePayer in
  let luts := buildLookupTableSet tables in
  let all := resolveInstructions ixs feePayer in
  all ≠ [] →
  (∀ n, n ≤ length all →
     fitsBytesAndKeys funder luts (before ++ take n all ++ after)) →
  length (before ++ all ++ after) ≤ maxInstructionCount →
  buildDynamicTransactionsNoSigning ixs feePayer beforeIxs afterIxs tables
    maxInstructionCount
  = ok [{| instructions := before ++ all ++ after;
           lookupTables :=
             txLookupTables
               (getTransactionSize (before ++ all ++ after) funder luts) |}].
Proof.
  intros funder before after luts all Hne Hfit Hlen.
  rewrite buildDynamicTransactionsNoSigning_unfold. cbv zeta.
  fold funder before after luts all.
  destruct (Hfit 0) as [Hsz Hk]; [lia|]. rewrite take_0 in Hsz, Hk.
  cbn [app] in Hsz, Hk.
  rewrite !decide_False by lia.
  rewrite (packLoop_one_batch funder luts before after maxInstructionCount
             all [] []).
  - cbn [app instructions]. rewrite decide_True; [done|].
    destruct all; [done|]. rewrite !length_app. cbn [length]. lia.
  - intros n Hn. apply Hfit. lia.
  - done.
  - done.
Qed.

(** With a table that holds its accounts, an instruction with exactly 128
    unique keys (the payer, the program and 126 accounts) is packed into
    one batch. *)
Lemma pack_of_128_keys_with_table :
  size (allKeys [{| instruction := manyAccountsInstruction 126;
                    signers := [] |}] "Payer") = 128
  ∧ buildDynamicTransactionsNoSigning
      (One (ixToIxReturn (manyAccountsInstruction 126))) payer
      (Many []) (Many []) [tableOfAll 126] defaultMaxInstructionCount
    = ok [{| instructions := [{| instruction := manyAccountsInstruction 126;
                                 signers := [] |}];
             lookupTables := [tableOfAll 126] |}].
Proof. split; by_evaluation. Qed.

(** Without a table the same instruction is 4330 bytes long and the packer
    fails. *)
Lemma pack_of_128_keys_without_table :
  buildDynamicTransactionsNoSigning
    (One (ixToIxReturn (manyAccountsInstruction 126))) payer
    (Many []) (Many []) [] defaultMaxInstructionCount
  = err (msgInstructionTooLarge "Prog").
Proof. by_evaluation. Qed.

Lemma packLoop_error funder luts before after maxInstructionCount rest
    output current e :
  packLoop funder luts before after maxInstructionCount rest output current
  = err e →
  ∃ ix, ix ∈ rest ∧ e = msgInstructionTooLarge (programId (instruction ix)).
Proof.
  revert output current. induction rest as [|ix rest IH]; [done|].
  intros output current. rewrite packLoop_cons. cbv zeta.
  repeat case_decide.
  - intros [= <-]. exists ix. split; [by left|done].
  - pose proof (size_within_budget_keys (before ++ [ix] ++ after) funder luts).
    lia.
  - intros (ix' & Hin & ->)%IH. exists ix'. split; [by right|done].
  - intros (ix' & Hin & ->)%IH. exists ix'. split; [by right|done].
Qed.

(** The packer only ever fails on the byte test: a batch within 1232
    bytes is never reported to hold more than 128 keys, so neither of the
    key-count messages is returned. *)
Lemma pack_fails_on_size_only ixs feePayer beforeIxs afterIxs tables
    maxInstructionCount e :
  buildDynamicTransactionsNoSigning ixs feePayer beforeIxs afterIxs tables
    maxInstructionCount = err e →
  e = msgScaffoldTooBig
  ∨ ∃ ix, ix ∈ resolveInstructions ixs feePayer
          ∧ e = msgInstructionTooLarge (programId (instruction ix)).
Proof.
  rewrite buildDynamicTransactionsNoSigning_unfold. cbv zeta.
  repeat case_decide.
  - intros [= <-]. by left.
  - match goal with H : ¬ _ < txSize (getTransactionSize ?l ?f ?t) |- _ =>
      pose proof (size_within_budget_keys l f t) end. lia.
  - destruct (packLoop _ _ _ _ _ _ _ _) as [[out cur]|e'] eqn:Hloop.
    + by case_decide.
    + intros [= <-]. right. by apply packLoop_error in Hloop.
Qed.

(** C5, at the input where the code departs from it: an instruction with
    129 unique keys (the payer, the program and 127 accounts), packed
    without compression tables, fails with the byte-size message, not with
    the message for too many unique accounts; and for no input at all does
    the packer return one of its two key-overflow messages: the byte test
    comes first in the scaffolding check and in the minimal-batch check,
    and a batch within 1232 bytes is never reported to hold more than 128
    keys. *)
Theorem key_overflow_reported_as_size_overflow :
  size (allKeys [{| instruction := manyAccountsInstruction 127;
                    signers := [] |}] "Payer") = 129
  ∧ buildDynamicTransactionsNoSigning
      (One (ixToIxReturn (manyAccountsInstruction 127))) payer
      (Many []) (Many []) [] defaultMaxInstructionCount
    = err (msgInstructionTooLarge "Prog")
  ∧ msgInstructionTooLarge "Prog" ≠ msgInstructionTooManyKeys "Prog"
  ∧ ∀ ixs feePayer beforeIxs afterIxs tables maxInstructionCount e,
      buildDynamicTransactionsNoSigning ixs feePayer beforeIxs afterIxs
        tables maxInstructionCount = err e →
      e ≠ msgScaffoldTooManyKeys
      ∧ ∀ program, e ≠ msgInstructionTooManyKeys program.
Proof.
  split; [by_evaluation|]. split; [by_evaluation|].
  split; [apply minimal_batch_messages_differ|].
  intros ixs feePayer beforeIxs afterIxs tables maxInstructionCount e Herr.
  apply pack_fails_on_size_only in Herr as [->|(ix & _ & ->)].
  - split; [done|]. intros program H.
    apply (f_equal (String.get 0)) in H. vm_compute in H. discriminate.
  - split.
    + intros H. apply (f_equal (String.get 0)) in H.
      vm_compute in H. discriminate.
    + intros program. apply minimal_batch_messages_differ.
Qed.

(** ** The signer coordinator *)

Lemma txsToSignOf_indices entry txs :
  (txsToSignOf entry txs).*1 = assignedIndices entry (length txs).
Proof.
  unfold txsToSignOf, assignedIndices.
  assert (Hgen : ∀ k,
    (filter (λ p : nat * TransactionReturn, p.1 ∈ transactions entry)
       (imap (λ index tx, (k + index, tx)) txs)).*1
    = filter (λ i, i ∈ transactions entry) (seq k (length txs))).
  { induction txs as [|tx txs IH]; intros k; [done|].
    rewrite imap_cons. cbn [length seq]. rewrite !filter_cons.
    cbn [fst]. rewrite Nat.add_0_r.
    assert (Hshift : imap ((λ index tx0, (k + index, tx0)) ∘ S) txs
                     = imap (λ index tx0, (S k + index, tx0)) txs).
    { apply imap_ext. intros i x _. simpl. f_equal. lia. }
    rewrite Hshift. case_decide; [rewrite fmap_cons|]; by rewrite IH. }
  apply (Hgen 0).
Qed.

Lemma storeSigned_spec txsToSign newTxs st :
  ∃ st', storeSigned txsToSign newTxs st = (Returns tt, st')
         ∧ signLog st' = signLog st
         ∧ length (unsignedTransactions st')
           = length (unsignedTransactions st).
Proof.
  revert newTxs st.
  induction txsToSign as [|[index tx] rest IH]; intros newTxs st.
  - exists st. by destruct newTxs.
  - destruct newTxs as [|newTx newRest]; [by exists st|].
    cbn [storeSigned]. unfold mbind, sign_bind, signBind, setTransaction.
    edestruct IH as (st' & -> & Hlog & Hlen).
    exists st'. split; [done|]. simpl in *.
    by rewrite Hlog, Hlen, length_alter.
Qed.

(** One batched call: the log grows by the call and, if it resolves, by
    its resolution; the array keeps its length. *)
Lemma signTxns_spec entry st :
  let n := length (unsignedTransactions st) in
  ∃ o st' evs,
    signTxns entry st = (o, st')
    ∧ length (unsignedTransactions st') = n
    ∧ signLog st' = signLog st ++ evs
    ∧ evs `prefix_of` callEvents n entry
    ∧ ((∃ v, o = Returns v) → evs = callEvents n entry).
Proof.
  intros n. unfold signTxns, callEvents.
  unfold mbind, sign_bind, signBind, readTransactions, logEvent, throwSign.
  cbn [unsignedTransactions signLog].
  rewrite txsToSignOf_indices. fold n.
  destruct (signAll _ _) as [newTxs|].
  - case_decide as Hlen.
    + edestruct storeSigned_spec as (st' & -> & Hlog & Hl).
      eexists _, st', _. split; [done|]. simpl in *.
      rewrite Hlog, Hl, <- app_assoc. by repeat split.
    + eexists _, _, _. split; [done|]. simpl.
      rewrite <- app_assoc. by repeat split.
  - eexists _, _, [_]. split; [done|]. simpl. repeat split.
    + by eexists [_].
    + by intros [? ?].
Qed.

Lemma signPass_spec wanted values st o st' :
  let n := length (unsignedTransactions st) in
  signPass wanted values st = (o, st') →
  length (unsignedTransactions st') = n
  ∧ ∃ evs,
      signLog st' = signLog st ++ evs
      ∧ evs `prefix_of`
          concat (callEvents n <$> filter (λ e, wanted e = true) values)
      ∧ ((∃ v, o = Returns v) →
         evs = concat (callEvents n <$> filter (λ e, wanted e = true) values)).
Proof.
  intros n. subst n. revert st.
  induction values as [|entry rest IH]; intros st.
  - intros [= <- <-]. split; [done|]. exists []. by rewrite app_nil_r.
  - cbn [signPass]. unfold mbind, sign_bind, signBind.
    rewrite filter_cons. destruct (wanted entry) eqn:Hw.
    + rewrite decide_True by done. rewrite fmap_cons. cbn [concat].
      destruct (signTxns_spec entry st)
        as (o1 & st1 & evs1 & -> & Hlen1 & Hlog1 & Hpre1 & Hfull1).
      destruct o1 as [[]|e].
      * intros Hrest. apply IH in Hrest as (Hlen & evs & Hlog & Hpre & Hfull).
        rewrite Hlen1 in *. split; [done|].
        rewrite Hfull1 in * by eauto.
        exists (callEvents (length (unsignedTransactions st)) entry ++ evs).
        split; [by rewrite Hlog, Hlog1, app_assoc|].
        split; [by apply prefix_app|].
        intros Hv. by rewrite Hfull.
      * intros [= <- <-]. split; [done|]. exists evs1.
        split; [done|]. split; [by apply prefix_app_r|]. by intros [? ?].
    + rewrite decide_False by done. unfold signRet. apply IH.
Qed.

Lemma calledSigners_callEvents n entries :
  calledSigners (concat (callEvents n <$> entries))
  = (λ e, publicKey (signer e)) <$> entries.
Proof.
  induction entries as [|e es IH]; [done|].
  rewrite !fmap_cons. cbn [concat]. unfold calledSigners in *.
  rewrite omap_app, IH. done.
Qed.

(** C7, as the code has it: the log of a signing cycle is a run of
    completed batched calls of the round-trip signers, in map order, each
    over all the messages assigned to the signer, followed by such a run of
    the local signers; no local signer is called before every round-trip
    signer has been called and has resolved; no registered signer is called
    more often than it is registered; and when the cycle returns, every
    registered signer has been called exactly once. *)
Theorem signing_passes unsigned signers outcome st :
  signTransactionReturns unsigned signers = (outcome, st) →
  let n := length unsigned in
  let asyncCalls := concat (callEvents n <$> asyncEntries signers) in
  let localCalls := concat (callEvents n <$> localEntries signers) in
  (∃ a l, signLog st = a ++ l
          ∧ a `prefix_of` asyncCalls
          ∧ l `prefix_of` localCalls
          ∧ (l ≠ [] → a = asyncCalls))
  ∧ calledSigners (signLog st) ⊆+ registeredSigners signers
  ∧ ((∃ v, outcome = Returns v) →
     signLog st = asyncCalls ++ localCalls
     ∧ calledSigners (signLog st) ≡ₚ registeredSigners signers).
Proof.
  intros Hrun n asyncCalls localCalls.
  assert (Hperm : calledSigners (asyncCalls ++ localCalls)
                  ≡ₚ registeredSigners signers).
  { unfold calledSigners, asyncCalls, localCalls.
    rewrite omap_app. fold calledSigners.
    rewrite !calledSigners_callEvents, <- fmap_app.
    unfold registeredSigners, asyncEntries, localEntries.
    by rewrite filter_app_complement. }
  assert (Hshape : ∃ a l, signLog st = a ++ l
            ∧ a `prefix_of` asyncCalls ∧ l `prefix_of` localCalls
            ∧ (l ≠ [] → a = asyncCalls)
            ∧ ((∃ v, outcome = Returns v) →
               a = asyncCalls ∧ l = localCalls)).
  { revert Hrun. unfold signTransactionReturns.
    unfold mbind at 1. unfold sign_bind, signBind.
    destruct (signPass _ _ _) as [o1 st1] eqn:Hp1.
    apply signPass_spec in Hp1 as (Hlen1 & a & Hlog1 & Hpre1 & Hfull1).
    cbn [unsignedTransactions signLog] in *.
    destruct o1 as [[]|e]; cycle 1.
    { intros [= <- <-]. exists a, []. rewrite app_nil_r.
      split; [done|]. split; [done|]. split; [apply prefix_nil|].
      split; [done|]. intros [v Hv]. done. }
    rewrite Hfull1 in * by eauto.
    unfold mbind at 1. unfold sign_bind, signBind.
    destruct (signPass _ _ st1) as [o2 st2] eqn:Hp2.
    apply signPass_spec in Hp2 as (Hlen2 & l & Hlog2 & Hpre2 & Hfull2).
    rewrite Hlen1 in *.
    assert (Hlocal : filter (λ e, negb (requiresAsync (signer e)) = true)
                       signers.*2 = localEntries signers).
    { apply list_filter_iff. intros e. destruct (requiresAsync (signer e));
        simpl; split; try done. }
    rewrite Hlocal in *. fold n localCalls in Hpre2, Hfull2.
    fold n asyncCalls in Hlog1, Hlog2.
    intros Hrun. destruct o2 as [[]|e]; unfold readTransactions in Hrun;
      injection Hrun as <- <-.
    - exists asyncCalls, l. rewrite Hlog2, Hlog1.
      split; [done|]. split; [done|]. split; [done|]. split; [done|].
      intros _. split; [done|]. apply Hfull2. by exists ().
    - exists asyncCalls, l. rewrite Hlog2, Hlog1.
      split; [done|]. split; [done|]. split; [done|]. split; [done|].
      intros [v Hv]. done. }
  destruct Hshape as (a & l & Hlog & Ha & Hl & Horder & Hfull).
  split; [by exists a, l|]. split.
  - rewrite <- Hperm, Hlog.
    assert (Hprefix : a ++ l `prefix_of` asyncCalls ++ localCalls).
    { destruct l as [|ev l].
      - rewrite app_nil_r. by apply prefix_app_r.
      - rewrite Horder by done. by apply prefix_app. }
    destruct Hprefix as [k ->]. unfold calledSigners.
    rewrite (omap_app _ (a ++ l) k). by apply submseteq_inserts_r.
  - intros Hv. destruct (Hfull Hv) as [-> ->]. split; [done|].
    by rewrite Hlog.
Qed.

Lemma signing_passes_witness :
  ∃ outcome st,
    signTransactionReturns sampleMessages (sampleSigners signingWallet)
    = (outcome, st)
    ∧ signLog st = [SignAllCalled "Wallet" [1]; SignAllResolved "Wallet";
                    SignAllCalled "Payer" [0; 1]; SignAllResolved "Payer"]
    ∧ calledSigners (signLog st)
      ≡ₚ registeredSigners (sampleSigners signingWallet).
Proof.
  eexists _, _. split; [by_evaluation|]. split; [reflexivity|].
  edestruct (signing_passes sampleMessages (sampleSigners signingWallet))
    as (_ & _ & Hfull); [by_evaluation|].
  destruct Hfull as [_ Hperm]; [by eexists|]. exact Hperm.
Defined.

(** C7 fails as stated: the wallet declines, its promise rejects, the cycle
    ends there, and the registered local signer is never called. *)
Lemma signing_passes_counterexample :
  ∃ outcome st,
    signTransactionReturns sampleMessages (sampleSigners decliningWallet)
    = (outcome, st)
    ∧ outcome = Throws (SignerRejected "Wallet")
    ∧ registeredSigners (sampleSigners decliningWallet) = ["Payer"; "Wallet"]
    ∧ calledSigners (signLog st) = ["Wallet"]
    ∧ ¬ calledSigners (signLog st)
        ≡ₚ registeredSigners (sampleSigners decliningWallet).
Proof.
  eexists _, _. split; [by_evaluation|]. split; [reflexivity|].
  split; [reflexivity|]. split; [reflexivity|].
  intros Hperm. by apply Permutation_length in Hperm.
Qed.

(** ** Submission *)

Lemma fireInterval_intervals raw o maxRetries ticks count rt :
  activeIntervals (fireInterval raw o maxRetries ticks count rt)
  = activeIntervals rt.
Proof.
  revert count rt. induction ticks as [|ticks IH]; intros count rt; [done|].
  cbn [fireInterval]. rewrite IH. by case_decide.
Qed.

Lemma fireInterval_nextIntervalId raw o maxRetries ticks count rt :
  nextIntervalId (fireInterval raw o maxRetries ticks count rt)
  = nextIntervalId rt.
Proof.
  revert count rt. induction ticks as [|ticks IH]; intros count rt; [done|].
  cbn [fireInterval]. rewrite IH. by case_decide.
Qed.

(** C8: whatever the outcome of a send call, no interval it created is
    left active: the resend timer is cleared on every exit path.  The call
    leaves before creating a timer, with the exception thrown, when
    serializing the transaction throws (nothing is sent), when the
    signature check of a versioned transaction throws (nothing is sent),
    and when the first send throws.  After that the timer exists and is
    cleared whether the confirmation request throws, in which case the
    exception propagates, or returns; and when the confirmation comes back
    with an execution error, the call returns, it does not throw, and the
    value is the failure carrying that error. *)
Theorem send_clears_timer_and_returns_failure serialize tr connection options
    retryInterval maxRetries ticks rt outcome rt' :
  sendTransaction serialize tr connection options retryInterval maxRetries
    ticks rt = (outcome, rt') →
  activeIntervals rt' ⊆ activeIntervals rt
  ∧ (∀ e, serialize (transaction tr) = Throws e →
          outcome = Throws e ∧ rt' = rt)
  ∧ ∀ raw,
      serialize (transaction tr) = Returns raw →
      (∀ e, isVersionedTransaction (transaction tr) = true →
            verifySignatures serialize (transaction tr) = Throws e →
            outcome = Throws e ∧ rt' = rt)
      ∧ (verifySignatures serialize (transaction tr) = Returns tt →
         (∀ e, sendRawTransaction connection raw (options ≫= sendOptions)
               = Throws e →
               outcome = Throws e
               ∧ activeIntervals rt' = activeIntervals rt
               ∧ nextIntervalId rt' = nextIntervalId rt)
         ∧ ∀ signature,
             sendRawTransaction connection raw (options ≫= sendOptions)
             = Returns signature →
             nextIntervalId rt' = S (nextIntervalId rt)
             ∧ (nextIntervalId rt ∉ activeIntervals rt')
             ∧ (∀ e, confirmTransaction connection signature (rbh tr)
                       (default confirmed (options ≫= optCommitment))
                     = Throws e →
                     outcome = Throws e)
             ∧ (∀ result e,
                  confirmTransaction connection signature (rbh tr)
                    (default confirmed (options ≫= optCommitment))
                  = Returns result →
                  sigErr (value result) = Some e →
                  outcome = Returns {| context := context result;
                                       value := err e |})).
Proof.
  unfold sendTransaction.
  destruct (serialize (transaction tr)) as [raw|es] eqn:Hraw; cycle 1.
  { intros [= <- <-]. split; [done|]. split; [by intros e [= <-]|].
    by intros raw. }
  assert (Hcheck :
    verifySignatures serialize (transaction tr) = Returns tt →
    (if isVersionedTransaction (transaction tr)
     then verifySignatures serialize (transaction tr) else Returns tt)
    = Returns tt).
  { intros Hv. by destruct (isVersionedTransaction (transaction tr)). }
  destruct (if isVersionedTransaction (transaction tr)
            then verifySignatures serialize (transaction tr) else Returns ())
    as [[]|ev] eqn:Hverify; cycle 1.
  { intros [= <- <-]. split; [done|]. split; [done|].
    intros raw' [= <-]. split.
    - intros e Hversioned He. rewrite Hversioned, He in Hverify.
      by injection Hverify as <-.
    - intros Hv. apply Hcheck in Hv. congruence. }
  destruct (sendRawTransaction connection raw (options ≫= sendOptions))
    as [sig|esend] eqn:Hsend; cycle 1.
  { intros [= <- <-]. split; [done|]. split; [done|].
    intros raw' [= <-]. split.
    - intros e Hversioned He. rewrite Hversioned, He in Hverify. done.
    - intros _. rewrite Hsend. split; [|done].
      intros e [= <-]. done. }
  cbn [setInterval].
  assert (Hstate : ∀ rt0,
    rt0 = clearInterval (nextIntervalId rt)
            (fireInterval raw (options ≫= sendOptions) maxRetries ticks 0
               {| activeIntervals :=
                    {[nextIntervalId rt]}
                    ∪ activeIntervals
                        (broadcast raw (options ≫= sendOptions) rt);
                  nextIntervalId :=
                    S (nextIntervalId
                         (broadcast raw (options ≫= sendOptions) rt));
                  broadcasts :=
                    broadcasts
                      (broadcast raw (options ≫= sendOptions) rt) |}) →
    activeIntervals rt0 ⊆ activeIntervals rt
    ∧ nextIntervalId rt0 = S (nextIntervalId rt)
    ∧ nextIntervalId rt ∉ activeIntervals rt0).
  { intros rt0 ->. cbn [clearInterval activeIntervals nextIntervalId].
    rewrite fireInterval_intervals, fireInterval_nextIntervalId.
    cbn [broadcast activeIntervals nextIntervalId].
    split; [set_solver|]. split; [done|set_solver]. }
  destruct (confirmTransaction _ _ _ _) as [result|ec] eqn:Hconfirm.
  - destruct (sigErr (value result)) as [e0|] eqn:Herr; intros [= <- <-];
      destruct (Hstate _ eq_refl) as (Hsub & Hnext & Hcleared);
      (split; [done|]); (split; [done|]);
      intros raw' [= <-]; (split;
        [intros e Hversioned He; rewrite Hversioned, He in Hverify; done|]);
      intros _; rewrite Hsend; (split; [done|]);
      intros signature [= <-]; (split; [done|]); (split; [done|]);
      (split; [intros e He; congruence|]);
      intros result' e Hr He; congruence.
  - intros [= <- <-].
    destruct (Hstate _ eq_refl) as (Hsub & Hnext & Hcleared).
    split; [done|]. split; [done|].
    intros raw' [= <-]. split.
    { intros e Hversioned He. rewrite Hversioned, He in Hverify. done. }
    intros _. rewrite Hsend. split; [done|].
    intros signature [= <-]. split; [done|]. split; [done|].
    split; [intros e He; congruence|].
    intros result e Hr He. congruence.
Qed.

Lemma send_clears_timer_and_returns_failure_witness :
  ∃ outcome rt',
    sendTransaction sampleSerialize signedMessage failingNetwork None
      defaultRetryInterval defaultMaxRetries 2 idleRuntime = (outcome, rt')
    ∧ outcome = Returns {| context := 7;
                           value := err (InstructionError 0 17) |}
    ∧ activeIntervals rt' ⊆ activeIntervals idleRuntime
    ∧ length (broadcasts rt') = 3.
Proof.
  eexists _, _. split; [by_evaluation|].
  edestruct (send_clears_timer_and_returns_failure sampleSerialize
               signedMessage failingNetwork None defaultRetryInterval
               defaultMaxRetries 2 idleRuntime) as (Hsub & _ & Hret);
    [by_evaluation|].
  split; [|split; [exact Hsub|reflexivity]].
  edestruct (Hret [x01]) as [_ Hsent]; [reflexivity|].
  edestruct Hsent as [_ Hconfirmed]; [reflexivity|].
  edestruct (Hconfirmed "Sig") as (_ & _ & _ & Hfail); [reflexivity|].
  apply (Hfail {| context := 7;
                  value := {| sigErr := Some (InstructionError 0 17) |} |}
           (InstructionError 0 17)); reflexivity.
Defined.

(** When the confirmation request itself fails, the exception propagates
    and the timer is cleared all the same. *)
Lemma send_clears_timer_on_exception :
  sendTransaction sampleSerialize signedMessage droppingNetwork None
    defaultRetryInterval defaultMaxRetries 2 idleRuntime
  = (Throws (NetworkError "timeout"),
     {| activeIntervals := ∅; nextIntervalId := 1;
        broadcasts :=
          [([x01], None);
           ([x01], withSkipPreflight None);
           ([x01], withSkipPreflight None)] |}).
Proof. by_evaluation. Qed.

(** A legacy transaction that lacks a signature is refused when it is
    serialized: the call throws before anything is sent and before a timer
    exists. *)
Lemma send_of_unsigned_legacy_transaction :
  sendTransaction sampleSerialize unsignedLegacyMessage failingNetwork None
    defaultRetryInterval defaultMaxRetries 2 idleRuntime
  = (Throws (SerializeError "Signature verification failed"), idleRuntime).
Proof. by_evaluation. Qed.

(** * Further properties of the sizing module *)

(** X1: [containedInLUTCount] splits a key set along a table: the count is
    the number of keys the table holds, the set returned is the keys it
    does not hold, and the two add up to the whole set. *)
Theorem containedInLUTCount_partition (ks lut : gset string) :
  (containedInLUTCount ks lut).1 = size (ks ∩ lut)
  ∧ (containedInLUTCount ks lut).2 = ks ∖ lut
  ∧ (containedInLUTCount ks lut).1 + size (containedInLUTCount ks lut).2
    = size ks.
Proof.
  destruct (containedInLUTCount_spec ks lut) as [Hc Hn].
  split; [|split].
  - rewrite Hc. f_equal. set_solver.
  - rewrite Hn. set_solver.
  - apply containedInLUTCount_total.
Qed.

Lemma scanLuts_finished_above sas lc inc rem used entries i b b' :
  scanLuts sas lc inc rem used entries i b = Finished b' →
  b' = b ∨ MAX_TRANSACTION_SIZE ≤ bestSize b'.
Proof.
  revert i b. induction entries as [|e es IH]; intros i b.
  - intros [= <-]. by left.
  - rewrite scanLuts_cons. repeat case_decide; try done; intros Hs.
    + right. apply IH in Hs as [->|?]; simpl; lia.
    + by apply IH in Hs.
Qed.

Lemma findBestLookupTables_le sas sz lc inc rem used luts :
  MAX_TRANSACTION_SIZE ≤ sz →
  txSize (findBestLookupTables sas sz lc inc rem used luts) ≤ sz.
Proof.
  remember (length luts) as n eqn:Hn.
  revert sz lc inc rem used luts Hn.
  induction (lt_wf n) as [n _ IH]; intros sz lc inc rem used luts -> Hsz.
  destruct luts as [|l ls].
  - by rewrite findBestLookupTables_nil.
  - rewrite findBestLookupTables_cons.
    destruct (scanLuts _ _ _ _ _ _ _ _) as [r|best] eqn:Hscan.
    + apply scanLuts_returned in Hscan as (Hlt & _). lia.
    + case_decide as Hne; [done|].
      pose proof (scanLuts_finished_above _ _ _ _ _ _ _ _ _ Hscan) as Habove.
      apply scanLuts_finished in Hscan as [->|(Hidx & Hlt & _)]; [done|].
      destruct Habove as [->|Habove]; [done|]. simpl in Hidx, Hlt.
      etrans; [|apply Nat.lt_le_incl, Hlt].
      eapply IH; [|reflexivity|done].
      apply spliceOut_length. simpl. lia.
Qed.

(** X2: supplying lookup tables never makes the estimate larger than the
    estimate without tables. *)
Theorem tables_never_increase_estimate ixs funder luts :
  txSize (getTransactionSize ixs funder luts)
  ≤ txSize (getTransactionSize ixs funder []).
Proof.
  rewrite !getTransactionSize_unfold.
  rewrite (decide_True (P := _ ∨ length [] = 0)) by (by right). simpl.
  repeat case_decide; simpl; try done.
  apply findBestLookupTables_le. lia.
Qed.

Lemma scanLuts_returned_from sas lc inc rem used entries i b r :
  scanLuts sas lc inc rem used entries i b = Returned r →
  ∃ lut, lut ∈ entries ∧ txLookupTables r = used ++ [lut.2].
Proof.
  revert i b. induction entries as [|e es IH]; intros i b; [done|].
  rewrite scanLuts_cons. repeat case_decide.
  - intros [= <-]. exists e. split; [by left|done].
  - intros (lut & Hin & Hl)%IH. exists lut. split; [by right|done].
  - intros (lut & Hin & Hl)%IH. exists lut. split; [by right|done].
Qed.

Lemma spliceOut_middle {T} (i : nat) (l : list T) (x : T) :
  l !! i = Some x → l ≡ₚ x :: spliceOut i l.
Proof.
  intros Hi. unfold spliceOut.
  rewrite <- (take_drop_middle l i x Hi) at 1.
  by rewrite Permutation_middle.
Qed.

Lemma findBestLookupTables_tables sas sz lc inc rem used luts :
  ∃ extra,
    txLookupTables (findBestLookupTables sas sz lc inc rem used luts)
    = used ++ extra
    ∧ extra ⊆+ luts.*2.
Proof.
  remember (length luts) as n eqn:Hn.
  revert sz lc inc rem used luts Hn.
  induction (lt_wf n) as [n _ IH]; intros sz lc inc rem used luts ->.
  destruct luts as [|l ls].
  - rewrite findBestLookupTables_nil. exists []. by rewrite app_nil_r.
  - rewrite findBestLookupTables_cons.
    destruct (scanLuts _ _ _ _ _ _ _ _) as [r|best] eqn:Hscan.
    + apply scanLuts_returned_from in Hscan as (lut & Hin & ->).
      exists [lut.2]. split; [done|].
      apply singleton_submseteq_l. by apply list_elem_of_fmap_2.
    + case_decide as Hne.
      { exists []. simpl. rewrite app_nil_r. split; [done|].
        apply submseteq_nil_l. }
      apply scanLuts_finished in Hscan as [->|(Hidx & _)]; [done|].
      simpl in Hidx.
      destruct (lookup_lt_is_Some_2 (l :: ls) (bestLutIndex best))
        as [x Hx]; [simpl; lia|].
      rewrite nth_lookup, Hx. simpl.
      edestruct (IH (length (spliceOut (bestLutIndex best) (l :: ls))))
        as (extra & -> & Hsub); [|reflexivity|].
      { apply spliceOut_length. simpl. lia. }
      exists (x.2 :: extra). rewrite <- app_assoc. split; [done|].
      change (x.2 :: extra ⊆+ (l :: ls).*2).
      rewrite (spliceOut_middle _ (l :: ls) _ Hx) at 1. rewrite fmap_cons.
      by apply submseteq_skip.
Qed.

(** X3: the tables an estimate selects are taken from the tables supplied,
    none more often than it was supplied. *)
Theorem selected_tables_from_candidates ixs funder tables :
  txLookupTables (getTransactionSize ixs funder (buildLookupTableSet tables))
  ⊆+ tables.
Proof.
  rewrite getTransactionSize_unfold.
  repeat case_decide; simpl; try apply submseteq_nil_l.
  destruct (findBestLookupTables_tables (staticAccountSizeOf ixs funder)
              (baselineSize ixs funder) 0 0 (eligibleKeysOf ixs funder) []
              (buildLookupTableSet tables)) as (extra & -> & Hsub).
  simpl. etrans; [exact Hsub|].
  unfold buildLookupTableSet. rewrite <- list_fmap_compose.
  by rewrite list_fmap_id.
Qed.

(** X4: with more than 128 distinct keys the tables supplied are not looked
    at: the estimate is the one without tables, it selects none, reports
    all the keys, and is over the byte budget. *)
Theorem tables_ignored_beyond_key_limit ixs funder luts :
  MAX_UNIQUE_KEYS_COUNT < size (allKeys ixs funder) →
  getTransactionSize ixs funder luts = getTransactionSize ixs funder []
  ∧ txLookupTables (getTransactionSize ixs funder luts) = []
  ∧ uniqueKeyCount (getTransactionSize ixs funder luts)
    = size (allKeys ixs funder)
  ∧ MAX_TRANSACTION_SIZE < txSize (getTransactionSize ixs funder luts).
Proof.
  rewrite <- uniqueKeysOf_spec. intros Hkeys.
  pose proof (baselineSize_lower ixs funder) as Hlow.
  rewrite !getTransactionSize_unfold.
  rewrite (decide_True (P := _ ∨ length [] = 0)) by (by right).
  unfold MAX_TRANSACTION_SIZE, MAX_UNIQUE_KEYS_COUNT in *.
  repeat case_decide; simpl; try lia; repeat split; try done; lia.
Qed.

Lemma tables_ignored_beyond_key_limit_witness :
  getTransactionSize [{| instruction := manyAccountsInstruction 127;
                         signers := [] |}] "Payer"
    (buildLookupTableSet [tableOfAll 127])
  = {| txSize := 4363; txLookupTables := []; uniqueKeyCount := 129 |}.
Proof.
  destruct (tables_ignored_beyond_key_limit
              [{| instruction := manyAccountsInstruction 127;
                  signers := [] |}] "Payer"
              (buildLookupTableSet [tableOfAll 127])) as (-> & _).
  - by_evaluation.
  - by_evaluation.
Defined.

(** X5: in an estimate that goes to the selector (the uncompressed size is
    over 1232 bytes and there are at most 128 keys), the first supplied
    table whose projected size is strictly below 1232 bytes is the one
    table selected, and the estimate is its projected size. *)
Theorem estimate_accepts_first_fitting_table ixs funder pre lut post :
  let sas := staticAccountSizeOf ixs funder in
  let eligible := eligibleKeysOf ixs funder in
  MAX_TRANSACTION_SIZE < baselineSize ixs funder →
  uniqueKeysOf ixs funder ≤ MAX_UNIQUE_KEYS_COUNT →
  Forall (λ e, ¬ projectedSize sas 0 0 eligible e < MAX_TRANSACTION_SIZE) pre →
  projectedSize sas 0 0 eligible lut < MAX_TRANSACTION_SIZE →
  getTransactionSize ixs funder (pre ++ lut :: post)
  = {| txSize := projectedSize sas 0 0 eligible lut;
       txLookupTables := [lut.2];
       uniqueKeyCount := size eligible |}.
Proof.
  intros sas eligible Hbase Hkeys Hpre Hlut.
  rewrite getTransactionSize_unfold.
  rewrite decide_False.
  - rewrite decide_False by lia.
    by rewrite (findBestLookupTables_accepts_first _ _ _ _ _ _ pre lut post).
  - rewrite length_app. simpl. lia.
Qed.

Lemma estimate_accepts_first_fitting_table_witness :
  getTransactionSize [wideInstruction] "Payer"
    (buildLookupTableSet [tableOfStrangers; tableOfThree; tableOfTwo])
  = {| txSize := 1201; txLookupTables := [tableOfThree];
       uniqueKeyCount := 3 |}.
Proof.
  change (buildLookupTableSet [tableOfStrangers; tableOfThree; tableOfTwo])
    with (buildLookupTableSet [tableOfStrangers]
          ++ (list_to_set (addresses tableOfThree), tableOfThree)
          :: buildLookupTableSet [tableOfTwo]).
  rewrite estimate_accepts_first_fitting_table.
  - by_evaluation.
  - by_evaluation.
  - by_evaluation.
  - by_evaluation.
  - by_evaluation.
Defined.

Lemma elem_of_accountsOf ixs (s : AccountMeta) :
  s ∈ accountsOf ixs ↔ ∃ iws, iws ∈ ixs ∧ s ∈ keys (instruction iws).
Proof.
  unfold accountsOf. induction ixs as [|ix ixs IH].
  - split; [by intros ?%elem_of_nil|].
    by intros (iws & ?%elem_of_nil & _).
  - rewrite fmap_cons. cbn [concat]. rewrite elem_of_app, IH. split.
    + intros [Hs|(iws & Hin & Hs)].
      * exists ix. split; [by left|done].
      * exists iws. split; [by right|done].
    + intros (iws & [->|Hin]%elem_of_cons & Hs); [by left|right].
      by exists iws.
Qed.

Lemma keySets_subseteq ixs ixs' funder :
  (∀ iws, iws ∈ ixs → iws ∈ ixs') →
  signerKeys ixs funder ⊆ signerKeys ixs' funder
  ∧ programIdKeys ixs ⊆ programIdKeys ixs'
  ∧ referencedKeys ixs ⊆ referencedKeys ixs'.
Proof.
  intros Hsub.
  assert (Hacc : ∀ s, s ∈ accountsOf ixs → s ∈ accountsOf ixs').
  { intros s (iws & Hin & Hs)%elem_of_accountsOf.
    apply elem_of_accountsOf. exists iws. split; [by apply Hsub|done]. }
  unfold signerKeys, programIdKeys, referencedKeys. repeat split.
  - intros k. rewrite !elem_of_union, !elem_of_list_to_set.
    intros [?|(s & -> & [Hs Hin]%list_elem_of_filter)%list_elem_of_fmap];
      [by left|right].
    apply list_elem_of_fmap. exists s. split; [done|].
    apply list_elem_of_filter. split; [done|by apply Hacc].
  - intros k. rewrite !elem_of_list_to_set.
    intros (iws & -> & Hin)%list_elem_of_fmap.
    apply list_elem_of_fmap. exists iws. split; [done|by apply Hsub].
  - intros k. rewrite !elem_of_list_to_set.
    intros (s & -> & Hin)%list_elem_of_fmap.
    apply list_elem_of_fmap. exists s. split; [done|by apply Hacc].
Qed.

Lemma keySets_perm ixs ixs' funder :
  ixs ≡ₚ ixs' →
  signerKeys ixs funder = signerKeys ixs' funder
  ∧ programIdKeys ixs = programIdKeys ixs'
  ∧ referencedKeys ixs = referencedKeys ixs'.
Proof.
  intros Hperm.
  destruct (keySets_subseteq ixs ixs' funder) as (? & ? & ?).
  { intros iws. by rewrite Hperm. }
  destruct (keySets_subseteq ixs' ixs funder) as (? & ? & ?).
  { intros iws. by rewrite Hperm. }
  repeat split; set_solver.
Qed.

(** X6: the estimate does not depend on the order of the instructions. *)
Theorem estimate_ignores_instruction_order ixs ixs' funder luts :
  ixs ≡ₚ ixs' →
  getTransactionSize ixs funder luts = getTransactionSize ixs' funder luts.
Proof.
  intros Hperm.
  destruct (keySets_perm ixs ixs' funder Hperm) as (Hs & Hp & Hr).
  assert (Hsas : staticAccountSizeOf ixs funder
                 = staticAccountSizeOf ixs' funder).
  { unfold staticAccountSizeOf.
    destruct (collectKeys_spec ixs funder) as (-> & -> & _).
    destruct (collectKeys_spec ixs' funder) as (-> & -> & _).
    rewrite !ixSizes_spec, Hs, Hp.
    by rewrite (Permutation_length Hperm), Hperm. }
  assert (Hel : eligibleKeysOf ixs funder = eligibleKeysOf ixs' funder).
  { unfold eligibleKeysOf.
    destruct (collectKeys_spec ixs funder) as (-> & -> & ->).
    destruct (collectKeys_spec ixs' funder) as (-> & -> & ->).
    by rewrite Hs, Hp, Hr. }
  rewrite !getTransactionSize_unfold.
  unfold baselineSize, uniqueKeysOf. by rewrite Hsas, Hel.
Qed.

Lemma estimate_ignores_instruction_order_witness :
  getTransactionSize
    [{| instruction := scaffoldInstruction; signers := [] |};
     {| instruction := lateInstruction; signers := [] |}] "Payer"
    (buildLookupTableSet overlappingTables)
  = getTransactionSize
      [{| instruction := lateInstruction; signers := [] |};
       {| instruction := scaffoldInstruction; signers := [] |}] "Payer"
      (buildLookupTableSet overlappingTables).
Proof. apply estimate_ignores_instruction_order, perm_swap. Defined.

Lemma compactLengthOf_mono n m : n ≤ m → compactLengthOf n ≤ compactLengthOf m.
Proof. unfold compactLengthOf. repeat case_decide; lia. Qed.

Lemma sum_list_submseteq {A} (f : A → nat) (l1 l2 : list A) :
  l1 ⊆+ l2 → sum_list (f <$> l1) ≤ sum_list (f <$> l2).
Proof.
  induction 1 as [|x l1 l2 _ IH|x y l|x l1 l2 _ IH|l1 l2 l3 _ IH1 _ IH2];
    rewrite ?fmap_cons; cbn [sum_list_with]; lia.
Qed.

Lemma baselineSize_submseteq l1 l2 funder :
  l1 ⊆+ l2 →
  baselineSize l1 funder ≤ baselineSize l2 funder
  ∧ uniqueKeysOf l1 funder ≤ uniqueKeysOf l2 funder.
Proof.
  intros Hsub.
  destruct (keySets_subseteq l1 l2 funder) as (Hs & Hp & Hr).
  { intros iws Hin. by eapply elem_of_submseteq. }
  assert (Hall : size (allKeys l1 funder) ≤ size (allKeys l2 funder)).
  { apply subseteq_size. unfold allKeys. set_solver. }
  split; [|by rewrite !uniqueKeysOf_spec].
  rewrite !baselineSize_spec. unfold staticRegion.
  pose proof (subseteq_size _ _ Hs) as Hsig.
  pose proof (compactLengthOf_mono _ _ Hsig).
  pose proof (compactLengthOf_mono _ _ Hall).
  pose proof (compactLengthOf_mono _ _ (submseteq_length _ _ Hsub)).
  pose proof (sum_list_submseteq perInstructionSize _ _ Hsub).
  lia.
Qed.

Lemma getTransactionSize_no_tables ixs funder :
  getTransactionSize ixs funder []
  = {| txSize := baselineSize ixs funder; txLookupTables := [];
       uniqueKeyCount := uniqueKeysOf ixs funder |}.
Proof.
  rewrite getTransactionSize_unfold.
  by rewrite (decide_True (P := _ ∨ length [] = 0)) by (by right).
Qed.

Lemma getTransactionSize_no_tables_mono l1 l2 funder :
  l1 ⊆+ l2 →
  txSize (getTransactionSize l1 funder [])
  ≤ txSize (getTransactionSize l2 funder [])
  ∧ uniqueKeyCount (getTransactionSize l1 funder [])
    ≤ uniqueKeyCount (getTransactionSize l2 funder []).
Proof.
  intros Hsub. rewrite !getTransactionSize_no_tables. simpl.
  by apply baselineSize_submseteq.
Qed.

(** X7: without lookup tables the estimate is monotone: a message holding
    all the instructions of another, and possibly more, is estimated at
    least as large, and is reported with at least as many keys. *)
Theorem estimate_without_tables_monotone l1 l2 funder :
  l1 ⊆+ l2 →
  txSize (getTransactionSize l1 funder [])
  ≤ txSize (getTransactionSize l2 funder [])
  ∧ uniqueKeyCount (getTransactionSize l1 funder [])
    ≤ uniqueKeyCount (getTransactionSize l2 funder []).
Proof.
  intros Hsub. rewrite !getTransactionSize_no_tables. simpl.
  by apply baselineSize_submseteq.
Qed.

Lemma estimate_without_tables_monotone_witness :
  txSize (getTransactionSize
            [{| instruction := smallInstruction 0; signers := [] |}]
            "Payer" [])
  ≤ txSize (getTransactionSize
              [{| instruction := smallInstruction 1; signers := [] |};
               {| instruction := smallInstruction 0; signers := [] |}]
              "Payer" []).
Proof.
  apply estimate_without_tables_monotone.
  apply submseteq_cons. done.
Defined.

(** X8: when no lookup tables are supplied and there is at least one
    instruction, it is enough that every instruction fits on its own with
    the scaffolding: the scaffolding alone then fits too, the packer
    returns Ok, and the batches, scaffolding removed, concatenate to the
    input. *)
Theorem pack_without_tables ixs feePayer beforeIxs afterIxs
    maxInstructionCount :
  let funder := publicKey feePayer in
  let before := resolveInstructions beforeIxs feePayer in
  let after := resolveInstructions afterIxs feePayer in
  resolveInstructions ixs feePayer ≠ [] →
  (∀ ix, ix ∈ resolveInstructions ixs feePayer →
     fitsBytesAndKeys funder [] (before ++ [ix] ++ after)) →
  ∃ output,
    buildDynamicTransactionsNoSigning ixs feePayer beforeIxs afterIxs []
      maxInstructionCount = ok output
    ∧ concat (stripScaffolding (length before) (length after) <$> output)
      = resolveInstructions ixs feePayer.
Proof.
  intros funder before after Hne Hall.
  rewrite buildDynamicTransactionsNoSigning_unfold. cbv zeta.
  fold funder before after. simpl buildLookupTableSet.
  assert (Hscaffold : fitsBytesAndKeys funder [] (before ++ after)).
  { destruct (resolveInstructions ixs feePayer) as [|ix rest]; [done|].
    destruct (Hall ix) as [Hsz Hk]; [by left|].
    destruct (getTransactionSize_no_tables_mono (before ++ after)
                (before ++ [ix] ++ after) funder) as [Hs Hkeys].
    { apply submseteq_skips_l. simpl. by apply submseteq_cons. }
    split; lia. }
  destruct Hscaffold as [Hsz Hk].
  rewrite !decide_False by lia.
  destruct (packLoop_total funder [] before after maxInstructionCount
              (resolveInstructions ixs feePayer) [] []
              (txLookupTables (getTransactionSize (before ++ after) funder [])))
    as (output & mid & tables & Hloop & Heq); [done|].
  cbn [app concat fmap list_fmap] in Hloop, Heq. rewrite Hloop.
  cbn [instructions].
  case_decide as Hlen.
  - eexists. split; [done|].
    rewrite fmap_app, concat_app. simpl.
    by rewrite stripScaffolding_scaffold, app_nil_r.
  - exists output. split; [done|].
    destruct mid; [by rewrite app_nil_r in Heq|].
    rewrite !length_app in Hlen. simpl in Hlen. lia.
Qed.

Lemma pack_without_tables_witness :
  ∃ output,
    buildDynamicTransactionsNoSigning
      (Many (ixToIxReturn <$> (smallInstruction <$> [2; 3; 4]))) payer
      (One (ixToIxReturn (smallInstruction 0)))
      (One (ixToIxReturn (smallInstruction 1))) [] 4 = ok output
    ∧ concat (stripScaffolding 1 1 <$> output)
      = resolveInstructions
          (Many (ixToIxReturn <$> (smallInstruction <$> [2; 3; 4]))) payer.
Proof.
  apply (pack_without_tables
           (Many (ixToIxReturn <$> (smallInstruction <$> [2; 3; 4]))) payer
           (One (ixToIxReturn (smallInstruction 0)))
           (One (ixToIxReturn (smallInstruction 1))) 4).
  - done.
  - intros ix Hin. simpl in Hin.
    repeat (apply elem_of_cons in Hin as [->|Hin]);
      [| | |by apply elem_of_nil in Hin]; (split; by_evaluation).
Defined.

Section PackerStructure.
Variables (funder : PublicKey) (luts : list LutEntry).
Variables (before after : list InstructionWithSigners).
Variable maxInstructionCount : nat.

Local Abbreviation strip := (stripScaffolding (length before) (length after)).
Local Abbreviation scaffolded :=
  (λ b : InstructionsWithSignersAndLUTs,
     ∃ mid, instructions b = before ++ mid ++ after).

(** What a loop that ends normally has done, whatever the estimates
    were. *)
Lemma packLoop_structure rest output mid tables output' current' :
  packLoop funder luts before after maxInstructionCount rest output
    {| instructions := before ++ mid ++ after; lookupTables := tables |}
  = ok (output', current') →
  ∃ added mid',
    output' = output ++ added
    ∧ instructions current' = before ++ mid' ++ after
    ∧ concat (strip <$> added) ++ mid' = mid ++ rest
    ∧ Forall scaffolded added
    ∧ length added ≤ length rest
    ∧ (rest ≠ [] → mid' ≠ [])
    ∧ (mid ≠ [] → Forall (λ b, strip b ≠ []) added)
    ∧ Forall (λ b, strip b ≠ []) (drop 1 added).
Proof.
  revert output mid tables.
  induction rest as [|ix rest IH]; intros output mid tables.
  - intros [= <- <-]. exists [], mid. rewrite !app_nil_r. simpl.
    repeat split; try done; by constructor.
  - rewrite packLoop_cons. cbv zeta. cbn [instructions].
    case_decide as Hrej.
    + repeat case_decide; try done.
      intros (added & mid' & -> & Hcur & Hcat & Hsc & Hlen & Hne & Hall & _)%IH.
      exists ({| instructions := before ++ mid ++ after;
                 lookupTables := tables |} :: added), mid'.
      rewrite <- app_assoc. split; [done|]. split; [done|].
      rewrite fmap_cons. cbn [concat].
      rewrite stripScaffolding_scaffold, <- app_assoc, Hcat.
      split; [done|]. split; [constructor; [by exists mid|done]|].
      split; [simpl; lia|]. split.
      { intros _. destruct rest; [|by apply Hne].
        simpl in Hlen. destruct added; [|simpl in Hlen; lia].
        simpl in Hcat. by subst. }
      split.
      * intros Hmid. constructor; [by rewrite stripScaffolding_scaffold|].
        by apply Hall.
      * simpl. by apply Hall.
    + rewrite (arrayInsert_scaffold before mid after ix).
      intros (added & mid' & -> & Hcur & Hcat & Hsc & Hlen & Hne & Hall & Hdrop)%IH.
      exists added, mid'. split; [done|]. split; [done|].
      rewrite Hcat, <- app_assoc. split; [done|]. split; [done|].
      split; [simpl; lia|]. split.
      { intros _. destruct rest; [|by apply Hne].
        simpl in Hlen. destruct added; [|simpl in Hlen; lia].
        simpl in Hcat. subst. by destruct mid. }
      split; [|done]. intros _. apply Hall. by destruct mid.
Qed.
End PackerStructure.

(** X9: whenever the packer returns Ok, every batch is the before
    instructions, a run of the input, and the after instructions; the runs
    concatenate to the input in its order; only the first batch can be the
    scaffolding alone; there are at most one more batches than
    instructions, and at least one if there is an instruction. *)
Theorem pack_batches_structure ixs feePayer beforeIxs afterIxs tables
    maxInstructionCount output :
  let before := resolveInstructions beforeIxs feePayer in
  let after := resolveInstructions afterIxs feePayer in
  let strip := stripScaffolding (length before) (length after) in
  buildDynamicTransactionsNoSigning ixs feePayer beforeIxs afterIxs tables
    maxInstructionCount = ok output →
  Forall (λ b, ∃ mid, instructions b = before ++ mid ++ after) output
  ∧ concat (strip <$> output) = resolveInstructions ixs feePayer
  ∧ Forall (λ b, strip b ≠ []) (drop 1 output)
  ∧ length output ≤ length (resolveInstructions ixs feePayer) + 1
  ∧ (resolveInstructions ixs feePayer ≠ [] → output ≠ []).
Proof.
  intros before after strip.
  rewrite buildDynamicTransactionsNoSigning_unfold. cbv zeta.
  fold before after.
  case_decide; [done|]. case_decide; [done|].
  destruct (packLoop _ _ _ _ _ _ _ _) as [[out current]|e] eqn:Hloop; [|done].
  apply (packLoop_structure _ _ before after _ _ [] []) in Hloop
    as (added & mid' & -> & Hcur & Hcat & Hsc & Hlen & Hne & _ & Hdrop).
  cbn [app concat fmap list_fmap length instructions] in *. rewrite Hcur.
  case_decide as Hlong; intros [= <-].
  - assert (Hmid : mid' ≠ []).
    { intros ->. rewrite !length_app in Hlong. simpl in Hlong. lia. }
    split; [apply Forall_app; split; [done|]; constructor; [|done];
            by exists mid'|].
    rewrite fmap_app, concat_app. simpl.
    replace current with {| instructions := before ++ mid' ++ after;
                            lookupTables := lookupTables current |}
      by (destruct current as [ci ct]; cbn [instructions lookupTables] in *;
          by subst).
    unfold strip. rewrite stripScaffolding_scaffold, app_nil_r.
    split; [done|]. split.
    { destruct added as [|b added]; [done|]. cbn [drop app] in *.
      apply Forall_app. split; [done|]. constructor; [|done].
      by rewrite stripScaffolding_scaffold. }
    split; [rewrite length_app; simpl; lia|].
    intros _. by destruct added.
  - assert (mid' = []) as ->.
    { destruct mid'; [done|]. rewrite !length_app in Hlong.
      simpl in Hlong. lia. }
    rewrite app_nil_r in Hcat. split; [done|]. split; [done|].
    split; [done|]. split; [lia|].
    intros Hixs. by specialize (Hne Hixs).
Qed.

Lemma pack_batches_structure_witness :
  ∃ output,
    buildDynamicTransactionsNoSigning
      (One (ixToIxReturn (smallInstruction 2))) payer
      (One (ixToIxReturn (smallInstruction 0)))
      (One (ixToIxReturn (smallInstruction 1))) [] 2 = ok output
    ∧ length output = 2
    ∧ concat (stripScaffolding 1 1 <$> output)
      = [{| instruction := smallInstruction 2; signers := [] |}].
Proof.
  eexists. split; [by_evaluation|]. split; [reflexivity|].
  edestruct (pack_batches_structure
               (One (ixToIxReturn (smallInstruction 2))) payer
               (One (ixToIxReturn (smallInstruction 0)))
               (One (ixToIxReturn (smallInstruction 1))) [] 2)
    as (_ & Hcat & _); [by_evaluation|].
  exact Hcat.
Defined.

(** * Further properties of the signer map *)

Lemma signerMapGet_elem_of k M e :
  signerMapGet k M = Some e → (k, e) ∈ M.
Proof.
  induction M as [|[k' e'] M IH]; [done|]. simpl.
  case_decide as Hk.
  - intros [= <-]. subst. by left.
  - intros H. right. by apply IH.
Qed.

Lemma signerMapGet_None k M :
  signerMapGet k M = None ↔ k ∉ M.*1.
Proof.
  induction M as [|[k' e'] M IH]; simpl.
  - split; [intros _; apply not_elem_of_nil|done].
  - case_decide as Hk.
    + subst. split; [done|]. intros H. exfalso. apply H. by left.
    + rewrite IH, not_elem_of_cons. naive_solver.
Qed.

Lemma signerMapGet_NoDup k e M :
  NoDup M.*1 → (k, e) ∈ M → signerMapGet k M = Some e.
Proof.
  induction M as [|[k' e'] M IH]; simpl.
  - intros _ H. by apply elem_of_nil in H.
  - intros [Hnot Hnd]%NoDup_cons [[= -> ->]|Hin]%elem_of_cons.
    + by rewrite decide_True.
    + case_decide as Hk; [|by apply IH].
      subst. exfalso. apply Hnot. apply list_elem_of_fmap.
      by exists (k, e).
Qed.

Lemma signerMapGet_app k M N :
  signerMapGet k (M ++ N) = signerMapGet k M ∪ signerMapGet k N.
Proof.
  induction M as [|[k' e'] M IH]; simpl.
  - by destruct (signerMapGet k N).
  - case_decide; [by destruct (signerMapGet k N)|done].
Qed.

Lemma signerMapAddIndex_keys k i M :
  (signerMapAddIndex k i M).*1 = M.*1.
Proof.
  induction M as [|[k' e'] M IH]; [done|]. simpl.
  case_decide; simpl; [done|]. f_equal. apply IH.
Qed.

Lemma signerMapAddIndex_get k' k i M :
  signerMapGet k' (signerMapAddIndex k i M)
  = if decide (k' = k)
    then (λ e, {| signer := signer e;
                  transactions := {[i]} ∪ transactions e |})
           <$> signerMapGet k M
    else signerMapGet k' M.
Proof.
  induction M as [|[k0 e0] M IH]; simpl.
  - by case_decide.
  - destruct (decide (k0 = k)) as [->|Hk0]; simpl.
    + destruct (decide (k' = k)) as [->|Hk'].
      * by rewrite !decide_True.
      * by rewrite !decide_False.
    + destruct (decide (k0 = k')) as [->|Hk0'].
      * by rewrite decide_False.
      * rewrite IH. by destruct (decide (k' = k)).
Qed.

Lemma registerSigner_keys i M s :
  (registerSigner i M s).*1
  = if decide (publicKey s ∈ M.*1) then M.*1 else M.*1 ++ [publicKey s].
Proof.
  unfold registerSigner.
  destruct (signerMapGet (publicKey s) M) as [e|] eqn:Hget.
  - rewrite decide_True.
    + apply signerMapAddIndex_keys.
    + apply signerMapGet_elem_of in Hget. apply list_elem_of_fmap.
      by exists (publicKey s, e).
  - rewrite decide_False by by apply signerMapGet_None.
    by rewrite fmap_app.
Qed.

Lemma registerSigner_NoDup i M s :
  NoDup M.*1 → NoDup (registerSigner i M s).*1.
Proof.
  intros Hnd. rewrite registerSigner_keys. case_decide as Hin; [done|].
  apply NoDup_app. split; [done|]. split.
  - intros x Hx ->%list_elem_of_singleton. done.
  - apply NoDup_singleton.
Qed.

Lemma registerSigner_get k i M s :
  signerMapGet k (registerSigner i M s)
  = if decide (k = publicKey s)
    then Some match signerMapGet k M with
              | Some e => {| signer := signer e;
                             transactions := {[i]} ∪ transactions e |}
              | None => {| signer := s; transactions := {[i]} |}
              end
    else signerMapGet k M.
Proof.
  unfold registerSigner.
  destruct (signerMapGet (publicKey s) M) as [e|] eqn:Hget.
  - rewrite signerMapAddIndex_get. case_decide as Hk; [|done].
    subst. by rewrite Hget.
  - rewrite signerMapGet_app. simpl. case_decide as Hk.
    + subst. rewrite Hget. by rewrite decide_True.
    + rewrite decide_False by done. by destruct (signerMapGet k M).
Qed.

Lemma registerSigner_owner k i M s :
  ownerOf k (registerSigner i M s)
  = ownerOf k M ∪ (if decide (publicKey s = k) then Some s else None).
Proof.
  unfold ownerOf. rewrite registerSigner_get.
  destruct (decide (k = publicKey s)) as [->|Hk].
  - rewrite decide_True by done. by destruct (signerMapGet _ M).
  - rewrite decide_False by done. by destruct (signerMapGet _ M).
Qed.

Lemma registerSigner_indices k i M s :
  indicesOf k (registerSigner i M s)
  = if decide (publicKey s = k) then {[i]} ∪ indicesOf k M
    else indicesOf k M.
Proof.
  unfold indicesOf. rewrite registerSigner_get.
  destruct (decide (k = publicKey s)) as [->|Hk].
  - rewrite decide_True by done. destruct (signerMapGet _ M); simpl; [done|].
    set_solver.
  - by rewrite decide_False.
Qed.

Lemma head_filter_app {A} (P : A → Prop) `{!∀ x, Decision (P x)} (l1 l2 : list A) :
  head (filter P (l1 ++ l2)) = head (filter P l1) ∪ head (filter P l2).
Proof.
  rewrite filter_app.
  destruct (filter P l1); simpl; by destruct (head (filter P l2)).
Qed.

Lemma option_union_assoc {A} (x y z : option A) :
  x ∪ (y ∪ z) = x ∪ y ∪ z.
Proof. by destruct x, y, z. Qed.

Lemma foldl_registerSigner_NoDup i ss M :
  NoDup M.*1 → NoDup (foldl (registerSigner i) M ss).*1.
Proof.
  revert M. induction ss as [|s ss IH]; intros M Hnd; [done|].
  simpl. apply IH. by apply registerSigner_NoDup.
Qed.

Lemma foldl_registerSigner_owner k i ss M :
  ownerOf k (foldl (registerSigner i) M ss)
  = ownerOf k M ∪ head (filter (λ s, publicKey s = k) ss).
Proof.
  revert M. induction ss as [|s ss IH]; intros M; simpl.
  - by destruct (ownerOf k M).
  - rewrite IH, registerSigner_owner, filter_cons, <- option_union_assoc.
    f_equal.
    destruct (decide (publicKey s = k)); simpl;
      by destruct (head (filter _ ss)).
Qed.

Lemma foldl_registerSigner_indices k i ss M :
  indicesOf k (foldl (registerSigner i) M ss)
  = if decide (k ∈ publicKey <$> ss) then {[i]} ∪ indicesOf k M
    else indicesOf k M.
Proof.
  revert M. induction ss as [|s ss IH]; intros M.
  - by destruct (decide (k ∈ publicKey <$> [])) as [H%elem_of_nil|].
  - cbn [foldl]. rewrite fmap_cons, IH, registerSigner_indices.
    destruct (decide (publicKey s = k)) as [<-|Hk].
    + rewrite (decide_True (P := _ ∈ _ :: _)) by by left.
      case_decide; set_solver.
    + destruct (decide (k ∈ publicKey <$> ss)) as [Hin|Hin].
      * rewrite decide_True; [done|]. by right.
      * rewrite decide_False; [done|].
        intros [?|?]%elem_of_cons; by subst.
Qed.

Lemma registerAll_NoDup idx txs M :
  NoDup M.*1 → NoDup (registerAll idx txs M).*1.
Proof.
  revert idx M. induction txs as [|t txs IH]; intros idx M Hnd; [done|].
  simpl. apply IH. by apply foldl_registerSigner_NoDup.
Qed.

Lemma registerAll_owner k idx txs M :
  ownerOf k (registerAll idx txs M)
  = ownerOf k M
    ∪ head (filter (λ s, publicKey s = k) (concat (signersOf <$> txs))).
Proof.
  revert idx M. induction txs as [|t txs IH]; intros idx M; simpl.
  - by destruct (ownerOf k M).
  - rewrite IH, foldl_registerSigner_owner, head_filter_app.
    by rewrite option_union_assoc.
Qed.

Lemma registerAll_indices k idx txs M j :
  j ∈ indicesOf k (registerAll idx txs M)
  ↔ j ∈ indicesOf k M
    ∨ ∃ p t, txs !! p = Some t ∧ j = idx + p
             ∧ k ∈ publicKey <$> signersOf t.
Proof.
  revert idx M. induction txs as [|t txs IH]; intros idx M; simpl.
  - split; [by left|]. intros [?|(p & t & Hp & _)]; done.
  - rewrite IH, foldl_registerSigner_indices. split.
    + intros [Hin|(p & t' & Hp & -> & Hk)].
      * case_decide as Hk.
        -- apply elem_of_union in Hin as [->%elem_of_singleton|Hin];
             [|by left].
           right. exists 0, t. by rewrite Nat.add_0_r.
        -- by left.
      * right. exists (S p), t'. split; [done|]. split; [lia|done].
    + intros [Hin|(p & t' & Hp & -> & Hk)].
      * left. case_decide; set_solver.
      * destruct p as [|p]; simpl in Hp.
        -- injection Hp as ->. left. rewrite decide_True by done.
           rewrite Nat.add_0_r. set_solver.
        -- right. exists p, t'. split; [done|]. split; [lia|done].
Qed.

Lemma signer_map_NoDup txs feePayer :
  NoDup (signerMapOf txs feePayer).*1.
Proof.
  apply registerAll_NoDup. destruct feePayer; simpl.
  - apply NoDup_singleton.
  - apply NoDup_nil_2.
Qed.

Lemma signer_map_owner txs feePayer k :
  ownerOf k (signerMapOf txs feePayer)
  = head (filter (λ s, publicKey s = k) (suppliedSigners txs feePayer)).
Proof.
  unfold signerMapOf, suppliedSigners.
  rewrite registerAll_owner, head_filter_app. f_equal.
  destruct feePayer as [s|key]; simpl; [|done].
  unfold ownerOf. simpl. rewrite filter_cons, filter_nil.
  by case_decide.
Qed.

Lemma signer_map_indices txs feePayer k i :
  i ∈ indicesOf k (signerMapOf txs feePayer)
  ↔ (signsAsFeePayer feePayer k ∧ i < length txs) ∨ namedAsSigner txs i k.
Proof.
  unfold signerMapOf.
  rewrite registerAll_indices. unfold namedAsSigner. f_equiv.
  - destruct feePayer as [s|key]; simpl.
    + unfold indicesOf. simpl. case_decide as Hk; simpl.
      * rewrite elem_of_list_to_set, elem_of_seq. naive_solver lia.
      * split; [set_solver|]. naive_solver.
    + unfold indicesOf. simpl. split; [set_solver|]. naive_solver.
  - split.
    + intros (p & t & Hp & -> & Hk). by exists t.
    + intros (t & Hp & Hk). by exists i, t.
Qed.

(** Every entry is stored under the key of its signer. *)
Lemma signer_map_key txs feePayer k e :
  (k, e) ∈ (signerMapOf txs feePayer) →
  publicKey (signer e) = k
  ∧ signer e ∈ suppliedSigners txs feePayer
  ∧ signerMapGet k (signerMapOf txs feePayer)
    = Some e.
Proof.
  intros Hin.
  pose proof (signerMapGet_NoDup _ _ _ (signer_map_NoDup txs feePayer) Hin)
    as Hget.
  pose proof (signer_map_owner txs feePayer k) as Howner.
  unfold ownerOf in Howner. rewrite Hget in Howner. simpl in Howner.
  symmetry in Howner. apply head_Some_elem_of in Howner.
  apply list_elem_of_filter in Howner as [Hk Hs]. done.
Qed.

Lemma promiseAll_Returns {A} (promises : list (Outcome A)) values :
  promiseAll promises = Returns values ↔ promises = Returns <$> values.
Proof.
  revert values. induction promises as [|[a|e] rest IH]; intros values.
  - simpl. split; [by intros [= <-]|]. by destruct values.
  - simpl. destruct (promiseAll rest) as [l|e] eqn:Hrest.
    + split.
      * intros [= <-]. rewrite fmap_cons. f_equal. by apply IH.
      * destruct values as [|v values]; [done|]. rewrite fmap_cons.
        intros [= <- Hr]. apply IH in Hr. by injection Hr as ->.
    + split; [done|]. destruct values as [|v values]; [done|].
      rewrite fmap_cons. intros [= <- Hr]. by apply IH in Hr.
  - simpl. split; [done|]. by destruct values.
Qed.

(** X10: the signer map handed back with the built transactions.  Its keys
    are distinct; the entry stored under a key holds the first signer
    object supplied with that key (the fee payer before any instruction
    signer), so its key is the key it is stored under; and the indices of
    the entry are exactly the transactions the signer has to sign: all of
    them for the fee payer, and every transaction with an instruction
    listing a signer of that key.  A key that nobody supplied has no
    entry.  One transaction is built per input, in order. *)
Theorem signer_map_assignments txs feePayer built signers :
  buildTransactionsFromIxWithSigners txs feePayer = Returns (built, signers) →
  length built = length txs
  ∧ NoDup signers.*1
  ∧ (∀ k e, (k, e) ∈ signers ↔ signerMapGet k signers = Some e)
  ∧ ∀ k,
      match signerMapGet k signers with
      | Some e =>
          publicKey (signer e) = k
          ∧ head (filter (λ s, publicKey s = k)
                    (suppliedSigners txs feePayer)) = Some (signer e)
          ∧ ∀ i, i ∈ transactions e
                 ↔ (signsAsFeePayer feePayer k ∧ i < length txs)
                   ∨ namedAsSigner txs i k
      | None => k ∉ publicKey <$> suppliedSigners txs feePayer
      end.
Proof.
  unfold buildTransactionsFromIxWithSigners.
  destruct (promiseAll _) as [tx|e] eqn:Hall; [|done].
  intros [= <- <-]. apply promiseAll_Returns in Hall.
  split.
  { apply (f_equal length) in Hall. by rewrite !length_fmap in Hall. }
  pose proof (signer_map_NoDup txs feePayer) as Hnd.
  split; [done|]. split.
  { intros k e. split.
    - by apply signerMapGet_NoDup.
    - apply signerMapGet_elem_of. }
  intros k. pose proof (signer_map_owner txs feePayer k) as Howner.
  pose proof (signer_map_indices txs feePayer k) as Hidx.
  unfold ownerOf, indicesOf in *.
  destruct (signerMapGet k (signerMapOf txs feePayer)) as [e|]; simpl in *.
  - split; [|split; [done|done]].
    symmetry in Howner. apply head_Some_elem_of in Howner.
    by apply list_elem_of_filter in Howner as [? _].
  - intros (s & -> & Hin)%list_elem_of_fmap.
    symmetry in Howner. apply head_None in Howner.
    assert (s ∈ filter (λ s0, publicKey s0 = publicKey s)
                  (suppliedSigners txs feePayer))
      by by apply list_elem_of_filter.
    rewrite Howner in *. by eapply elem_of_nil.
Qed.

Lemma signer_map_assignments_witness :
  ∃ built signers,
    buildTransactionsFromIxWithSigners sampleTransactions (PayerSigner payer)
    = Returns (built, signers)
    ∧ signers.*1 = ["Payer"; "Owner"]
    ∧ NoDup signers.*1
    ∧ length built = 2.
Proof.
  eexists _, _. split; [reflexivity|]. split; [reflexivity|].
  edestruct (signer_map_assignments sampleTransactions (PayerSigner payer))
    as (Hlen & Hnd & _); [reflexivity|].
  split; [exact Hnd|exact Hlen].
Defined.

(** * Further properties of the signing cycle *)

Lemma txsToSignOf_elem_of entry txs i tr :
  (i, tr) ∈ txsToSignOf entry txs
  ↔ i ∈ transactions entry ∧ txs !! i = Some tr.
Proof.
  unfold txsToSignOf. rewrite list_elem_of_filter, elem_of_lookup_imap.
  simpl. split.
  - intros [Hin (j & x & Heq & Hj)]. injection Heq as -> ->. done.
  - intros [Hin Hl]. split; [done|]. by exists i, tr.
Qed.

Lemma txsToSignOf_NoDup entry txs : NoDup (txsToSignOf entry txs).*1.
Proof.
  rewrite txsToSignOf_indices. apply NoDup_filter, NoDup_seq.
Qed.

Lemma withTransaction_same tr : withTransaction (transaction tr) tr = tr.
Proof. by destruct tr. Qed.

(** The store loop, whatever the signer answered: the messages keep their
    blockhash and commitment, and the ones outside the batch are not
    touched. *)
Lemma storeSigned_lookup pairs news st :
  ∃ arr',
    storeSigned pairs news st
    = (Returns tt, {| unsignedTransactions := arr'; signLog := signLog st |})
    ∧ length arr' = length (unsignedTransactions st)
    ∧ (∀ j, rbh <$> arr' !! j = rbh <$> unsignedTransactions st !! j)
    ∧ (∀ j, commitment <$> arr' !! j
            = commitment <$> unsignedTransactions st !! j)
    ∧ (∀ j, j ∉ pairs.*1 → arr' !! j = unsignedTransactions st !! j).
Proof.
  revert news st.
  induction pairs as [|[index tx] rest IH]; intros news st.
  - exists (unsignedTransactions st). destruct st. by destruct news.
  - destruct news as [|newTx newRest].
    { exists (unsignedTransactions st). destruct st. done. }
    cbn [storeSigned]. unfold mbind, sign_bind, signBind, setTransaction.
    edestruct IH as (arr' & -> & Hlen & Hrbh & Hcom & Hout).
    exists arr'. cbn [unsignedTransactions signLog] in *.
    split; [done|]. split; [by rewrite Hlen, length_alter|].
    split; [|split].
    + intros j. rewrite Hrbh, list_lookup_alter. case_decide; [|done].
      subst. by destruct (_ !! j).
    + intros j. rewrite Hcom, list_lookup_alter. case_decide; [|done].
      subst. by destruct (_ !! j).
    + intros j Hj. rewrite fmap_cons in Hj.
      apply not_elem_of_cons in Hj as [Hne Hj].
      rewrite Hout by done. by rewrite list_lookup_alter_ne.
Qed.

(** The store loop after a signer that answered pointwise. *)
Lemma storeSigned_pointwise f pairs st :
  NoDup pairs.*1 →
  (∀ i tr, (i, tr) ∈ pairs → unsignedTransactions st !! i = Some tr) →
  ∃ arr',
    storeSigned pairs ((λ p, f (transaction p.2)) <$> pairs) st
    = (Returns tt, {| unsignedTransactions := arr'; signLog := signLog st |})
    ∧ ∀ j, arr' !! j
           = (λ tr, if decide (j ∈ pairs.*1)
                    then withTransaction (f (transaction tr)) tr else tr)
               <$> unsignedTransactions st !! j.
Proof.
  revert st. induction pairs as [|[index tx] rest IH]; intros st Hnd Hlook.
  - exists (unsignedTransactions st). destruct st. split; [done|].
    intros j. simpl. by destruct (_ !! j).
  - rewrite fmap_cons in Hnd. apply NoDup_cons in Hnd as [Hnot Hnd].
    rewrite fmap_cons. cbn [storeSigned].
    unfold mbind, sign_bind, signBind, setTransaction.
    edestruct IH as (arr' & -> & Harr); [done| |].
    { intros i tr Hin. cbn [unsignedTransactions].
      rewrite list_lookup_alter_ne; [apply Hlook; by right|].
      intros <-. apply Hnot. apply list_elem_of_fmap. by exists (index, tr). }
    exists arr'. cbn [unsignedTransactions signLog] in *.
    split; [done|]. intros j. rewrite Harr, list_lookup_alter.
    rewrite fmap_cons. cbn [fst snd].
    destruct (decide (index = j)) as [<-|Hne].
    + rewrite (Hlook index tx) by by left. simpl.
      rewrite decide_False by done. rewrite decide_True by by left.
      done.
    + destruct (unsignedTransactions st !! j) as [tr|]; [|done]. simpl.
      f_equal. destruct (decide (j ∈ rest.*1)) as [Hin|Hin].
      * rewrite decide_True; [done|]. by right.
      * rewrite decide_False; [done|].
        intros [?|?]%elem_of_cons; by subst.
Qed.

(** One batched call of a signer that answers pointwise on the messages
    assigned to it. *)
Lemma signTxns_pointwise entry able f st :
  signsPointwise (signer entry) able f →
  (∀ i tr, i ∈ transactions entry →
           unsignedTransactions st !! i = Some tr → able (transaction tr)) →
  ∃ arr',
    signTxns entry st
    = (Returns tt,
       {| unsignedTransactions := arr';
          signLog := signLog st
                     ++ callEvents (length (unsignedTransactions st)) entry |})
    ∧ length arr' = length (unsignedTransactions st)
    ∧ ∀ j, arr' !! j
           = (λ tr, if decide (j ∈ transactions entry)
                    then withTransaction (f (transaction tr)) tr else tr)
               <$> unsignedTransactions st !! j.
Proof.
  intros Hf Hable. unfold signTxns, callEvents.
  unfold mbind, sign_bind, signBind, readTransactions, logEvent, throwSign.
  cbn [unsignedTransactions signLog].
  rewrite Hf; cycle 1.
  { apply Forall_fmap, Forall_fmap, Forall_forall. intros [i tr] Hin.
    apply txsToSignOf_elem_of in Hin as [Hi Htr]. by apply (Hable i). }
  rewrite decide_True by by rewrite !length_fmap.
  rewrite <- !list_fmap_compose. unfold compose.
  cbn [unsignedTransactions signLog].
  edestruct (storeSigned_pointwise f
               (txsToSignOf entry (unsignedTransactions st))
               {| unsignedTransactions := unsignedTransactions st;
                  signLog := (signLog st
                              ++ [SignAllCalled (publicKey (signer entry))
                                    (txsToSignOf entry
                                       (unsignedTransactions st)).*1])
                             ++ [SignAllResolved
                                   (publicKey (signer entry))] |})
    as (arr' & Hstore & Harr);
    [apply txsToSignOf_NoDup| |].
  { intros i tr [_ Hl]%txsToSignOf_elem_of. exact Hl. }
  rewrite Hstore.
  edestruct (storeSigned_spec (txsToSignOf entry (unsignedTransactions st)))
    as (st' & Hspec & _ & Hlen).
  rewrite Hstore in Hspec. injection Hspec as <-.
  exists arr'. cbn [unsignedTransactions signLog] in *.
  rewrite txsToSignOf_indices, <- app_assoc. split; [done|].
  split; [done|].
  intros j. rewrite Harr.
  destruct (unsignedTransactions st !! j) as [tr|] eqn:Hj; [|done]. simpl.
  f_equal. rewrite txsToSignOf_indices. unfold assignedIndices.
  apply lookup_lt_Some in Hj.
  destruct (decide (j ∈ transactions entry)) as [Hin|Hin].
  - rewrite decide_True; [done|].
    apply list_elem_of_filter. split; [done|]. apply elem_of_seq. lia.
  - rewrite decide_False; [done|].
    by intros [? _]%list_elem_of_filter.
Qed.

(** One pass over [values], among the entries [watch] of the map: each
    entry of the map stays able to sign the messages assigned to it. *)
Lemma signPass_pointwise able F wanted values (watch : list SignerEntry) st :
  (∀ e, e ∈ values → e ∈ watch) →
  (∀ e, e ∈ watch → signsPointwise (signer e) (able e) (F e)) →
  (∀ e e' tx, e ∈ watch → e' ∈ watch → able e tx → able e (F e' tx)) →
  (∀ e i tr, e ∈ watch → i ∈ transactions e →
             unsignedTransactions st !! i = Some tr →
             able e (transaction tr)) →
  let called := filter (λ e, wanted e = true) values in
  ∃ arr',
    signPass wanted values st
    = (Returns tt,
       {| unsignedTransactions := arr';
          signLog :=
            signLog st
            ++ concat (callEvents (length (unsignedTransactions st))
                         <$> called) |})
    ∧ length arr' = length (unsignedTransactions st)
    ∧ (∀ j, arr' !! j
            = (λ tr, withTransaction
                       (signedBy F called j (transaction tr)) tr)
                <$> unsignedTransactions st !! j)
    ∧ (∀ e i tr, e ∈ watch → i ∈ transactions e →
                 arr' !! i = Some tr → able e (transaction tr)).
Proof.
  intros Hsub Hall Hpres.
  revert st. induction values as [|entry rest IH]; intros st Hable called.
  - exists (unsignedTransactions st). subst called. simpl.
    rewrite app_nil_r. destruct st. split; [done|]. split; [done|].
    split; [|done].
    intros j. simpl. destruct (_ !! j) as [tr|]; [|done]. simpl.
    by rewrite withTransaction_same.
  - subst called. cbn [signPass]. unfold mbind, sign_bind, signBind.
    assert (Hrest : ∀ e, e ∈ rest → e ∈ watch).
    { intros e He. apply Hsub. by right. }
    rewrite filter_cons. destruct (wanted entry) eqn:Hw.
    + rewrite decide_True by done. rewrite fmap_cons. cbn [concat].
      assert (Hentry : entry ∈ watch) by (apply Hsub; by left).
      destruct (signTxns_pointwise entry (able entry) (F entry) st)
        as (arr1 & -> & Hlen1 & Harr1).
      { by apply Hall. }
      { intros i tr. by apply Hable. }
      edestruct (IH Hrest
                   {| unsignedTransactions := arr1;
                      signLog := signLog st
                        ++ callEvents (length (unsignedTransactions st))
                             entry |})
        as (arr' & -> & Hlen & Harr & Hable').
      { intros e i tr He Hi. cbn [unsignedTransactions].
        rewrite Harr1.
        destruct (unsignedTransactions st !! i) as [tr0|] eqn:Htr0; [|done].
        intros [= <-]. case_decide.
        - cbn [withTransaction transaction]. apply Hpres; [done|done|].
          by apply (Hable e i).
        - by apply (Hable e i). }
      exists arr'. cbn [unsignedTransactions signLog] in *.
      rewrite Hlen1, <- app_assoc. split; [done|].
      split; [by rewrite Hlen|]. split; [|done].
      intros j. rewrite Harr, Harr1.
      destruct (unsignedTransactions st !! j) as [tr|]; [|done]. simpl.
      f_equal. unfold signedBy. cbn [foldl].
      by case_decide.
    + rewrite decide_False by done. unfold signRet.
      by apply IH.
Qed.

Lemma localEntries_filter (signers : list (string * SignerEntry)) :
  filter (λ e, negb (requiresAsync (signer e)) = true) signers.*2
  = localEntries signers.
Proof.
  apply list_filter_iff. intros e.
  destruct (requiresAsync (signer e)); simpl; split; done.
Qed.

Lemma passOrder_elem_of (signers : list (string * SignerEntry)) e :
  e ∈ passOrder signers ↔ e ∈ signers.*2.
Proof.
  unfold passOrder, asyncEntries, localEntries.
  rewrite elem_of_app, !list_elem_of_filter.
  destruct (decide (requiresAsync (signer e) = true)); naive_solver.
Qed.

Lemma signedBy_app F es1 es2 j tx :
  signedBy F (es1 ++ es2) j tx = signedBy F es2 j (signedBy F es1 j tx).
Proof. apply foldl_app. Qed.

(** A whole cycle with signers that answer pointwise. *)
Lemma signTransactionReturns_pointwise able F unsigned
    (signers : list (string * SignerEntry)) :
  (∀ e, e ∈ signers.*2 → signsPointwise (signer e) (able e) (F e)) →
  (∀ e e' tx, e ∈ signers.*2 → e' ∈ signers.*2 →
              able e tx → able e (F e' tx)) →
  (∀ e i tr, e ∈ signers.*2 → i ∈ transactions e →
             unsigned !! i = Some tr → able e (transaction tr)) →
  ∃ signed,
    signTransactionReturns unsigned signers
    = (Returns signed,
       {| unsignedTransactions := signed;
          signLog := concat (callEvents (length unsigned)
                               <$> passOrder signers) |})
    ∧ length signed = length unsigned
    ∧ ∀ j, signed !! j
           = (λ tr, withTransaction
                      (signedBy F (passOrder signers) j (transaction tr)) tr)
               <$> unsigned !! j.
Proof.
  intros Hall Hpres Hable. unfold signTransactionReturns.
  unfold mbind at 1. unfold sign_bind, signBind.
  edestruct (signPass_pointwise able F (λ e, requiresAsync (signer e))
               signers.*2 signers.*2
               {| unsignedTransactions := unsigned; signLog := [] |})
    as (arr1 & -> & Hlen1 & Harr1 & Hable1); [done..|].
  unfold mbind at 1. unfold sign_bind, signBind.
  edestruct (signPass_pointwise able F
               (λ e, negb (requiresAsync (signer e)))
               signers.*2 signers.*2
               {| unsignedTransactions := arr1;
                  signLog := [] ++ concat
                    (callEvents (length unsigned)
                       <$> asyncEntries signers) |})
    as (arr2 & Hrun2 & Hlen2 & Harr2 & _); [done..|].
  cbn [unsignedTransactions signLog] in *.
  fold (asyncEntries signers). rewrite Hrun2.
  unfold readTransactions. cbn [unsignedTransactions].
  exists arr2. rewrite localEntries_filter, Hlen1 in *.
  split.
  { unfold passOrder. by rewrite fmap_app, concat_app. }
  split; [by rewrite Hlen2|].
  intros j. rewrite Harr2, Harr1.
  destruct (unsigned !! j) as [tr|]; [|done]. simpl.
  unfold passOrder. by rewrite signedBy_app.
Qed.

Lemma signedWith_keys k tx :
  (txSignatures (signedWith k tx)).*1 = (txSignatures tx).*1.
Proof.
  unfold signedWith. cbn [txSignatures]. rewrite <- list_fmap_compose.
  apply list_fmap_ext. intros i [key s] _. unfold compose. cbn [fst].
  by case_decide.
Qed.

(** A keypair signer signs every transaction in which its key has a
    slot. *)
Lemma keypair_signs_pointwise k :
  signsPointwise (keypairToAsyncSigner k)
    (λ tx, k ∈ (txSignatures tx).*1) (signedWith k).
Proof.
  intros txs Hall. cbn [keypairToAsyncSigner signAll].
  induction Hall as [|tx txs Htx Hall IH]; [done|].
  rewrite fmap_cons. cbn [mapM]. rewrite IH. unfold partialSign.
  by rewrite decide_True by done.
Qed.

(** X11: when every registered signer answers a batch transaction by
    transaction on the messages it is able to sign (the signer of entry
    [e] turns [tx] into [F e tx]), no signer makes a message unsignable for
    another, and every signer is able to sign the messages assigned to it,
    the signing cycle returns, the array it returns is the array it has
    mutated, and message [j] of the result is message [j] of the input with
    its transaction passed through the signers assigned to [j], round-trip
    signers first and local signers after, each group in map order; the
    blockhash and the commitment are those of the input. *)
Theorem signing_with_pointwise_signers able F unsigned
    (signers : list (string * SignerEntry)) :
  (∀ e, e ∈ signers.*2 → signsPointwise (signer e) (able e) (F e)) →
  (∀ e e' tx, e ∈ signers.*2 → e' ∈ signers.*2 →
              able e tx → able e (F e' tx)) →
  (∀ e i tr, e ∈ signers.*2 → i ∈ transactions e →
             unsigned !! i = Some tr → able e (transaction tr)) →
  ∃ signed st,
    signTransactionReturns unsigned signers = (Returns signed, st)
    ∧ unsignedTransactions st = signed
    ∧ length signed = length unsigned
    ∧ ∀ j tr, unsigned !! j = Some tr →
        signed !! j
        = Some (withTransaction
                  (signedBy F (passOrder signers) j (transaction tr)) tr).
Proof.
  intros Hall Hpres Hable.
  destruct (signTransactionReturns_pointwise able F unsigned signers
              Hall Hpres Hable) as (signed & Hrun & Hlen & Hlook).
  eexists signed, _. split; [exact Hrun|]. split; [done|]. split; [done|].
  intros j tr Hj. by rewrite Hlook, Hj.
Qed.

Lemma signing_with_pointwise_signers_witness :
  ∃ signed st,
    signTransactionReturns sampleMessages (sampleSigners signingWallet)
    = (Returns signed, st)
    ∧ signed !! 1
      = Some {| transaction :=
                  {| txVersioned := true; txMessage := [];
                     txSignatures := [("Payer", GoodSignature);
                                      ("Wallet", GoodSignature)] |};
                rbh := {| blockhash := "Hash"; lastValidBlockHeight := 100 |};
                commitment := confirmed |}.
Proof.
  destruct (signing_with_pointwise_signers hasSlot
              (λ e, signedWith (publicKey (signer e)))
              sampleMessages (sampleSigners signingWallet))
    as (signed & st & Hrun & _ & _ & Hlook).
  - intros e He. cbn in He.
    repeat (apply elem_of_cons in He as [->|He]);
      [apply keypair_signs_pointwise|by intros txs _|
       by apply elem_of_nil in He].
  - intros e e' tx _ _. unfold hasSlot. by rewrite signedWith_keys.
  - intros e [|[|i]] tr He Hi [= <-]; cbn in He;
      repeat (apply elem_of_cons in He as [->|He]);
      try (by apply elem_of_nil in He);
      try (by vm_compute in Hi; set_solver);
      unfold hasSlot; vm_compute; set_solver.
  - exists signed, st. split; [exact Hrun|].
    rewrite (Hlook 1 _ eq_refl). vm_compute. reflexivity.
Defined.

(** One batched call, whatever the signer answers. *)
Lemma signTxns_preserves entry st :
  let after := unsignedTransactions (signTxns entry st).2 in
  length after = length (unsignedTransactions st)
  ∧ (∀ j, rbh <$> after !! j = rbh <$> unsignedTransactions st !! j)
  ∧ (∀ j, commitment <$> after !! j
          = commitment <$> unsignedTransactions st !! j)
  ∧ (∀ j, j ∉ transactions entry →
          after !! j = unsignedTransactions st !! j).
Proof.
  unfold signTxns.
  unfold mbind, sign_bind, signBind, readTransactions, logEvent, throwSign.
  cbn [unsignedTransactions signLog].
  destruct (signAll _ _) as [newTxs|]; [|done].
  case_decide; [|done].
  edestruct (storeSigned_lookup
               (txsToSignOf entry (unsignedTransactions st)) newTxs)
    as (arr' & -> & Hlen & Hrbh & Hcom & Hout).
  cbn [snd unsignedTransactions signLog] in *.
  split; [done|]. split; [done|]. split; [done|].
  intros j Hj. apply Hout. rewrite txsToSignOf_indices.
  by intros [? _]%list_elem_of_filter.
Qed.

Lemma signPass_preserves wanted values st :
  let after := unsignedTransactions (signPass wanted values st).2 in
  length after = length (unsignedTransactions st)
  ∧ (∀ j, rbh <$> after !! j = rbh <$> unsignedTransactions st !! j)
  ∧ (∀ j, commitment <$> after !! j
          = commitment <$> unsignedTransactions st !! j)
  ∧ (∀ j, (∀ e, e ∈ values → j ∉ transactions e) →
          after !! j = unsignedTransactions st !! j).
Proof.
  revert st. induction values as [|entry rest IH]; intros st; [done|].
  cbn [signPass]. unfold mbind, sign_bind, signBind.
  destruct (wanted entry).
  - pose proof (signTxns_preserves entry st) as Hone.
    destruct (signTxns entry st) as [[[]|e] st1]; cbn [snd] in *.
    + destruct (IH st1) as (Hlen & Hrbh & Hcom & Hout).
      destruct Hone as (Hlen1 & Hrbh1 & Hcom1 & Hout1).
      split; [by rewrite Hlen|].
      split; [intros j; by rewrite Hrbh|].
      split; [intros j; by rewrite Hcom|].
      intros j Hj. rewrite Hout, Hout1; [done| |].
      * apply Hj. by left.
      * intros e He. apply Hj. by right.
    + destruct Hone as (Hlen1 & Hrbh1 & Hcom1 & Hout1).
      split; [done|]. split; [done|]. split; [done|].
      intros j Hj. apply Hout1, Hj. by left.
  - unfold signRet. destruct (IH st) as (Hlen & Hrbh & Hcom & Hout).
    split; [done|]. split; [done|]. split; [done|].
    intros j Hj. apply Hout. intros e He. apply Hj. by right.
Qed.

Lemma signTransactionReturns_preserves unsigned
    (signers : list (string * SignerEntry)) outcome st :
  signTransactionReturns unsigned signers = (outcome, st) →
  length (unsignedTransactions st) = length unsigned
  ∧ (∀ j, rbh <$> unsignedTransactions st !! j = rbh <$> unsigned !! j)
  ∧ (∀ j, commitment <$> unsignedTransactions st !! j
          = commitment <$> unsigned !! j)
  ∧ (∀ j, (∀ e, e ∈ signers.*2 → j ∉ transactions e) →
          unsignedTransactions st !! j = unsigned !! j)
  ∧ (∀ signed, outcome = Returns signed → signed = unsignedTransactions st).
Proof.
  unfold signTransactionReturns.
  unfold mbind at 1. unfold sign_bind, signBind.
  pose proof (signPass_preserves (λ e, requiresAsync (signer e)) signers.*2
                {| unsignedTransactions := unsigned; signLog := [] |})
    as Hfirst.
  destruct (signPass _ _ _) as [[[]|e1] st1]; cbn [fst snd] in *;
    destruct Hfirst as (Hlen1 & Hrbh1 & Hcom1 & Hout1);
    cbn [unsignedTransactions] in *.
  - unfold mbind at 1. unfold sign_bind, signBind.
    pose proof (signPass_preserves (λ e, negb (requiresAsync (signer e)))
                  signers.*2 st1) as Hsecond.
    destruct (signPass _ _ st1) as [[[]|e2] st2]; cbn [fst snd] in *;
      destruct Hsecond as (Hlen2 & Hrbh2 & Hcom2 & Hout2);
      unfold readTransactions; intros [= <- <-].
    + split; [by rewrite Hlen2|].
      split; [intros j; by rewrite Hrbh2, Hrbh1|].
      split; [intros j; by rewrite Hcom2, Hcom1|].
      split; [intros j Hj; by rewrite Hout2, Hout1|].
      by intros signed [= <-].
    + split; [by rewrite Hlen2|].
      split; [intros j; by rewrite Hrbh2, Hrbh1|].
      split; [intros j; by rewrite Hcom2, Hcom1|].
      split; [intros j Hj; by rewrite Hout2, Hout1|].
      done.
  - intros [= <- <-]. split; [done|]. split; [done|]. split; [done|].
    split; [done|]. done.
Qed.

(** X12: whatever the signers answer and however the cycle ends, the array
    of messages keeps its length, every message keeps its blockhash and
    its commitment, a message assigned to no signer is not touched, and
    when the cycle returns, what it returns is that array. *)
Theorem signing_preserves_messages unsigned
    (signers : list (string * SignerEntry)) :
  let run := signTransactionReturns unsigned signers in
  let final := unsignedTransactions run.2 in
  length final = length unsigned
  ∧ rbh <$> final = rbh <$> unsigned
  ∧ commitment <$> final = commitment <$> unsigned
  ∧ (∀ j, (∀ e, e ∈ signers.*2 → j ∉ transactions e) →
          final !! j = unsigned !! j)
  ∧ (∀ signed, run.1 = Returns signed → signed = final).
Proof.
  intros run final. subst final run.
  destruct (signTransactionReturns unsigned signers) as [outcome st] eqn:Hrun.
  apply signTransactionReturns_preserves in Hrun
    as (Hlen & Hrbh & Hcom & Hout & Hret).
  cbn [fst snd]. split; [done|].
  split; [apply list_eq; intros j; by rewrite !list_lookup_fmap|].
  split; [apply list_eq; intros j; by rewrite !list_lookup_fmap|].
  done.
Qed.

(** ** Keypair signers *)

Lemma signSlots_nil slots : signSlots [] slots = slots.
Proof.
  unfold signSlots. rewrite <- (list_fmap_id slots) at 2.
  apply list_fmap_ext. intros i [key s] _. cbn [fst].
  by destruct (decide (key ∈ [])) as [H%elem_of_nil|].
Qed.

Lemma signedWith_slots k tx :
  txSignatures (signedWith k tx) = signSlots [k] (txSignatures tx).
Proof.
  unfold signedWith, signSlots. cbn [txSignatures].
  apply list_fmap_ext. intros i [key s] _. cbn [fst].
  destruct (decide (key = k)) as [->|Hk].
  - destruct (decide (k ∈ [k])) as [|Hn]; [done|].
    exfalso. apply Hn. by left.
  - destruct (decide (key ∈ [k])) as [Hin%list_elem_of_singleton|]; done.
Qed.

Lemma signSlots_signSlots ks1 ks2 slots :
  signSlots ks2 (signSlots ks1 slots) = signSlots (ks1 ++ ks2) slots.
Proof.
  unfold signSlots. rewrite <- list_fmap_compose.
  apply list_fmap_ext. intros i [key s] _. unfold compose. cbn [fst].
  destruct (decide (key ∈ ks1)) as [H1|H1]; cbn [fst];
    destruct (decide (key ∈ ks2)) as [H2|H2];
    destruct (decide (key ∈ ks1 ++ ks2)) as [H3|H3]; try done;
    rewrite elem_of_app in H3; naive_solver.
Qed.

Lemma signSlots_ext ks ks' slots :
  (∀ k, k ∈ ks ↔ k ∈ ks') → signSlots ks slots = signSlots ks' slots.
Proof.
  intros Hiff. unfold signSlots. apply list_fmap_ext.
  intros i [key s] _. cbn [fst].
  destruct (decide (key ∈ ks)) as [H|H];
    destruct (decide (key ∈ ks')) as [H'|H']; try done;
    apply Hiff in H || apply Hiff in H'; done.
Qed.

Lemma signedBy_signedWith es j tx :
  signedBy (λ e, signedWith (publicKey (signer e))) es j tx
  = {| txVersioned := txVersioned tx;
       txMessage := txMessage tx;
       txSignatures :=
         signSlots ((λ e, publicKey (signer e))
                      <$> filter (λ e, j ∈ transactions e) es)
           (txSignatures tx) |}.
Proof.
  revert tx. induction es as [|e es IH]; intros tx.
  - simpl. rewrite signSlots_nil. by destruct tx.
  - unfold signedBy in *. cbn [foldl]. rewrite filter_cons.
    case_decide.
    + rewrite IH, fmap_cons, signedWith_slots, signSlots_signSlots. done.
    + by rewrite IH.
Qed.

Lemma verifySlots_good index slots :
  Forall (λ slot, slot.2 = GoodSignature) slots →
  verifySlots index slots = Returns tt.
Proof.
  revert index. induction slots as [|[key s] slots IH]; intros index; [done|].
  intros [Hs Hrest]%Forall_cons. simpl in Hs. subst. simpl. by apply IH.
Qed.

(** The keys whose signers are called on message [i]. *)
Lemma signer_map_signing_keys txs feePayer i t k :
  txs !! i = Some t →
  k ∈ (λ e, publicKey (signer e))
        <$> filter (λ e, i ∈ transactions e)
              (passOrder (signerMapOf txs feePayer))
  ↔ signsAsFeePayer feePayer k ∨ k ∈ publicKey <$> signersOf t.
Proof.
  intros Ht. pose proof (signer_map_indices txs feePayer k i) as Hidx.
  unfold indicesOf in Hidx. split.
  - intros (e & -> & [Hi He]%list_elem_of_filter)%list_elem_of_fmap.
    apply passOrder_elem_of, list_elem_of_fmap in He as ([k' e'] & -> & He).
    apply signer_map_key in He as (Hk & _ & Hget). cbn [snd] in *.
    subst k'. rewrite Hget in Hidx. cbn in Hidx.
    apply Hidx in Hi as [[? _]|(t' & Ht' & Hk)]; [by left|].
    right. rewrite Ht in Ht'. by injection Ht' as <-.
  - intros Hk.
    assert (Hi : i ∈ from_option transactions ∅
                   (signerMapGet k (signerMapOf txs feePayer))).
    { apply Hidx. destruct Hk as [Hk|Hk].
      - left. split; [done|]. by eapply lookup_lt_Some.
      - right. by exists t. }
    destruct (signerMapGet k (signerMapOf txs feePayer)) as [e|] eqn:Hget;
      [|by apply elem_of_empty in Hi].
    cbn in Hi. apply signerMapGet_elem_of in Hget.
    pose proof (signer_map_key _ _ _ _ Hget) as (Hkey & _ & _).
    apply list_elem_of_fmap. exists e. split; [done|].
    apply list_elem_of_filter. split; [done|].
    apply passOrder_elem_of, list_elem_of_fmap. by exists (k, e).
Qed.

(** Building and signing with keypair signers only: the messages
    returned. *)
Lemma build_and_sign_keypairs compile txs feePayer built signers :
  (∀ s, s ∈ suppliedSigners txs (PayerSigner feePayer) →
        s = keypairToAsyncSigner (publicKey s)) →
  buildTransactionsFromIxWithSigners txs (PayerSigner feePayer)
  = Returns (built, signers) →
  (∀ i t b k, txs !! i = Some t → built !! i = Some b →
     k ∈ publicKey feePayer :: (publicKey <$> signersOf t) →
     k ∈ (txSignatures (compile (compileArgs b))).*1) →
  ∃ signed st,
    buildAndSignTransactionsFromIxWithSigners compile txs feePayer
    = (Returns signed, st)
    ∧ length signed = length txs
    ∧ ∀ i t b, txs !! i = Some t → built !! i = Some b →
        signed !! i
        = Some {| transaction :=
                    {| txVersioned := txVersioned (compile (compileArgs b));
                       txMessage := txMessage (compile (compileArgs b));
                       txSignatures :=
                         signSlots
                           (publicKey feePayer
                            :: (publicKey <$> signersOf t))
                           (txSignatures (compile (compileArgs b))) |};
                  rbh := builtRbh b;
                  commitment := builtCommitment b |}.
Proof.
  intros Hkeypairs Hbuild Hslots.
  unfold buildAndSignTransactionsFromIxWithSigners. rewrite Hbuild.
  unfold buildTransactionsFromIxWithSigners in Hbuild.
  destruct (promiseAll _) as [tx|e] eqn:Hall; [|done].
  injection Hbuild as -> <-. apply promiseAll_Returns in Hall.
  assert (Hlength : length built = length txs).
  { apply (f_equal length) in Hall. by rewrite !length_fmap in Hall. }
  destruct (signTransactionReturns_pointwise hasSlot
              (λ e, signedWith (publicKey (signer e)))
              (convertBuildTransactionReturn compile <$> built)
              (signerMapOf txs (PayerSigner feePayer)))
    as (signed & Hrun & Hlen & Hlook).
  { intros e ([k e'] & -> & He)%list_elem_of_fmap.
    apply signer_map_key in He as (_ & Hs & _). cbn [snd].
    apply Hkeypairs in Hs. rewrite Hs at 1.
    apply keypair_signs_pointwise. }
  { intros e e' tx _ _. unfold hasSlot. by rewrite signedWith_keys. }
  { intros e i tr ([k e'] & -> & He)%list_elem_of_fmap Hi Htr.
    cbn [snd] in *. rewrite list_lookup_fmap in Htr.
    destruct (built !! i) as [b|] eqn:Hb; [|done].
    injection Htr as <-.
    destruct (lookup_lt_is_Some_2 txs i) as [t Ht].
    { rewrite <- Hlength. by eapply lookup_lt_Some. }
    apply signer_map_key in He as (Hk & _ & Hget).
    unfold hasSlot. cbn [convertBuildTransactionReturn transaction].
    rewrite Hk. apply (Hslots i t b k Ht Hb).
    pose proof (signer_map_indices txs (PayerSigner feePayer) k i) as Hidx.
    unfold indicesOf in Hidx. rewrite Hget in Hidx. cbn in Hidx.
    apply Hidx in Hi as [[-> _]|(t' & Ht' & Hnamed)]; [by left|].
    right. rewrite Ht in Ht'. by injection Ht' as <-. }
  eexists signed, _. split; [exact Hrun|].
  rewrite length_fmap in Hlen. split; [by rewrite Hlen|].
  intros i t b Ht Hb.
  rewrite Hlook, list_lookup_fmap, Hb. cbn [fmap option_fmap option_map].
  f_equal. unfold withTransaction, convertBuildTransactionReturn.
  cbn [rbh commitment transaction].
  rewrite signedBy_signedWith. cbn [txVersioned txMessage txSignatures].
  f_equal. f_equal.
  apply signSlots_ext. intros k.
  rewrite (signer_map_signing_keys _ _ _ _ _ Ht).
  rewrite elem_of_cons. simpl. naive_solver.
Qed.

(** X13: building and signing with keypair signers only.  When the fee
    payer and every signer listed by an instruction is a keypair signer,
    the transactions are built (every blockhash is obtained) and every
    signer has a signature slot in the message compiled for its
    transaction, the call returns one message per input transaction; in
    message [i] the signature slots of the fee payer and of every signer
    listed by an instruction of transaction [i] hold a valid signature,
    every other slot is as compiled, and the message, the blockhash and
    the commitment are as built.  If the compiled message has no other
    slots, the message passes the signature verification done before
    sending. *)
Theorem build_and_sign_with_keypairs serialize compile txs feePayer built
    signers :
  (∀ s, s ∈ suppliedSigners txs (PayerSigner feePayer) →
        s = keypairToAsyncSigner (publicKey s)) →
  buildTransactionsFromIxWithSigners txs (PayerSigner feePayer)
  = Returns (built, signers) →
  (∀ i t b k, txs !! i = Some t → built !! i = Some b →
     k ∈ publicKey feePayer :: (publicKey <$> signersOf t) →
     k ∈ (txSignatures (compile (compileArgs b))).*1) →
  ∃ signed st,
    buildAndSignTransactionsFromIxWithSigners compile txs feePayer
    = (Returns signed, st)
    ∧ length signed = length txs
    ∧ ∀ i t b, txs !! i = Some t → built !! i = Some b →
        let tx := compile (compileArgs b) in
        let who := publicKey feePayer :: (publicKey <$> signersOf t) in
        ∃ tr,
          signed !! i = Some tr
          ∧ rbh tr = builtRbh b
          ∧ commitment tr = builtCommitment b
          ∧ txVersioned (transaction tr) = txVersioned tx
          ∧ txMessage (transaction tr) = txMessage tx
          ∧ txSignatures (transaction tr) = signSlots who (txSignatures tx)
          ∧ (txVersioned tx = true →
             (∀ slot, slot ∈ txSignatures tx → slot.1 ∈ who) →
             verifySignatures serialize (transaction tr) = Returns tt).
Proof.
  intros Hkeypairs Hbuild Hslots.
  destruct (build_and_sign_keypairs compile txs feePayer built signers
              Hkeypairs Hbuild Hslots) as (signed & st & Hrun & Hlen & Hmsg).
  exists signed, st. split; [done|]. split; [done|].
  intros i t b Ht Hb tx who.
  eexists. split; [by apply Hmsg|].
  cbn [rbh commitment transaction txVersioned txMessage txSignatures].
  split; [done|]. split; [done|]. split; [done|]. split; [done|].
  split; [done|].
  intros Hversioned Hcovered. unfold verifySignatures, isVersionedTransaction.
  cbn [txVersioned txSignatures]. fold tx. rewrite Hversioned.
  apply verifySlots_good. unfold signSlots.
  apply Forall_fmap, Forall_forall. intros slot Hslot. simpl.
  by rewrite decide_True by by apply Hcovered.
Qed.

Lemma build_and_sign_with_keypairs_witness :
  ∃ signed st,
    buildAndSignTransactionsFromIxWithSigners sampleCompile
      sampleTransactions payer = (Returns signed, st)
    ∧ length signed = 2
    ∧ ∃ tr, signed !! 1 = Some tr
            ∧ txSignatures (transaction tr)
              = [("Payer", GoodSignature); ("Owner", GoodSignature)]
            ∧ verifySignatures sampleSerialize (transaction tr)
              = Returns tt.
Proof.
  edestruct (build_and_sign_with_keypairs sampleSerialize sampleCompile
               sampleTransactions payer)
    as (signed & st & Hrun & Hlen & Hmsg).
  { intros s Hs. cbn in Hs.
    repeat (apply elem_of_cons in Hs as [->|Hs]);
      [reflexivity..|by apply elem_of_nil in Hs]. }
  { reflexivity. }
  { intros [|[|i]] t b k Ht Hb Hk; [| |done];
      injection Ht as <-; injection Hb as <-; cbn in Hk;
      repeat (apply elem_of_cons in Hk as [->|Hk]);
      try (by apply elem_of_nil in Hk); vm_compute; set_solver. }
  exists signed, st. split; [exact Hrun|]. split; [exact Hlen|].
  edestruct (Hmsg 1) as (tr & Htr & _ & _ & _ & _ & Hslots & Hverify);
    [reflexivity|reflexivity|].
  exists tr. split; [exact Htr|]. split; [exact Hslots|].
  apply Hverify; [reflexivity|].
  intros slot Hslot. vm_compute in Hslot.
  repeat (apply elem_of_cons in Hslot as [->|Hslot]);
    [by left|by right; left|by apply elem_of_nil in Hslot].
Defined.

(** X14: signature verification of a versioned transaction.  It returns
    exactly when every slot holds a valid signature; otherwise it throws
    for the first slot that does not, naming its key and its index: the
    missing-signature error for an all-zero slot, the failed-to-verify
    error for any other. *)
Theorem verifySignatures_versioned serialize tx :
  txVersioned tx = true →
  (verifySignatures serialize tx = Returns tt
   ↔ Forall (λ slot, slot.2 = GoodSignature) (txSignatures tx))
  ∧ ∀ e,
      verifySignatures serialize tx = Throws e
      ↔ ∃ index key s,
          txSignatures tx !! index = Some (key, s)
          ∧ Forall (λ slot, slot.2 = GoodSignature)
              (take index (txSignatures tx))
          ∧ ((s = ZeroSignature ∧ e = MissingSignature key index)
             ∨ (s = BadSignature ∧ e = SignatureFailedToVerify key index)).
Proof.
  intros Hv. unfold verifySignatures, isVersionedTransaction. rewrite Hv.
  assert (Hgen : ∀ slots base,
    (verifySlots base slots = Returns tt
     ↔ Forall (λ slot, slot.2 = GoodSignature) slots)
    ∧ ∀ e,
        verifySlots base slots = Throws e
        ↔ ∃ index key s,
            slots !! index = Some (key, s)
            ∧ Forall (λ slot, slot.2 = GoodSignature) (take index slots)
            ∧ ((s = ZeroSignature ∧ e = MissingSignature key (base + index))
               ∨ (s = BadSignature
                  ∧ e = SignatureFailedToVerify key (base + index)))).
  { induction slots as [|[key s] slots IH]; intros base.
    - split; [done|]. intros e. split; [done|].
      by intros (index & k & s & Hl & _).
    - destruct (IH (S base)) as [IHok IHthrow].
      destruct s; cbn [verifySlots].
      + split.
        * split; [done|]. by intros [Hs _]%Forall_cons.
        * intros e. split.
          -- intros [= <-]. exists 0, key, ZeroSignature.
             rewrite Nat.add_0_r. split; [done|]. split; [by constructor|].
             by left.
          -- intros ([|index] & k & s & Hl & Hgood & He).
             ++ injection Hl as <- <-. rewrite Nat.add_0_r in He.
                by destruct He as [[_ ->]|[? _]].
             ++ by apply Forall_cons in Hgood as [? _].
      + split.
        * split; [done|]. by intros [Hs _]%Forall_cons.
        * intros e. split.
          -- intros [= <-]. exists 0, key, BadSignature.
             rewrite Nat.add_0_r. split; [done|]. split; [by constructor|].
             by right.
          -- intros ([|index] & k & s & Hl & Hgood & He).
             ++ injection Hl as <- <-. rewrite Nat.add_0_r in He.
                by destruct He as [[? _]|[_ ->]].
             ++ by apply Forall_cons in Hgood as [? _].
      + split.
        * rewrite IHok. split; [by constructor|].
          by intros [_ ?]%Forall_cons.
        * intros e. rewrite IHthrow. split.
          -- intros (index & k & s & Hl & Hgood & He).
             exists (S index), k, s. split; [done|].
             split; [by constructor|].
             by replace (base + S index) with (S base + index) by lia.
          -- intros ([|index] & k & s & Hl & Hgood & He).
             ++ injection Hl as <- <-. by destruct He as [[? _]|[? _]].
             ++ exists index, k, s. split; [done|].
                apply Forall_cons in Hgood as [_ Hgood]. split; [done|].
                by replace (S base + index) with (base + S index) by lia. }
  apply (Hgen (txSignatures tx) 0).
Qed.

Lemma verifySignatures_versioned_witness :
  verifySignatures sampleSerialize
    (transaction (builtMessage ["Payer"; "Wallet"]))
  = Throws (MissingSignature "Payer" 0).
Proof.
  apply (verifySignatures_versioned sampleSerialize
           (transaction (builtMessage ["Payer"; "Wallet"])));
    [reflexivity|].
  exists 0, "Payer", ZeroSignature.
  split; [reflexivity|]. split; [by constructor|]. by left.
Defined.

(** * Further properties of submission *)

Lemma fireInterval_broadcasts raw o maxRetries ticks count rt :
  broadcasts (fireInterval raw o maxRetries ticks count rt)
  = broadcasts rt
    ++ replicate (ticks `min` (maxRetries - count)) (raw, withSkipPreflight o).
Proof.
  revert count rt. induction ticks as [|ticks IH]; intros count rt.
  - simpl. by rewrite app_nil_r.
  - cbn [fireInterval]. rewrite IH. case_decide as Hc.
    + cbn [broadcast broadcasts]. rewrite <- app_assoc. f_equal.
      replace (S ticks `min` (maxRetries - count))
        with (S (ticks `min` (maxRetries - S count))) by lia.
      done.
    + replace (maxRetries - S count) with 0 by lia.
      replace (maxRetries - count) with 0 by lia.
      by rewrite !Nat.min_0_r.
Qed.

(** X15: what a send call hands to the network, for a versioned
    transaction that serializes.  If the signature verification throws,
    nothing is sent and no timer is created.  If the first send throws,
    that one send is all, and no timer is created.  Otherwise the network
    receives the first send with the caller's options, followed by one
    resend with preflight skipped for each tick of the timer, at most
    [maxRetries] of them; exactly one timer was created and it is no longer
    active; and when the confirmation reports no error, the call returns
    the signature of the first send. *)
Theorem send_broadcasts serialize tr connection options retryInterval
    maxRetries ticks rt raw :
  txVersioned (transaction tr) = true →
  serialize (transaction tr) = Returns raw →
  let opts := options ≫= sendOptions in
  let run := sendTransaction serialize tr connection options retryInterval
               maxRetries ticks rt in
  match verifySignatures serialize (transaction tr) with
  | Throws e => run = (Throws e, rt)
  | Returns _ =>
      match sendRawTransaction connection raw opts with
      | Throws e => run = (Throws e, broadcast raw opts rt)
      | Returns signature =>
          broadcasts run.2
          = broadcasts rt
            ++ (raw, opts)
               :: replicate (ticks `min` maxRetries)
                    (raw, withSkipPreflight opts)
          ∧ nextIntervalId run.2 = S (nextIntervalId rt)
          ∧ activeIntervals run.2
            = activeIntervals rt ∖ {[nextIntervalId rt]}
          ∧ ∀ result,
              confirmTransaction connection signature (rbh tr)
                (default confirmed (options ≫= optCommitment))
              = Returns result →
              sigErr (value result) = None →
              run.1 = Returns {| context := context result;
                                 value := ok signature |}
      end
  end.
Proof.
  intros Hv Hraw opts run. subst run. unfold sendTransaction.
  rewrite Hraw. unfold isVersionedTransaction. rewrite Hv. fold opts.
  destruct (verifySignatures serialize (transaction tr)) as [[]|e]; [|done].
  destruct (sendRawTransaction connection raw opts) as [signature|e]; [|done].
  cbn [setInterval].
  destruct (confirmTransaction _ _ _ _) as [result|e] eqn:Hconfirm.
  - destruct (sigErr (value result)) eqn:Herr; cbn [fst snd];
      cbn [clearInterval broadcasts nextIntervalId activeIntervals];
      rewrite fireInterval_broadcasts, fireInterval_nextIntervalId,
        fireInterval_intervals;
      cbn [broadcast broadcasts nextIntervalId activeIntervals];
      rewrite Nat.sub_0_r, <- app_assoc;
      (split; [done|]); (split; [done|]); (split; [set_solver|]);
      intros result' [= <-] Hnone; congruence.
  - cbn [fst snd].
    cbn [clearInterval broadcasts nextIntervalId activeIntervals].
    rewrite fireInterval_broadcasts, fireInterval_nextIntervalId,
      fireInterval_intervals.
    cbn [broadcast broadcasts nextIntervalId activeIntervals].
    rewrite Nat.sub_0_r, <- app_assoc.
    split; [done|]. split; [done|]. split; [set_solver|].
    by intros result.
Qed.

Lemma send_broadcasts_witness :
  broadcasts
    (sendTransaction sampleSerialize signedMessage failingNetwork None
       defaultRetryInterval 2 5 idleRuntime).2
  = [([x01], None);
     ([x01], withSkipPreflight None);
     ([x01], withSkipPreflight None)].
Proof.
  pose proof (send_broadcasts sampleSerialize signedMessage failingNetwork
                None defaultRetryInterval 2 5 idleRuntime [x01]
                eq_refl eq_refl) as H.
  cbv zeta in H.
  change (verifySignatures sampleSerialize (transaction signedMessage))
    with (@Returns unit tt) in H.
  cbv iota beta in H.
  change (sendRawTransaction failingNetwork [x01] (None ≫= sendOptions))
    with (@Returns TransactionSignature "Sig") in H.
  cbv iota beta in H. destruct H as [H _]. exact H.
Defined.

(** * Further properties of the lookup table helpers *)

Lemma chunk_count k : 0 < k → S ((k - 20 + 19) / 20) = (k + 19) / 20.
Proof.
  intros Hk. destruct (decide (k ≤ 20)).
  - replace (k - 20 + 19) with 19 by lia.
    rewrite (Nat.div_small 19 20) by lia.
    apply (Nat.div_unique _ _ _ (k - 1)); lia.
  - replace (k + 19) with ((k - 20 + 19) + 1 * 20) by lia.
    rewrite Nat.div_add by lia. lia.
Qed.

Lemma spliceChunks_spec {T} (l : list T) :
  concat (spliceChunks l) = l
  ∧ Forall (λ chunk, 0 < length chunk ≤ 20) (spliceChunks l)
  ∧ length (spliceChunks l) = (length l + 19) / 20
  ∧ ∀ i chunk, spliceChunks l !! i = Some chunk →
               S i < length (spliceChunks l) → length chunk = 20.
Proof.
  remember (length l) as n eqn:Hn. revert l Hn.
  induction n as [n IH] using lt_wf_ind. intros l Hn.
  destruct l as [|a rest].
  - rewrite spliceChunks_equation_1. subst. simpl.
    split; [done|]. split; [done|]. split; [done|]. by intros i chunk.
  - rewrite spliceChunks_equation_2.
    assert (Hshorter : length (drop 20 (a :: rest)) < n).
    { rewrite length_drop, Hn. cbn [length]. lia. }
    destruct (IH _ Hshorter (drop 20 (a :: rest)) eq_refl)
      as (Hcat & Hall & Hlen & Hfull).
    split; [cbn [concat]; by rewrite Hcat, take_drop|].
    split.
    { constructor; [|done]. rewrite length_take. cbn [length]. lia. }
    split.
    { cbn [length app]. rewrite Hlen, length_drop, Hn.
      apply chunk_count. cbn [length]. lia. }
    intros [|i] chunk Hi Hlong.
    + assert (chunk = take 20 (a :: rest)) as -> by by injection Hi.
      cbn [length] in Hlong. rewrite length_take.
      assert (spliceChunks (drop 20 (a :: rest)) ≠ []) as Hne
        by (intros Heq; rewrite Heq in Hlong; simpl in Hlong; lia).
      assert (20 < length (a :: rest)); [|lia].
      destruct (decide (20 < length (a :: rest))); [done|].
      exfalso. apply Hne. rewrite drop_ge by lia.
      apply spliceChunks_equation_1.
    + cbn [length] in Hlong. apply (Hfull i); [done|lia].
Qed.

(** X16: the instructions built to extend a lookup table.  More than 256
    addresses are refused with an error before anything is built.
    Otherwise the addresses are cut, in order and without loss, into
    chunks of 20 (the last one may be shorter, none is empty), one
    instruction is built per chunk, at most 13 of them, and each names the
    payer, the fee payer and the authority as signers. *)
Theorem extend_instructions_chunked extendLookupTable lookupTable authority
    feePayer (addresses : list PublicKey) :
  let result := extendInstructions extendLookupTable lookupTable authority
                  feePayer addresses in
  (256 < length addresses → result = err msgTooManyAddresses)
  ∧ (length addresses ≤ 256 →
     ∃ chunks,
       result
       = ok ((λ chunk (payer : AsyncSigner),
                One {| instruction :=
                         extendLookupTable lookupTable (publicKey authority)
                           (publicKey feePayer) chunk;
                       signers := [payer; feePayer; authority] |})
               <$> chunks)
       ∧ concat chunks = addresses
       ∧ Forall (λ chunk, 0 < length chunk ≤ 20) chunks
       ∧ length chunks = (length addresses + 19) / 20
       ∧ length chunks ≤ 13
       ∧ ∀ i chunk, chunks !! i = Some chunk → S i < length chunks →
                    length chunk = 20).
Proof.
  intros result. subst result. unfold extendInstructions. split.
  - intros Hlong. by rewrite decide_True.
  - intros Hshort. rewrite decide_False by lia.
    destruct (spliceChunks_spec addresses) as (Hcat & Hall & Hlen & Hfull).
    exists (spliceChunks addresses).
    split; [done|]. split; [done|]. split; [done|]. split; [done|].
    split; [|done]. rewrite Hlen.
    apply Nat.lt_succ_r, Nat.Div0.div_lt_upper_bound. lia.
Qed.

(** * Further properties of the utilities *)

(** X17: [arrayDeepEquals] answers true exactly when the two arrays have
    the same length, no element of the second one is null or undefined,
    and the comparison holds at every index. *)
Theorem arrayDeepEquals_spec {T U} (array1 : list T)
    (array2 : list (option U)) (eq : T → U → bool) :
  arrayDeepEquals array1 array2 eq = true
  ↔ Forall2 (λ x y, ∃ u, y = Some u ∧ eq x u = true) array1 array2.
Proof.
  unfold arrayDeepEquals.
  assert (Hgen : ∀ l k acc,
    foldl (λ (prev : bool) (p : nat * T),
             match array2 !! p.1 with
             | Some (Some other) => prev && eq p.2 other
             | _ => false
             end)
      acc (imap (λ index current, (k + index, current)) l) = true
    ↔ acc = true
      ∧ ∀ i x, l !! i = Some x →
          ∃ u, array2 !! (k + i) = Some (Some u) ∧ eq x u = true).
  { induction l as [|x l IH]; intros k acc.
    - simpl. split; [done|]. by intros [-> _].
    - rewrite imap_cons. cbn [foldl fst snd].
      assert (Hshift : imap ((λ index current, (k + index, current)) ∘ S) l
                       = imap (λ index current, (S k + index, current)) l).
      { apply imap_ext. intros i y _. simpl. f_equal. lia. }
      rewrite Hshift, IH, Nat.add_0_r. clear IH Hshift. split.
      + intros [Hstep Hrest].
        destruct (array2 !! k) as [[u|]|] eqn:Hk; try done.
        apply andb_true_iff in Hstep as [-> Heq]. split; [done|].
        intros [|i] y Hy.
        * injection Hy as <-. exists u. by rewrite Nat.add_0_r.
        * destruct (Hrest i y Hy) as (u' & Hu' & Heq').
          exists u'. split; [|done]. by rewrite <- Hu', Nat.add_succ_r.
      + intros [-> Hall].
        destruct (Hall 0 x eq_refl) as (u & Hu & Heq).
        rewrite Nat.add_0_r in Hu. rewrite Hu. split; [done|].
        intros i y Hy. destruct (Hall (S i) y Hy) as (u' & Hu' & Heq').
        exists u'. split; [|done]. by rewrite <- Hu', Nat.add_succ_r. }
  case_decide as Hlen.
  - split; [done|]. intros Hall%Forall2_length. done.
  - change (imap (λ index current, (index, current)) array1)
      with (imap (λ index current, (0 + index, current)) array1).
    rewrite Hgen, Forall2_same_length_lookup. split.
    + intros [_ Hall]. split; [done|]. intros i x y Hx Hy.
      destruct (Hall i x Hx) as (u & Hu & Heq). simpl in Hu.
      exists u. split; [congruence|done].
    + intros [_ Hall]. split; [done|]. intros i x Hx.
      destruct (lookup_lt_is_Some_2 array2 i) as [y Hy].
      { rewrite <- Hlen. by eapply lookup_lt_Some. }
      destruct (Hall i x y Hx Hy) as (u & -> & Heq). by exists u.
Qed.

Lemma findZero_None input : findZero input = None ↔ x00 ∉ input.
Proof.
  induction input as [|b input IH]; simpl.
  - split; [intros _; apply not_elem_of_nil|done].
  - destruct (Byte.eqb b x00) eqn:Hb.
    + apply Byte.byte_dec_bl in Hb as ->. split; [done|].
      intros H. exfalso. apply H. by left.
    + apply Byte.eqb_false in Hb.
      destruct (findZero input); simpl.
      * split; [done|]. intros [_ H]%not_elem_of_cons. by apply IH in H.
      * split; [|done]. intros _. apply not_elem_of_cons.
        split; [done|]. by apply IH.
Qed.

Lemma findZero_app_zero enc rest :
  x00 ∉ enc → findZero (enc ++ x00 :: rest) = Some (length enc).
Proof.
  induction enc as [|b enc IH]; simpl.
  - intros _. done.
  - intros [Hb Henc]%not_elem_of_cons.
    destruct (Byte.eqb b x00) eqn:Heq.
    + by apply Byte.byte_dec_bl in Heq as ->.
    + by rewrite IH.
Qed.

(** X18: a string whose encoding holds no zero byte survives the fixed-size
    encoding: [stringToByteArray] with a size the encoding fits in gives
    exactly that many bytes, and [byteArrayToString] of them decodes the
    encoding of the string, the padding removed; with a smaller size
    [stringToByteArray] throws, and without a size it returns the encoding
    as it is. *)
Theorem byte_string_round_trip encode decode input :
  x00 ∉ encode input →
  stringToByteArray encode input None = ok (encode input)
  ∧ byteArrayToString decode (encode input) = decode (encode input)
  ∧ ∀ n,
      if decide (n < length (encode input))
      then stringToByteArray encode input (Some n) = err "name too long"
      else ∃ bytes,
             stringToByteArray encode input (Some n) = ok bytes
             ∧ length bytes = n
             ∧ byteArrayToString decode bytes = decode (encode input).
Proof.
  intros Hzero. split; [done|]. split.
  { unfold byteArrayToString. by rewrite (proj2 (findZero_None _) Hzero). }
  intros n. unfold stringToByteArray. case_decide as Hn; [done|].
  eexists. split; [done|]. split.
  { rewrite length_app, length_replicate. lia. }
  unfold byteArrayToString.
  destruct (n - length (encode input)) as [|k] eqn:Hk.
  - simpl. rewrite app_nil_r. by rewrite (proj2 (findZero_None _) Hzero).
  - cbn [replicate]. rewrite findZero_app_zero by done.
    by rewrite take_app_length.
Qed.

Lemma byte_string_round_trip_witness :
  ∃ bytes,
    stringToByteArray String.list_byte_of_string "abc" (Some 5) = ok bytes
    ∧ length bytes = 5
    ∧ byteArrayToString String.string_of_list_byte bytes = "abc".
Proof.
  destruct (byte_string_round_trip String.list_byte_of_string
              String.string_of_list_byte "abc") as (_ & _ & Hsized).
  { intros H. vm_compute in H.
    repeat (apply elem_of_cons in H as [H|H]; [discriminate H|]).
    by apply elem_of_nil in H. }
  exact (Hsized 5).
Defined.

(** * Further properties of the account listener *)

Lemma startsWith_spec data value :
  startsWith data value = true ↔ value `prefix_of` data.
Proof.
  unfold startsWith. rewrite bool_decide_eq_true. split.
  - intros <-. apply prefix_take.
  - intros [rest ->]. by rewrite take_app_length.
Qed.

Lemma discriminantToAccountId_first entries data :
  match discriminantToAccountId entries data with
  | Some (key, len) =>
      ∃ i value,
        entries !! i = Some (key, value)
        ∧ len = length value
        ∧ value `prefix_of` data
        ∧ ∀ j e, j < i → entries !! j = Some e → ¬ e.2 `prefix_of` data
  | None => ∀ e, e ∈ entries → ¬ e.2 `prefix_of` data
  end.
Proof.
  induction entries as [|[key value] entries IH]; simpl.
  - intros e He. by apply elem_of_nil in He.
  - destruct (startsWith data value) eqn:Hstart.
    + apply startsWith_spec in Hstart. exists 0, value.
      split; [done|]. split; [done|]. split; [done|]. intros j e Hj. lia.
    + assert (Hno : ¬ value `prefix_of` data).
      { intros H%startsWith_spec. congruence. }
      destruct (discriminantToAccountId entries data) as [[k len]|].
      * destruct IH as (i & v & Hi & Hlen & Hpre & Hbefore).
        exists (S i), v. split; [done|]. split; [done|]. split; [done|].
        intros [|j] e Hj He.
        -- by injection He as <-.
        -- apply (Hbefore j); [lia|done].
      * intros e [->|He]%elem_of_cons; [done|]. by apply IH.
Qed.

(** X19: with discriminants of one length that are pairwise different (as
    the 8-byte account discriminators are), the lookup does not depend on
    the order of the entries: data that starts with the discriminant of an
    account is attributed to that account, with that length. *)
Theorem discriminant_lookup_unique entries data key value n :
  NoDup entries.*2 →
  (∀ e, e ∈ entries → length e.2 = n) →
  (key, value) ∈ entries →
  value `prefix_of` data →
  discriminantToAccountId entries data = Some (key, n).
Proof.
  intros Hnd Hlen Hin Hpre.
  pose proof (discriminantToAccountId_first entries data) as Hfirst.
  destruct (discriminantToAccountId entries data) as [[k len]|].
  - destruct Hfirst as (i & v & Hi & -> & Hv & _).
    assert (Hvin : (k, v) ∈ entries) by by eapply list_elem_of_lookup_2.
    pose proof (Hlen _ Hvin) as Hvn. pose proof (Hlen _ Hin) as Hvaluen.
    simpl in *.
    assert (v = value) as ->.
    { destruct Hv as [r1 ->], Hpre as [r2 Heq].
      apply (f_equal (take n)) in Heq.
      rewrite <- Hvn in Heq at 1. rewrite <- Hvaluen in Heq.
      by rewrite !take_app_length in Heq. }
    f_equal. f_equal; [|done].
    apply list_elem_of_lookup in Hin as [j Hj].
    assert (i = j) as ->.
    { eapply (NoDup_lookup _ _ _ value Hnd);
        rewrite list_lookup_fmap; [by rewrite Hi|by rewrite Hj]. }
    congruence.
  - exfalso. by apply (Hfirst _ Hin).
Qed.

Lemma discriminant_lookup_unique_witness :
  discriminantToAccountId
    [("Fleet", [x01; x02]); ("Ship", [x03; x04])] [x03; x04; x05]
  = Some ("Ship", 2).
Proof.
  apply (discriminant_lookup_unique _ _ "Ship" [x03; x04] 2).
  - cbn. repeat constructor; set_solver.
  - intros e He. repeat (apply elem_of_cons in He as [->|He]); [done..|].
    by apply elem_of_nil in He.
  - by right; left.
  - by exists [x05].
Defined.

(** * Packing, building and signing together *)

Lemma elem_of_concat {A} (x : A) (ls : list (list A)) :
  x ∈ concat ls ↔ ∃ l, l ∈ ls ∧ x ∈ l.
Proof.
  induction ls as [|l ls IH]; simpl.
  - split; [by intros ?%elem_of_nil|]. by intros (l & ?%elem_of_nil & _).
  - rewrite elem_of_app, IH. split.
    + intros [Hx|(l' & Hl' & Hx)].
      * exists l. split; [by left|done].
      * exists l'. split; [by right|done].
    + intros (l' & [->|Hl']%elem_of_cons & Hx); [by left|].
      right. by exists l'.
Qed.

(** Every instruction of an emitted batch is an instruction handed to the
    packer. *)
Lemma pack_batches_subset ixs feePayer beforeIxs afterIxs tables
    maxInstructionCount output b iws :
  buildDynamicTransactionsNoSigning ixs feePayer beforeIxs afterIxs tables
    maxInstructionCount = ok output →
  b ∈ output → iws ∈ instructions b →
  iws ∈ resolveInstructions beforeIxs feePayer
        ++ resolveInstructions ixs feePayer
        ++ resolveInstructions afterIxs feePayer.
Proof.
  rewrite buildDynamicTransactionsNoSigning_unfold. cbv zeta.
  set (before := resolveInstructions beforeIxs feePayer).
  set (after := resolveInstructions afterIxs feePayer).
  case_decide; [done|]. case_decide; [done|].
  destruct (packLoop _ _ _ _ _ _ _ _) as [[out current]|e] eqn:Hloop; [|done].
  apply (packLoop_structure _ _ before after _ _ [] []) in Hloop
    as (added & mid' & -> & Hcur & Hcat & Hsc & _).
  cbn [app concat fmap list_fmap] in Hcat.
  assert (Hmid : ∀ mid, instructions b = before ++ mid ++ after →
                        iws ∈ instructions b →
                        (∀ x, x ∈ mid → x ∈ resolveInstructions ixs feePayer) →
                        iws ∈ before ++ resolveInstructions ixs feePayer
                                ++ after).
  { intros mid Hb' Hin Hsub. rewrite Hb' in Hin.
    apply elem_of_app in Hin as [Hin|Hin]; [apply elem_of_app; by left|].
    apply elem_of_app in Hin as [Hin|Hin].
    - apply elem_of_app. right. apply elem_of_app. left. by apply Hsub.
    - apply elem_of_app. right. apply elem_of_app. by right. }
  assert (Hadded : b ∈ added → iws ∈ instructions b →
                   iws ∈ before ++ resolveInstructions ixs feePayer ++ after).
  { intros Hb Hin. rewrite Forall_forall in Hsc.
    destruct (Hsc b Hb) as [mid Hb']. apply (Hmid mid Hb' Hin).
    intros x Hx. rewrite <- Hcat. apply elem_of_app. left.
    apply elem_of_concat. exists mid. split; [|done].
    apply list_elem_of_fmap. exists b. split; [|done].
    destruct b as [bi bt]. cbn [instructions] in Hb'. subst bi.
    by rewrite stripScaffolding_scaffold. }
  intros Hout Hb Hin. case_decide as Hlong; injection Hout as <-.
  - cbn [app] in Hb. apply elem_of_app in Hb as [Hb|Hb]; [by apply Hadded|].
    apply list_elem_of_singleton in Hb. subst b.
    apply (Hmid mid' Hcur Hin).
    intros x Hx. rewrite <- Hcat. apply elem_of_app. by right.
  - cbn [app] in Hb. by apply Hadded.
Qed.

(** X20: packing, building and signing in one call, with keypair signers
    and a blockhash handed in.  When the fee payer and every signer listed
    by an instruction is a keypair signer, the packer succeeds and every
    signer has a signature slot in the message compiled for its batch, the
    call resolves with one signed message per batch, in order: message [i]
    is compiled from the instructions and the lookup tables of batch [i]
    with the fee payer's key and the blockhash handed in, and the signature
    slots of the fee payer and of the signers listed by the instructions of
    that batch hold a valid signature. *)
Theorem dynamic_transactions_with_keypairs compile ixs feePayer given
    withCommitment beforeIxs afterIxs tables maxInstructionCount output :
  feePayer = keypairToAsyncSigner (publicKey feePayer) →
  (∀ iws s,
     iws ∈ resolveInstructions beforeIxs feePayer
           ++ resolveInstructions ixs feePayer
           ++ resolveInstructions afterIxs feePayer →
     s ∈ signers iws → s = keypairToAsyncSigner (publicKey s)) →
  buildDynamicTransactionsNoSigning ixs feePayer beforeIxs afterIxs tables
    maxInstructionCount = ok output →
  (∀ b k, b ∈ output →
     k ∈ publicKey feePayer
         :: (publicKey <$> concat (signers <$> instructions b)) →
     k ∈ (txSignatures
            (compile
               {| addressLookupTableAccounts := Some (lookupTables b);
                  compileInstructions := instruction <$> instructions b;
                  payerKey := publicKey feePayer;
                  recentBlockhash := blockhash given |})).*1) →
  ∃ signed st,
    buildDynamicTransactions compile ixs feePayer
      (GivenRbh given withCommitment) beforeIxs afterIxs tables
      maxInstructionCount = (Returns (ok signed), st)
    ∧ length signed = length output
    ∧ ∀ i b, output !! i = Some b →
        let tx :=
          compile {| addressLookupTableAccounts := Some (lookupTables b);
                     compileInstructions := instruction <$> instructions b;
                     payerKey := publicKey feePayer;
                     recentBlockhash := blockhash given |} in
        signed !! i
        = Some {| transaction :=
                    {| txVersioned := txVersioned tx;
                       txMessage := txMessage tx;
                       txSignatures :=
                         signSlots
                           (publicKey feePayer
                            :: (publicKey
                                  <$> concat (signers <$> instructions b)))
                           (txSignatures tx) |};
                  rbh := given;
                  commitment := withCommitment |}.
Proof.
  intros Hpayer Hsigners Hpack Hslots.
  unfold buildDynamicTransactions. rewrite Hpack. cbv zeta.
  set (toBuild := λ b : InstructionsWithSignersAndLUTs,
         {| buildIxs := Many (instructions b);
            buildConnectionOrRbh := GivenRbh given withCommitment;
            buildLookupTables := Some (lookupTables b) |}).
  set (toBuilt := λ b : InstructionsWithSignersAndLUTs,
         {| compileArgs :=
              {| addressLookupTableAccounts := Some (lookupTables b);
                 compileInstructions := instruction <$> instructions b;
                 payerKey := publicKey feePayer;
                 recentBlockhash := blockhash given |};
            builtCommitment := withCommitment;
            builtRbh := given |}).
  assert (Hbuild :
    buildTransactionsFromIxWithSigners (toBuild <$> output)
      (PayerSigner feePayer)
    = Returns (toBuilt <$> output,
               signerMapOf (toBuild <$> output) (PayerSigner feePayer))).
  { unfold buildTransactionsFromIxWithSigners.
    assert (promiseAll (buildOne (publicKey feePayer) <$> (toBuild <$> output))
            = Returns (toBuilt <$> output)) as ->; [|done].
    apply promiseAll_Returns. rewrite <- !list_fmap_compose.
    by apply list_fmap_ext. }
  assert (Hkeypairs :
    ∀ s, s ∈ suppliedSigners (toBuild <$> output) (PayerSigner feePayer) →
         s = keypairToAsyncSigner (publicKey s)).
  { intros s [->%list_elem_of_singleton|Hs]%elem_of_app; [done|].
    apply elem_of_concat in Hs as (l & Hl & Hs).
    apply list_elem_of_fmap in Hl as (t & -> & Ht).
    apply list_elem_of_fmap in Ht as (b & -> & Hb).
    unfold signersOf, toBuild in Hs. cbn [buildIxs normalizeArray] in Hs.
    apply elem_of_concat in Hs as (l & Hl & Hs).
    apply list_elem_of_fmap in Hl as (iws & -> & Hiws).
    apply (Hsigners iws); [|done].
    by eapply pack_batches_subset. }
  destruct (build_and_sign_keypairs compile _ _ _ _ Hkeypairs Hbuild)
    as (signed & st & Hrun & Hlen & Hmsg).
  { intros i t b k Ht Hb Hk.
    rewrite list_lookup_fmap in Ht. rewrite list_lookup_fmap in Hb.
    destruct (output !! i) as [batch|] eqn:Hbatch; [|done].
    injection Ht as <-. injection Hb as <-.
    apply (Hslots batch k); [by eapply list_elem_of_lookup_2|done]. }
  rewrite Hrun. exists signed, st. split; [done|].
  rewrite length_fmap in Hlen. split; [done|].
  intros i b Hb.
  apply (Hmsg i (toBuild b) (toBuilt b)); by rewrite list_lookup_fmap, Hb.
Qed.

Lemma dynamic_transactions_with_keypairs_witness :
  ∃ signed st,
    buildDynamicTransactions sampleCompile
      (Many [λ _, One signedInstruction; ixToIxReturn (smallInstruction 0)])
      payer (GivenRbh sampleRbh confirmed) (Many []) (Many []) []
      defaultMaxInstructionCount = (Returns (ok signed), st)
    ∧ length signed = 1.
Proof.
  edestruct (dynamic_transactions_with_keypairs sampleCompile
               (Many [λ _, One signedInstruction;
                      ixToIxReturn (smallInstruction 0)])
               payer sampleRbh confirmed (Many []) (Many []) []
               defaultMaxInstructionCount)
    as (signed & st & Hrun & Hlen & _).
  { reflexivity. }
  { intros iws s Hi Hs. cbn in Hi.
    repeat (apply elem_of_cons in Hi as [->|Hi]);
      [| |by apply elem_of_nil in Hi]; cbn in Hs.
    - apply list_elem_of_singleton in Hs. by subst.
    - by apply elem_of_nil in Hs. }
  { by_evaluation. }
  { intros b k Hb Hk. apply list_elem_of_singleton in Hb. subst b.
    cbn in Hk.
    repeat (apply elem_of_cons in Hk as [->|Hk]);
      try (by apply elem_of_nil in Hk); vm_compute; set_solver. }
  exists signed, st. split; [exact Hrun|exact Hlen].
Defined.
